(** * zustand-cache: the cache store of [src/cache.ts]

    A shallow embedding of the cache engine and the properties of its
    operations.

    [src/cache.ts] holds two listings of the module.  The second one
    (lines 192-412) is the later revision: it adds the statistics counters
    and routes single-entry removal through [set(produce(...))].  It is the
    development's main object.  The first one (lines 1-191) is embedded in
    [Module Earlier] for the operations whose text differs and the loops
    that call them, among them [invalidateIfExpired], which only it has.

    Conventions of the embedding.

    - The zustand state is a value [CacheStore]; [get()] is the state
      threaded through an operation and [set(produce(recipe))] yields the
      next state.  immer's [produce] never changes the objects of the state
      it starts from: a reference read from [get()] before a [set] keeps
      denoting the earlier object, so a [let] bound before a [set] is read
      as bound.
    - immer freezes what [produce] gives back, all the way down.  The
      module is an ES module, hence strict code: an assignment to a
      property of a frozen object, or a [delete] of one of its own
      properties, throws a [TypeError] and changes nothing.  [frozen] says
      whether the store objects of the state are frozen; they are after
      any [set(produce(...))], and they are not in a state that has just
      been read back from storage.  On objects that are not frozen a plain
      assignment or [delete] changes the current state in place.
      [Module Objects] spells the references out for [prune] and
      [getValue], and the operations on [CacheStore] are proved to be what
      it computes.
    - An object used as a dictionary ([stores], [cached]) is a [gmap] over
      its own string keys; a [for ... in] loop is a fold over these keys.
      The order of enumeration is the map's; no result below depends on it.
      A property read [dictionary[name]] also finds what the dictionary
      inherits from [Object.prototype], see [read_property].
      [Object.prototype] and its members are as the language defines them;
      the one operation that writes onto one of them is [setStorePolicy]
      under an inherited name, and what it writes there is not part of the
      state and is not followed.
    - [Date.now()] is the argument [now], read once per operation; numbers
      that are timestamps, durations or counters are integers.
    - A thrown exception is explicit: [Completion] for an operation
      without a result, [Outcome] for one with a result.  Where an
      operation is given as the state it leaves, that is the state whether
      it returns or throws; if it can throw, a companion [..._ends] says
      which. *)

From stdpp Require Import gmap strings list fin_maps.
From Stdlib Require Import ZArith.

Local Open Scope Z_scope.
Local Set Warnings "-register-all".

(** ** Payloads

    [value: any]: the cache stores whatever it is given.  Numbers are the
    integers and [NaN]. *)

Inductive Value : Type :=
| VUndefined
| VNull
| VBool (b : bool)
| VNumber (n : Z)
| VNaN
| VString (s : string)
| VArray (items : list Value)
| VObject (props : list (string * Value)).

(** Induction over payloads, with the property known of the items of an
    array and of the values of an object's properties. *)
Section Value_induction.
Variable P : Value → Prop.
Hypothesis Hundefined : P VUndefined.
Hypothesis Hnull : P VNull.
Hypothesis Hbool : ∀ b, P (VBool b).
Hypothesis Hnumber : ∀ n, P (VNumber n).
Hypothesis Hnan : P VNaN.
Hypothesis Hstring : ∀ s, P (VString s).
Hypothesis Harray : ∀ items, Forall P items → P (VArray items).
Hypothesis Hobject : ∀ props, Forall (λ kx, P kx.2) props → P (VObject props).

Fixpoint Value_nested_ind (v : Value) : P v :=
  match v with
  | VUndefined => Hundefined
  | VNull => Hnull
  | VBool b => Hbool b
  | VNumber n => Hnumber n
  | VNaN => Hnan
  | VString s => Hstring s
  | VArray items =>
      Harray items
        ((fix go (l : list Value) : Forall P l :=
            match l with
            | [] => List.Forall_nil P
            | x :: l' => List.Forall_cons P x l' (Value_nested_ind x) (go l')
            end) items)
  | VObject props =>
      Hobject props
        ((fix go (l : list (string * Value)) : Forall (λ kx, P kx.2) l :=
            match l with
            | [] => List.Forall_nil _
            | kx :: l' => List.Forall_cons (λ kx, P kx.2) kx l' (Value_nested_ind kx.2) (go l')
            end) props)
  end.
End Value_induction.

(** JavaScript's [ToBoolean], the test behind [if (value)]. *)
Definition truthy (v : Value) : bool :=
  match v with
  | VUndefined | VNull | VNaN => false
  | VBool b => b
  | VNumber n => negb (n =? 0)
  | VString EmptyString => false
  | VString _ => true
  | VArray _ | VObject _ => true
  end.

(** ** Policies (lines 198-202)

    A policy object as it exists at run time, by what reading each of its
    properties gives: a value of the property's type, or [undefined]
    ([None]) when the property is not there or holds [undefined].  That
    the three properties of a [Policy] all give a value is a property of
    states, see [complete]. *)

Inductive InvalidationPolicy : Type := never | always | on_expiry.

#[global] Instance InvalidationPolicy_eq_dec : EqDecision InvalidationPolicy.
Proof. solve_decision. Defined.

Record Policy : Type := mkPolicy {
  invalidationPolicy : option InvalidationPolicy;
  expiry : option Z;
  pruneOnSessionStart : option bool
}.

(** A property of a [Partial<Policy>] argument: left out, or given, with
    a value of its type or with [undefined] ([Given None]); the type
    [Partial<Policy>] admits [{ expiry: undefined }]. *)
Inductive Optional (A : Type) : Type :=
| Omitted
| Given (x : option A).

Arguments Omitted {A}.
Arguments Given {A} x.

Module Partial.
Record Policy : Type := mkPolicy {
  invalidationPolicy : Optional InvalidationPolicy;
  expiry : Optional Z;
  pruneOnSessionStart : Optional bool
}.
End Partial.

(** [{...a, ...b}] on one property: the spread copies every own property
    of [b], one that holds [undefined] too; what [b] leaves out stays as
    [a] has it. *)
Definition override {A : Type} (a : option A) (b : Optional A) : option A :=
  match b with
  | Given x => x
  | Omitted => a
  end.

(** [{...a, ...b}] *)
Definition spread (a : Policy) (b : Partial.Policy) : Policy :=
  {| invalidationPolicy := override (invalidationPolicy a) (Partial.invalidationPolicy b);
     expiry := override (expiry a) (Partial.expiry b);
     pruneOnSessionStart := override (pruneOnSessionStart a) (Partial.pruneOnSessionStart b) |}.

(** The literal [{}] passed as a policy. *)
Definition noOverride : Partial.Policy :=
  {| Partial.invalidationPolicy := Omitted; Partial.expiry := Omitted;
     Partial.pruneOnSessionStart := Omitted |}.

(** [b] laid over [a], both partial: [{...a, ...b}] again. *)
Definition overlay (a b : Partial.Policy) : Partial.Policy :=
  let over {A : Type} (x y : Optional A) : Optional A :=
    match y with
    | Given _ => y
    | Omitted => x
    end in
  {| Partial.invalidationPolicy :=
       over (Partial.invalidationPolicy a) (Partial.invalidationPolicy b);
     Partial.expiry := over (Partial.expiry a) (Partial.expiry b);
     Partial.pruneOnSessionStart :=
       over (Partial.pruneOnSessionStart a) (Partial.pruneOnSessionStart b) |}.

(** No property of the argument holds [undefined]. *)
Definition defined {A : Type} (x : Optional A) : bool :=
  match x with
  | Given None => false
  | _ => true
  end.

Definition definite (b : Partial.Policy) : bool :=
  defined (Partial.invalidationPolicy b) && defined (Partial.expiry b)
  && defined (Partial.pruneOnSessionStart b).

(** ** Property reads and [Object.prototype]

    The dictionaries are plain objects: [dictionary[name]] gives the own
    property [name] if there is one, and else what [Object.prototype] has
    under [name].  Its members are functions, and [__proto__] gives
    [Object.prototype] itself: all of them are truthy, and none has a
    property [policy], [cached], [value] or [assignedAt]. *)

Definition prototype_names : list string :=
  [ "constructor"; "hasOwnProperty"; "isPrototypeOf"; "propertyIsEnumerable";
    "toLocaleString"; "toString"; "valueOf"; "__proto__";
    "__defineGetter__"; "__defineSetter__"; "__lookupGetter__"; "__lookupSetter__" ].

Definition inherited (name : string) : bool :=
  bool_decide (name ∈ prototype_names).

Inductive Found (A : Type) : Type :=
| Own (a : A)
| FromPrototype
| NotFound.

Arguments Own {A} a.
Arguments FromPrototype {A}.
Arguments NotFound {A}.

(** [dictionary[name]] *)
Definition read_property {A : Type} (dictionary : gmap string A) (name : string) : Found A :=
  match dictionary !! name with
  | Some a => Own a
  | None => if inherited name then FromPrototype else NotFound
  end.

(** [!dictionary[name]] is [negb] of this, the own properties being
    objects. *)
Definition has_property {A : Type} (dictionary : gmap string A) (name : string) : bool :=
  match read_property dictionary name with
  | NotFound => false
  | _ => true
  end.

(** ** Stores and the state (lines 203-238) *)

Record Entry : Type := mkEntry {
  value : Value;
  assignedAt : Z
}.

Record Store : Type := mkStore {
  cached : gmap string Entry;
  policy : Policy
}.

Record Statistics : Type := mkStatistics {
  hits : Z;
  misses : Z;
  invalidationsDueToExpiry : Z
}.

(** The state, and whether its store objects are frozen. *)
Record CacheStore : Type := mkCacheStore {
  stores : gmap string Store;
  globalPolicy : Policy;
  _debugStatistics : Statistics;
  frozen : bool
}.

Definition with_cached (c : gmap string Entry) (s : Store) : Store :=
  {| cached := c; policy := policy s |}.

Definition with_policy (p : Policy) (s : Store) : Store :=
  {| cached := cached s; policy := p |}.

Definition with_stores (m : gmap string Store) (st : CacheStore) : CacheStore :=
  {| stores := m; globalPolicy := globalPolicy st;
     _debugStatistics := _debugStatistics st; frozen := frozen st |}.

Definition with_globalPolicy (p : Policy) (st : CacheStore) : CacheStore :=
  {| stores := stores st; globalPolicy := p;
     _debugStatistics := _debugStatistics st; frozen := frozen st |}.

Definition with_statistics (d : Statistics) (st : CacheStore) : CacheStore :=
  {| stores := stores st; globalPolicy := globalPolicy st;
     _debugStatistics := d; frozen := frozen st |}.

(** What [set(produce(recipe))] leaves of the state the recipe built:
    immer has frozen it. *)
Definition produced (st : CacheStore) : CacheStore :=
  {| stores := stores st; globalPolicy := globalPolicy st;
     _debugStatistics := _debugStatistics st; frozen := true |}.

(** The state the module starts from (lines 243-248 and 381-385). *)
Definition initialState : CacheStore :=
  {| stores := ∅;
     globalPolicy := {| invalidationPolicy := Some on_expiry;
                        expiry := Some (60 * 60 * 1000);
                        pruneOnSessionStart := Some true |};
     _debugStatistics := {| hits := 0; misses := 0; invalidationsDueToExpiry := 0 |};
     frozen := false |}.

(** The entry of [key] in the store [store], if both are there. *)
Definition entry (st : CacheStore) (store key : string) : option Entry :=
  stores st !! store ≫= λ s, cached s !! key.

(** The own keys of a dictionary, as [for ... in] visits them. *)
Definition keys {A : Type} (m : gmap string A) : list string :=
  (map_to_list m).*1.

(** How an operation that may throw ends.  [ImmerError] is the [Error]
    immer throws when a recipe sets the prototype of a draft. *)
Inductive Thrown : Type :=
| Error (message : string)
| TypeError
| ImmerError.

Inductive Completion : Type :=
| Returns
| Throws (e : Thrown).

Definition throws (c : Completion) : bool :=
  match c with
  | Returns => false
  | Throws _ => true
  end.

(** The same for an operation with a result. *)
Inductive Outcome (A : Type) : Type :=
| Normal (a : A)
| Abrupt (e : Thrown).

Arguments Normal {A} a.
Arguments Abrupt {A} e.

(** A result stands for the outcome that returns it. *)
Definition returned_value (v : Value) : Outcome Value := Normal v.
Definition returned_bool (b : bool) : Outcome bool := Normal b.
Coercion returned_value : Value >-> Outcome.
Coercion returned_bool : bool >-> Outcome.

(** ** Recipes handed to [set(produce(...))] *)

(** [delete state.stores[store].cached[key]] *)
Definition delete_cached (store key : string) (st : CacheStore) : CacheStore :=
  produced
    (with_stores (alter (λ s, with_cached (delete key (cached s)) s) store (stores st)) st).

(** [state.stores[store].cached[key] = { value, assignedAt }] *)
Definition assign_cached (store key : string) (e : Entry) (st : CacheStore) : CacheStore :=
  produced
    (with_stores (alter (λ s, with_cached (<[key := e]> (cached s)) s) store (stores st)) st).

(** ** Writes on the objects of the current state

    What the write does where it goes through, that is, on objects that
    are not frozen; the operations test [frozen] before. *)

(** [storeInstance.cached = {}] on the object [stores[store]] *)
Definition clear_cached (store : string) (st : CacheStore) : CacheStore :=
  with_stores (alter (with_cached ∅) store (stores st)) st.

(** [delete storeInstance.cached[key]] on the object [stores[store]] *)
Definition delete_in_place (store key : string) (st : CacheStore) : CacheStore :=
  with_stores (alter (λ s, with_cached (delete key (cached s)) s) store (stores st)) st.

Arguments delete_cached : simpl never.
Arguments assign_cached : simpl never.
Arguments clear_cached : simpl never.
Arguments delete_in_place : simpl never.

(** ** The comparisons on policies *)

(** [policy.invalidationPolicy === "never"] *)
Definition is_never (p : Policy) : bool :=
  bool_decide (invalidationPolicy p = Some never).

(** [policy.invalidationPolicy !== "on-expiry"] is [negb] of this. *)
Definition is_on_expiry (p : Policy) : bool :=
  bool_decide (invalidationPolicy p = Some on_expiry).

(** [e.assignedAt + policy.expiry < Date.now()]; with [expiry] giving
    [undefined] the sum is [NaN] and the comparison is false. *)
Definition expired (now : Z) (e : Entry) (p : Policy) : bool :=
  match expiry p with
  | Some d => assignedAt e + d <? now
  | None => false
  end.

(** ** The operations, second listing *)

(** lines 333-346; [get().stores[store]] is truthy for a store that is
    there and for a name [Object.prototype] has. *)
Definition createStore (store : string) (partial : Partial.Policy) (st : CacheStore)
  : CacheStore :=
  match read_property (stores st) store with
  | Own _ | FromPrototype => st
  | NotFound =>
      produced
        (with_stores
           (<[store := {| cached := ∅; policy := spread (globalPolicy st) partial |}]>
              (stores st))
           st)
  end.

(** The recipe of [setValue] (lines 351-358) on a store that is there.
    An assignment to [__proto__] goes to the setter [Object.prototype]
    has for it, which sets the prototype; immer refuses that on a draft
    and the recipe throws. *)
Definition write_value (now : Z) (store key : string) (v : Value) (st : CacheStore)
  : CacheStore :=
  if bool_decide (key = "__proto__") then st
  else assign_cached store key {| value := v; assignedAt := now |} st.

(** lines 347-360, the state the call leaves.  Under a name inherited
    from [Object.prototype] no store is created, and the recipe reads
    [cached] off a function: it throws on [undefined]. *)
Definition setValue (now : Z) (store key : string) (v : Value) (st : CacheStore) : CacheStore :=
  match read_property (stores st) store with
  | Own _ => write_value now store key v st
  | FromPrototype => st
  | NotFound => write_value now store key v (createStore store noOverride st)
  end.

Definition setValue_ends (store key : string) (st : CacheStore) : Completion :=
  match read_property (stores st) store with
  | FromPrototype => Throws TypeError
  | _ => if bool_decide (key = "__proto__") then Throws ImmerError else Returns
  end.

(** lines 361-367 *)
Definition setGlobalPolicy (partial : Partial.Policy) (st : CacheStore) : CacheStore :=
  produced (with_globalPolicy (spread (globalPolicy st) partial) st).

(** lines 368-377; [state.stores[store].policy] on a store that is not
    there is a property read on [undefined]: the recipe throws and no
    state is set.  Under an inherited name the recipe assigns [policy] on
    the inherited object, the draft is left as it was and [produce] gives
    the state back, frozen. *)
Definition setStorePolicy (store : string) (partial : Partial.Policy) (st : CacheStore)
  : Completion * CacheStore :=
  match read_property (stores st) store with
  | NotFound => (Throws TypeError, st)
  | FromPrototype => (Returns, produced st)
  | Own s =>
      (Returns,
       produced
         (with_stores (<[store := with_policy (spread (policy s) partial) s]> (stores st)) st))
  end.

(** lines 386-392 *)
Definition _incrementHits (st : CacheStore) : CacheStore :=
  let d := _debugStatistics st in
  produced
    (with_statistics {| hits := hits d + 1; misses := misses d;
                        invalidationsDueToExpiry := invalidationsDueToExpiry d |} st).

(** lines 393-399 *)
Definition _incrementMisses (st : CacheStore) : CacheStore :=
  let d := _debugStatistics st in
  produced
    (with_statistics {| hits := hits d; misses := misses d + 1;
                        invalidationsDueToExpiry := invalidationsDueToExpiry d |} st).

(** lines 249-262.  Under an inherited store name [storeInstance] is a
    function and [storeInstance.cached[key]] reads a property of
    [undefined].  The test of line 252 lets an inherited [key] through;
    the recipe's [delete] then finds nothing to remove. *)
Definition invalidate (store key : string) (st : CacheStore) : Outcome bool * CacheStore :=
  match read_property (stores st) store with
  | NotFound => (Normal false, st)
  | FromPrototype => (Abrupt TypeError, st)
  | Own storeInstance =>
      if negb (has_property (cached storeInstance) key) then (Normal false, st)
      else if is_never (policy storeInstance) then (Normal false, st)
      else (Normal true, delete_cached store key st)
  end.

(** lines 263-269.  Under an inherited store name the read
    [storeInstance.policy.invalidationPolicy] throws; the assignment of
    line 267 throws on a frozen store object. *)
Definition invalidateAll (store : string) (st : CacheStore) : Outcome bool * CacheStore :=
  match read_property (stores st) store with
  | NotFound => (Normal false, st)
  | FromPrototype => (Abrupt TypeError, st)
  | Own storeInstance =>
      if is_never (policy storeInstance) then (Normal false, st)
      else if frozen st then (Abrupt TypeError, st)
      else (Normal true, clear_cached store st)
  end.

(** lines 270-278 *)
Definition invalidateAllOrThrow (store : string) (st : CacheStore) : Completion * CacheStore :=
  match read_property (stores st) store with
  | NotFound => (Throws (Error ("Store " +:+ store +:+ " does not exist.")), st)
  | FromPrototype => (Throws TypeError, st)
  | Own storeInstance =>
      if is_never (policy storeInstance) then
        (Throws (Error ("Store " +:+ store +:+
                        " cannot be invalidated because it has a policy of 'never'.")), st)
      else if frozen st then (Throws TypeError, st)
      else (Returns, clear_cached store st)
  end.

(** lines 279-284, the state the call leaves: on frozen store objects
    the first assignment throws. *)
Definition invalidateAllStores (st : CacheStore) : CacheStore :=
  if frozen st then st
  else foldl (λ acc store, clear_cached store acc) st (keys (stores st)).

Definition invalidateAllStores_ends (st : CacheStore) : Completion :=
  match keys (stores st) with
  | [] => Returns
  | _ :: _ => if frozen st then Throws TypeError else Returns
  end.

(** lines 285-300, the state the call leaves.  An inherited [key] passes
    the test of line 290, and the sum of line 292 is then [NaN]. *)
Definition prune (now : Z) (store key : string) (st : CacheStore) : CacheStore :=
  match stores st !! store with
  | None => st
  | Some storeInstance =>
      if negb (is_on_expiry (policy storeInstance)) then st
      else
        match cached storeInstance !! key with
        | None => st
        | Some e =>
            if expired now e (policy storeInstance) then delete_cached store key st
            else st
        end
  end.

(** Under an inherited store name line 288 reads a property of
    [undefined]. *)
Definition prune_ends (store : string) (st : CacheStore) : Completion :=
  match read_property (stores st) store with
  | FromPrototype => Throws TypeError
  | _ => Returns
  end.

(** lines 301-308; the loop runs over the keys of the [cached] object read
    before the loop, which the [set] calls of [prune] leave as it is.
    Under an inherited store name the loop is over [undefined] and does
    not run. *)
Definition pruneAll (now : Z) (store : string) (st : CacheStore) : CacheStore :=
  match stores st !! store with
  | None => st
  | Some storeInstance =>
      foldl (λ acc key, prune now store key acc) st (keys (cached storeInstance))
  end.

(** lines 309-314 *)
Definition pruneAllStores (now : Z) (st : CacheStore) : CacheStore :=
  foldl (λ acc store, pruneAll now store acc) st (keys (stores st)).

(** [storeInstance.cached[key]?.value]; an inherited [key] gives a
    function, whose [value] is [undefined]. *)
Definition read_value (storeInstance : Store) (key : string) : Value :=
  match cached storeInstance !! key with
  | Some e => value e
  | None => VUndefined
  end.

(** lines 315-332.  [storeInstance] is read from the state before [prune]
    runs; [prune] removes through [set(produce(...))], so the object
    [storeInstance] denotes is the one from before the removal.  Under an
    inherited store name the branch of line 317 is not taken and [prune]
    throws. *)
Definition getValue (now : Z) (store key : string) (st : CacheStore)
  : Outcome Value * CacheStore :=
  match read_property (stores st) store with
  | NotFound => (Normal VNull, createStore store noOverride st)
  | FromPrototype => (Abrupt TypeError, st)
  | Own storeInstance =>
      let st1 := prune now store key st in
      let v := read_value storeInstance key in
      (Normal v, if truthy v then _incrementHits st1 else _incrementMisses st1)
  end.

(** line 378 *)
Definition _debug (st : CacheStore) : CacheStore := st.

(** ** The operations of the first listing whose text differs

    Lines 1-191.  There [invalidate], [invalidateIfExpired] and [prune]
    remove with a [delete] on the object read from [get()]: on a frozen
    dictionary the [delete] of an own key throws, and else the removal
    happens in the very object the caller holds.  The state has no
    statistics; the operations leave [_debugStatistics] as it is.
    [invalidateAll], [invalidateAllOrThrow], [invalidateAllStores],
    [createStore], [setValue], [setGlobalPolicy] and [setStorePolicy] have
    the same text in both listings. *)

Module Earlier.

(** lines 52-58; there is no test of the key, and a [delete] of a key
    the dictionary does not have goes through on any object. *)
Definition invalidate (store key : string) (st : CacheStore) : Outcome bool * CacheStore :=
  match read_property (stores st) store with
  | NotFound => (Normal false, st)
  | FromPrototype => (Abrupt TypeError, st)
  | Own storeInstance =>
      if is_never (policy storeInstance) then (Normal false, st)
      else
        match cached storeInstance !! key with
        | None => (Normal true, st)
        | Some _ =>
            if frozen st then (Abrupt TypeError, st)
            else (Normal true, delete_in_place store key st)
        end
  end.

(** lines 59-71; with no entry under [key] the left operand is
    [undefined + expiry], which is [NaN]. *)
Definition invalidateIfExpired (now : Z) (store key : string) (st : CacheStore)
  : Outcome bool * CacheStore :=
  match read_property (stores st) store with
  | NotFound => (Normal false, st)
  | FromPrototype => (Abrupt TypeError, st)
  | Own storeInstance =>
      if is_never (policy storeInstance) then (Normal false, st)
      else
        match cached storeInstance !! key with
        | Some e =>
            if expired now e (policy storeInstance)
            then
              if frozen st then (Abrupt TypeError, st)
              else (Normal true, delete_in_place store key st)
            else (Normal false, st)
        | None => (Normal false, st)
        end
  end.

(** lines 94-105, the state the call leaves *)
Definition prune (now : Z) (store key : string) (st : CacheStore) : CacheStore :=
  match stores st !! store with
  | None => st
  | Some storeInstance =>
      if negb (is_on_expiry (policy storeInstance)) then st
      else
        match cached storeInstance !! key with
        | None => st
        | Some e =>
            if expired now e (policy storeInstance)
            then if frozen st then st else delete_in_place store key st
            else st
        end
  end.

(** How it ends: the [delete] of line 103 throws on a frozen
    dictionary. *)
Definition prune_ends (now : Z) (store key : string) (st : CacheStore) : Completion :=
  match read_property (stores st) store with
  | NotFound => Returns
  | FromPrototype => Throws TypeError
  | Own storeInstance =>
      if negb (is_on_expiry (policy storeInstance)) then Returns
      else
        match cached storeInstance !! key with
        | None => Returns
        | Some e =>
            if expired now e (policy storeInstance) && frozen st
            then Throws TypeError
            else Returns
        end
  end.

(** lines 106-113, the state the call leaves; [prune] deletes at most
    the key being visited, and a [prune] that throws has changed
    nothing. *)
Definition pruneAll (now : Z) (store : string) (st : CacheStore) : CacheStore :=
  match stores st !! store with
  | None => st
  | Some storeInstance =>
      foldl (λ acc key, prune now store key acc) st (keys (cached storeInstance))
  end.

(** The loop ends at the first [prune] that throws; up to there no
    [prune] has changed anything, the objects being frozen. *)
Definition pruneAll_ends (now : Z) (store : string) (st : CacheStore) : Completion :=
  match stores st !! store with
  | None => Returns
  | Some storeInstance =>
      if existsb (λ key, throws (prune_ends now store key st)) (keys (cached storeInstance))
      then Throws TypeError
      else Returns
  end.

(** lines 114-119 *)
Definition pruneAllStores (now : Z) (st : CacheStore) : CacheStore :=
  foldl (λ acc store, pruneAll now store acc) st (keys (stores st)).

Definition pruneAllStores_ends (now : Z) (st : CacheStore) : Completion :=
  if existsb (λ store, throws (pruneAll_ends now store st)) (keys (stores st))
  then Throws TypeError
  else Returns.

(** lines 120-130; [storeInstance] is the object [prune] deleted from,
    so the read sees the state after [prune]; a [prune] that throws ends
    the call. *)
Definition getValue (now : Z) (store key : string) (st : CacheStore)
  : Outcome Value * CacheStore :=
  match read_property (stores st) store with
  | NotFound => (Normal VNull, createStore store noOverride st)
  | FromPrototype => (Abrupt TypeError, st)
  | Own _ =>
      match prune_ends now store key st with
      | Throws e => (Abrupt e, st)
      | Returns =>
          let st1 := prune now store key st in
          (Normal (from_option (λ storeInstance, read_value storeInstance key) VUndefined
                     (stores st1 !! store)), st1)
      end
  end.

End Earlier.

(** ** Persistence (lines 400-405 and 407-412)

    [persist(..., { name: "cache" })] is zustand's middleware with every
    option but [name] at its default: [partialize] is the identity, the
    storage is [localStorage] through [JSON.stringify] and [JSON.parse],
    and [merge] spreads the persisted state over the current one. *)

(** [JSON.parse(JSON.stringify(v))] for a payload stored under a property:
    a property whose value is [undefined] is left out and reads back as
    [undefined]; inside an array [undefined] becomes [null]; [NaN] becomes
    [null]. *)
Fixpoint json_clone (v : Value) : Value :=
  match v with
  | VUndefined => VUndefined
  | VNull => VNull
  | VBool b => VBool b
  | VNumber n => VNumber n
  | VNaN => VNull
  | VString s => VString s
  | VArray items =>
      VArray (map (λ x, match x with
                        | VUndefined => VNull
                        | _ => json_clone x
                        end) items)
  | VObject props =>
      VObject ((fix clone_props (l : list (string * Value)) : list (string * Value) :=
                  match l with
                  | [] => []
                  | (_, VUndefined) :: l' => clone_props l'
                  | (k, x) :: l' => (k, json_clone x) :: clone_props l'
                  end) props)
  end.

(** The payloads [JSON] gives back as they were. *)
Fixpoint json_faithful (v : Value) : bool :=
  match v with
  | VUndefined | VNull | VBool _ | VNumber _ | VString _ => true
  | VNaN => false
  | VArray items =>
      forallb (λ x, match x with
                    | VUndefined => false
                    | _ => json_faithful x
                    end) items
  | VObject props =>
      (fix faithful_props (l : list (string * Value)) : bool :=
         match l with
         | [] => true
         | (_, VUndefined) :: _ => false
         | (_, x) :: l' => json_faithful x && faithful_props l'
         end) props
  end.

Definition json_entry (e : Entry) : Entry :=
  {| value := json_clone (value e); assignedAt := assignedAt e |}.

Definition json_store (s : Store) : Store :=
  {| cached := json_entry <$> cached s; policy := policy s |}.

(** The [state] property of the stored item: the properties of the state
    that are not functions.  A property is [None] when the item does not
    have it. *)
Record PersistedState : Type := mkPersistedState {
  p_stores : option (gmap string Store);
  p_globalPolicy : option Policy;
  p_debugStatistics : option Statistics
}.

(** What is written under ["cache"] for a state: [partialize] keeps the
    whole state, [JSON.stringify] drops the function-valued properties
    and nothing else. *)
Definition setItem (st : CacheStore) : option PersistedState :=
  Some {| p_stores := Some (json_store <$> stores st);
          p_globalPolicy := Some (globalPolicy st);
          p_debugStatistics := Some (_debugStatistics st) |}.

(** [merge]: [{ ...currentState, ...persistedState }].  The stores that
    come from the item are the objects [JSON.parse] built: they are not
    frozen. *)
Definition merge (persistedState : PersistedState) (currentState : CacheStore) : CacheStore :=
  {| stores := default (stores currentState) (p_stores persistedState);
     globalPolicy := default (globalPolicy currentState) (p_globalPolicy persistedState);
     _debugStatistics :=
       default (_debugStatistics currentState) (p_debugStatistics persistedState);
     frozen := match p_stores persistedState with
               | Some _ => false
               | None => frozen currentState
               end |}.

(** Hydration: the stored item, if there is one, merged over the state
    the module starts from. *)
Definition hydrate (item : option PersistedState) (currentState : CacheStore) : CacheStore :=
  match item with
  | Some persistedState => merge persistedState currentState
  | None => currentState
  end.

(** lines 407-412, the listener run when a hydration has finished. *)
Definition onFinishHydration (now : Z) (state : CacheStore) : CacheStore :=
  match pruneOnSessionStart (globalPolicy state) with
  | Some true => pruneAllStores now state
  | _ => state
  end.

(** A restart: the state is written, the module starts again from
    [initialState] and hydrates. *)
Definition restart (st : CacheStore) : CacheStore :=
  hydrate (setItem st) initialState.

(** ** The objects behind the state

    The same operations one level down, where a store and its [cached]
    dictionary are objects reached through references.  This is where the
    two listings part: a [delete] on [storeInstance.cached] changes the
    dictionary every holder of the reference sees, and a recipe under
    [produce] builds new objects along the path it changes and leaves the
    old ones as they were.  [state_of] reads the value of the state off
    the objects; the operations above are shown to be what these compute
    (see [objects_getValue] and [objects_earlier_getValue]). *)

Module Objects.

(** A store object: [cached] is a reference to a dictionary. *)
Record StoreObject : Type := mkStoreObject {
  cached_at : positive;
  policy_of : Policy
}.

(** The heap of store objects and of dictionaries, the next free
    reference, and the current state: the [stores] dictionary holds
    references to store objects.  [root_frozen] says whether the objects
    of the current state are frozen. *)
Record Machine : Type := mkMachine {
  store_objects : gmap positive StoreObject;
  dictionaries : gmap positive (gmap string Entry);
  next : positive;
  root : gmap string positive;
  root_globalPolicy : Policy;
  root_statistics : Statistics;
  root_frozen : bool
}.

(** [storeInstance.cached], read now. *)
Definition cached_of (m : Machine) (storeInstance : positive) : option (gmap string Entry) :=
  store_objects m !! storeInstance ≫= λ o, dictionaries m !! cached_at o.

(** [storeInstance.cached[key]], read now. *)
Definition entry_of (m : Machine) (storeInstance : positive) (key : string) : option Entry :=
  cached_of m storeInstance ≫= λ d, d !! key.

(** [storeInstance.cached[key]?.value], read now. *)
Definition read_value (m : Machine) (storeInstance : positive) (key : string) : Value :=
  match entry_of m storeInstance key with
  | Some e => value e
  | None => VUndefined
  end.

(** The store a reference stands for, read now. *)
Definition store_at (m : Machine) (r : positive) : option Store :=
  store_objects m !! r ≫= λ o,
  dictionaries m !! cached_at o ≫= λ d,
  Some {| cached := d; policy := policy_of o |}.

(** The state as a value. *)
Definition state_of (m : Machine) : CacheStore :=
  {| stores := omap (store_at m) (root m);
     globalPolicy := root_globalPolicy m;
     _debugStatistics := root_statistics m;
     frozen := root_frozen m |}.

(** [delete storeInstance.cached[key]] where it goes through: the
    dictionary itself changes. *)
Definition delete_in_place (storeInstance : positive) (key : string) (m : Machine) : Machine :=
  match store_objects m !! storeInstance with
  | None => m
  | Some o =>
      {| store_objects := store_objects m;
         dictionaries := alter (delete key) (cached_at o) (dictionaries m);
         next := next m;
         root := root m;
         root_globalPolicy := root_globalPolicy m;
         root_statistics := root_statistics m;
         root_frozen := root_frozen m |}
  end.

(** [set(produce((state) => { delete state.stores[store].cached[key] }))]:
    a new dictionary without [key], a new store object holding it, and a
    new [stores] dictionary holding that; the objects of the state before
    are not written to, and those of the new state are frozen. *)
Definition produce_delete (store key : string) (m : Machine) : Machine :=
  match root m !! store with
  | None => m
  | Some r =>
      match store_objects m !! r with
      | None => m
      | Some o =>
          match dictionaries m !! cached_at o with
          | None => m
          | Some d =>
              let rd := next m in
              let ro := Pos.succ (next m) in
              {| store_objects :=
                   <[ro := {| cached_at := rd; policy_of := policy_of o |}]> (store_objects m);
                 dictionaries := <[rd := delete key d]> (dictionaries m);
                 next := Pos.succ ro;
                 root := <[store := ro]> (root m);
                 root_globalPolicy := root_globalPolicy m;
                 root_statistics := root_statistics m;
                 root_frozen := true |}
          end
      end
  end.

(** lines 333-346 *)
Definition createStore (store : string) (partial : Partial.Policy) (m : Machine) : Machine :=
  match read_property (root m) store with
  | Own _ | FromPrototype => m
  | NotFound =>
      let rd := next m in
      let ro := Pos.succ (next m) in
      {| store_objects :=
           <[ro := {| cached_at := rd;
                      policy_of := spread (root_globalPolicy m) partial |}]> (store_objects m);
         dictionaries := <[rd := ∅]> (dictionaries m);
         next := Pos.succ ro;
         root := <[store := ro]> (root m);
         root_globalPolicy := root_globalPolicy m;
         root_statistics := root_statistics m;
         root_frozen := true |}
  end.

(** The recipes on the counters: a new statistics object, frozen with
    the rest. *)
Definition with_statistics (d : Statistics) (m : Machine) : Machine :=
  {| store_objects := store_objects m;
     dictionaries := dictionaries m;
     next := next m;
     root := root m;
     root_globalPolicy := root_globalPolicy m;
     root_statistics := d;
     root_frozen := true |}.

(** lines 386-392 *)
Definition _incrementHits (m : Machine) : Machine :=
  let d := root_statistics m in
  with_statistics {| hits := hits d + 1; misses := misses d;
                     invalidationsDueToExpiry := invalidationsDueToExpiry d |} m.

(** lines 393-399 *)
Definition _incrementMisses (m : Machine) : Machine :=
  let d := root_statistics m in
  with_statistics {| hits := hits d; misses := misses d + 1;
                     invalidationsDueToExpiry := invalidationsDueToExpiry d |} m.

(** What [prune] does once [storeInstance] is in hand, up to the removal
    [remove], which is where the listings differ. *)
Definition prune_with (remove : Machine → Machine)
    (now : Z) (storeInstance : positive) (key : string) (m : Machine) : Machine :=
  match policy_of <$> store_objects m !! storeInstance with
  | None => m
  | Some p =>
      if negb (is_on_expiry p) then m
      else
        match entry_of m storeInstance key with
        | None => m
        | Some e => if expired now e p then remove m else m
        end
  end.

(** lines 285-300 *)
Definition prune (now : Z) (store key : string) (m : Machine) : Machine :=
  match root m !! store with
  | None => m
  | Some storeInstance =>
      prune_with (produce_delete store key) now storeInstance key m
  end.

(** lines 94-105; on frozen objects the [delete] throws and nothing
    changes. *)
Definition earlier_prune (now : Z) (store key : string) (m : Machine) : Machine :=
  match root m !! store with
  | None => m
  | Some storeInstance =>
      prune_with (λ m, if root_frozen m then m else delete_in_place storeInstance key m)
        now storeInstance key m
  end.

(** How the earlier [prune] ends once [storeInstance] is in hand. *)
Definition earlier_prune_ends (now : Z) (storeInstance : positive) (key : string) (m : Machine)
  : Completion :=
  match policy_of <$> store_objects m !! storeInstance with
  | None => Returns
  | Some p =>
      if negb (is_on_expiry p) then Returns
      else
        match entry_of m storeInstance key with
        | None => Returns
        | Some e => if expired now e p && root_frozen m then Throws TypeError else Returns
        end
  end.

(** lines 315-332: [storeInstance] is a reference, and the read after
    [prune] goes through it into the heap as [prune] left it. *)
Definition getValue (now : Z) (store key : string) (m : Machine) : Outcome Value * Machine :=
  match read_property (root m) store with
  | NotFound => (Normal VNull, createStore store noOverride m)
  | FromPrototype => (Abrupt TypeError, m)
  | Own storeInstance =>
      let m1 := prune now store key m in
      let v := read_value m1 storeInstance key in
      (Normal v, if truthy v then _incrementHits m1 else _incrementMisses m1)
  end.

(** lines 120-130, the same read after the earlier [prune], where that
    one returns. *)
Definition earlier_getValue (now : Z) (store key : string) (m : Machine)
  : Outcome Value * Machine :=
  match read_property (root m) store with
  | NotFound => (Normal VNull, createStore store noOverride m)
  | FromPrototype => (Abrupt TypeError, m)
  | Own storeInstance =>
      match earlier_prune_ends now storeInstance key m with
      | Throws e => (Abrupt e, m)
      | Returns =>
          let m1 := earlier_prune now store key m in
          (Normal (read_value m1 storeInstance key), m1)
      end
  end.

(** The objects of the current state are there, below [next], and no two
    stores of the current state hold the same dictionary. *)
Record well_formed (m : Machine) : Prop := mkWellFormed {
  wf_reachable :
    ∀ name r, root m !! name = Some r → is_Some (store_at m r);
  wf_store_below :
    ∀ r, is_Some (store_objects m !! r) → (r < next m)%positive;
  wf_dictionary_below :
    ∀ r, is_Some (dictionaries m !! r) → (r < next m)%positive;
  wf_unshared :
    ∀ name1 name2 r1 r2 o1 o2,
      root m !! name1 = Some r1 → root m !! name2 = Some r2 →
      store_objects m !! r1 = Some o1 → store_objects m !! r2 = Some o2 →
      cached_at o1 = cached_at o2 → name1 = name2
}.

End Objects.

(** ** Calls and traces *)

(** The operations of the interface (lines 219-238), with
    [invalidateIfExpired] of the first listing. *)
Inductive Call : Type :=
| call_invalidate (store key : string)
| call_invalidateIfExpired (store key : string)
| call_invalidateAll (store : string)
| call_invalidateAllOrThrow (store : string)
| call_invalidateAllStores
| call_prune (store key : string)
| call_pruneAll (store : string)
| call_pruneAllStores
| call_getValue (store key : string)
| call_createStore (store : string) (partial : Partial.Policy)
| call_setValue (store key : string) (v : Value)
| call_setGlobalPolicy (partial : Partial.Policy)
| call_setStorePolicy (store : string) (partial : Partial.Policy)
| call_debug
| call_incrementHits
| call_incrementMisses.

(** The state a call made at time [now] leaves, whether it returns or
    throws. *)
Definition perform (now : Z) (c : Call) (st : CacheStore) : CacheStore :=
  match c with
  | call_invalidate store key => (invalidate store key st).2
  | call_invalidateIfExpired store key => (Earlier.invalidateIfExpired now store key st).2
  | call_invalidateAll store => (invalidateAll store st).2
  | call_invalidateAllOrThrow store => (invalidateAllOrThrow store st).2
  | call_invalidateAllStores => invalidateAllStores st
  | call_prune store key => prune now store key st
  | call_pruneAll store => pruneAll now store st
  | call_pruneAllStores => pruneAllStores now st
  | call_getValue store key => (getValue now store key st).2
  | call_createStore store partial => createStore store partial st
  | call_setValue store key v => setValue now store key v st
  | call_setGlobalPolicy partial => setGlobalPolicy partial st
  | call_setStorePolicy store partial => (setStorePolicy store partial st).2
  | call_debug => _debug st
  | call_incrementHits => _incrementHits st
  | call_incrementMisses => _incrementMisses st
  end.

(** A session: calls in order, each with the time it is made at. *)
Definition run (calls : list (Z * Call)) (st : CacheStore) : CacheStore :=
  foldl (λ acc tc, perform tc.1 tc.2 acc) st calls.

(** The invalidation and pruning operations other than
    [invalidateAllStores]. *)
Definition guarded (c : Call) : bool :=
  match c with
  | call_invalidate _ _ | call_invalidateIfExpired _ _ | call_invalidateAll _
  | call_invalidateAllOrThrow _ | call_prune _ _ | call_pruneAll _
  | call_pruneAllStores => true
  | _ => false
  end.

(** ** The vocabulary of the properties *)

(** [now - assignedAt > expiry], for a policy that has an [expiry]. *)
Definition older_than_expiry (now : Z) (e : Entry) (p : Policy) : Prop :=
  ∃ d, expiry p = Some d ∧ now - assignedAt e > d.


(** All three properties of a policy are there. *)
Definition complete (p : Policy) : Prop :=
  is_Some (invalidationPolicy p) ∧ is_Some (expiry p) ∧ is_Some (pruneOnSessionStart p).

Definition policies_complete (st : CacheStore) : Prop :=
  complete (globalPolicy st) ∧
  ∀ name s, stores st !! name = Some s → complete (policy s).

(** One of the two counters went up by one, the other one stayed. *)
Definition counted_once (before after : Statistics) : Prop :=
  (hits after = hits before + 1 ∧ misses after = misses before) ∨
  (hits after = hits before ∧ misses after = misses before + 1).

(** [getValue(store, key)] at [now] counts as a hit or as a miss. *)
Definition getValue_counts (now : Z) (store key : string) (st : CacheStore) : Prop :=
  counted_once (_debugStatistics st) (_debugStatistics (getValue now store key st).2).

(** [setValue(store, key, v)] and then [getValue(store, key)] at the same
    instant: [v] comes back, as one hit and no miss. *)
Definition set_then_get_hits (now : Z) (store key : string) (v : Value) (st : CacheStore)
  : Prop :=
  let r := getValue now store key (setValue now store key v st) in
  r.1 = v ∧
  hits (_debugStatistics r.2) = hits (_debugStatistics st) + 1 ∧
  misses (_debugStatistics r.2) = misses (_debugStatistics st).

(** [stores[store]] gives a store or nothing: the name is a store's, or
    it is not one [Object.prototype] has. *)
Definition plain_name (st : CacheStore) (store : string) : Prop :=
  is_Some (stores st !! store) ∨ inherited store = false.

(** One more hit and the misses as they were; one more miss and the hits
    as they were. *)
Definition counted_hit (before after : Statistics) : Prop :=
  hits after = hits before + 1 ∧ misses after = misses before.

Definition counted_miss (before after : Statistics) : Prop :=
  hits after = hits before ∧ misses after = misses before + 1.

(** [setValue(store, key, v)] and then [getValue(store, key)] at the same
    instant: [v] comes back, counted as a hit when it is truthy and as a
    miss when it is not. *)
Definition set_then_get_reads (now : Z) (store key : string) (v : Value) (st : CacheStore)
  : Prop :=
  let r := getValue now store key (setValue now store key v st) in
  r.1 = v ∧
  (truthy v = true → counted_hit (_debugStatistics st) (_debugStatistics r.2)) ∧
  (truthy v = false → counted_miss (_debugStatistics st) (_debugStatistics r.2)).

(** The partial policy a call passes, if it passes one, leaves no
    property [undefined]. *)
Definition definite_call (c : Call) : bool :=
  match c with
  | call_createStore _ partial | call_setGlobalPolicy partial
  | call_setStorePolicy _ partial => definite partial
  | _ => true
  end.

(** Both counters read zero. *)
Definition statistics_zero (st : CacheStore) : Prop :=
  hits (_debugStatistics st) = 0 ∧ misses (_debugStatistics st) = 0.

(** [b] has the stores of [a], under the same names and policies, with
    the same entries up to [JSON]'s encoding of the payloads. *)
Definition same_registry (a b : CacheStore) : Prop :=
  dom (stores b) = dom (stores a) ∧
  globalPolicy b = globalPolicy a ∧
  (∀ name, policy <$> stores b !! name = policy <$> stores a !! name) ∧
  (∀ store key, entry b store key = json_entry <$> entry a store key).

(** The scenario of the expiring entry: the global policy gets
    [expiry = 1000], the store [s] is created from it, and [k] is set to
    42 at time 0. *)
Definition expiring_scenario : CacheStore :=
  setValue 0 "s" "k" (VNumber 42)
    (createStore "s" noOverride
       (setGlobalPolicy {| Partial.invalidationPolicy := Omitted;
                           Partial.expiry := Given (Some 1000);
                           Partial.pruneOnSessionStart := Omitted |}
          initialState)).

(** The store and the entry the scenario builds. *)
Definition expiring_entry : Entry := {| value := VNumber 42; assignedAt := 0 |}.

Definition expiring_store : Store :=
  {| cached := {[ "k" := expiring_entry ]};
     policy := {| invalidationPolicy := Some on_expiry; expiry := Some 1000;
                  pruneOnSessionStart := Some true |} |}.

(** The expiring scenario read back from storage: the same entries, on
    objects that are not frozen. *)
Definition hydrated_scenario : CacheStore := restart expiring_scenario.

(** The expiring scenario as objects: the store [s] is object 2, its
    dictionary is object 1. *)
Definition expiring_machine : Objects.Machine :=
  {| Objects.store_objects := {[ 2%positive := {| Objects.cached_at := 1%positive;
                                          Objects.policy_of := policy expiring_store |} ]};
     Objects.dictionaries := {[ 1%positive := cached expiring_store ]};
     Objects.next := 3%positive;
     Objects.root := {[ "s" := 2%positive ]};
     Objects.root_globalPolicy := globalPolicy expiring_scenario;
     Objects.root_statistics := _debugStatistics expiring_scenario;
     Objects.root_frozen := true |}.

(** The scenario of the guarded store: [s] is created with the policy
    [never] and [k] is set to 1 at time 0. *)
Definition never_scenario : CacheStore :=
  setValue 0 "s" "k" (VNumber 1)
    (createStore "s" {| Partial.invalidationPolicy := Given (Some never);
                        Partial.expiry := Omitted;
                        Partial.pruneOnSessionStart := Omitted |}
       initialState).

Definition never_store : Store :=
  {| cached := {[ "k" := {| value := VNumber 1; assignedAt := 0 |} ]};
     policy := {| invalidationPolicy := Some never; expiry := Some (60 * 60 * 1000);
                  pruneOnSessionStart := Some true |} |}.

(** The expiring scenario after one read at time 500: one hit counted. *)
Definition counted_scenario : CacheStore :=
  (getValue 500 "s" "k" expiring_scenario).2.

(** ** The vocabulary of the further properties *)

(** [prune] would remove the entry [e] of the store [s] at [now]: the
    store's policy is [on-expiry] and [e] is older than its [expiry]. *)
Definition due (now : Z) (s : Store) (e : Entry) : Prop :=
  invalidationPolicy (policy s) = Some on_expiry ∧ older_than_expiry now e (policy s).

(** The same as a test. *)
Definition dueb (now : Z) (p : Policy) (e : Entry) : bool :=
  is_on_expiry p && expired now e p.

(** A store without the entries that are due at [now]. *)
Definition pruned_store (now : Z) (s : Store) : Store :=
  with_cached (omap (λ e, if dueb now (policy s) e then None else Some e) (cached s)) s.

(** The store [s] holds an entry that is due at [now] under [key]; it
    holds one under some key. *)
Definition due_key (now : Z) (s : Store) (key : string) : bool :=
  match cached s !! key with
  | Some e => dueb now (policy s) e
  | None => false
  end.

Definition any_due (now : Z) (s : Store) : bool :=
  existsb (due_key now s) (keys (cached s)).

(** The same for the store under [name] in a state, if there is one. *)
Definition store_due (now : Z) (st : CacheStore) (name : string) : bool :=
  match stores st !! name with
  | Some s => any_due now s
  | None => false
  end.

(** The state [st], on frozen objects if a recipe has run. *)
Definition after_recipes (ran : bool) (st : CacheStore) : CacheStore :=
  if ran then produced st else st.

(** What the recipe of [setValue] leaves of the store it writes to:
    nothing changes under the key [__proto__]. *)
Definition written (key : string) (e : Entry) (s : Store) : Store :=
  if bool_decide (key = "__proto__") then s
  else with_cached (<[key := e]> (cached s)) s.

(** [setValue(store, key, ...)] runs a recipe to the end in the state
    [st]: it creates the store, or writes the entry, or both. *)
Definition setValue_produces (store key : string) (st : CacheStore) : bool :=
  match read_property (stores st) store with
  | Own _ => negb (bool_decide (key = "__proto__"))
  | FromPrototype => false
  | NotFound => true
  end.

(** The calls that touch the counters, the one that sets a store's
    policy, and the one that writes an entry. *)
Definition counts (c : Call) : bool :=
  match c with
  | call_getValue _ _ | call_incrementHits | call_incrementMisses => true
  | _ => false
  end.

Definition sets_store_policy (c : Call) : bool :=
  match c with
  | call_setStorePolicy _ _ => true
  | _ => false
  end.

Definition writes_entry (c : Call) : bool :=
  match c with
  | call_setValue _ _ _ => true
  | _ => false
  end.

(** Every store of [a] is in [b], with the policy it has in [a]. *)
Definition keeps_stores (a b : CacheStore) : Prop :=
  ∀ name s, stores a !! name = Some s →
            ∃ s', stores b !! name = Some s' ∧ policy s' = policy s.

(** Every entry of [b] is an entry of [a], unchanged. *)
Definition no_new_entries (a b : CacheStore) : Prop :=
  ∀ store key e, entry b store key = Some e → entry a store key = Some e.

(** The counters of [b] are not below those of [a], and
    [invalidationsDueToExpiry] is the same. *)
Definition counters_grow (a b : CacheStore) : Prop :=
  hits (_debugStatistics a) ≤ hits (_debugStatistics b) ∧
  misses (_debugStatistics a) ≤ misses (_debugStatistics b) ∧
  invalidationsDueToExpiry (_debugStatistics b) = invalidationsDueToExpiry (_debugStatistics a).

(** A store [a] with the policy [always], holding [k] since time 0, in
    the expiring scenario's state. *)
Definition always_scenario : CacheStore :=
  setValue 0 "a" "k" (VNumber 7)
    (createStore "a" {| Partial.invalidationPolicy := Given (Some always);
                        Partial.expiry := Omitted;
                        Partial.pruneOnSessionStart := Omitted |}
       expiring_scenario).

Definition always_store : Store :=
  {| cached := {[ "k" := {| value := VNumber 7; assignedAt := 0 |} ]};
     policy := {| invalidationPolicy := Some always; expiry := Some 1000;
                  pruneOnSessionStart := Some true |} |}.

(** * Properties *)

(** ** Property reads *)

Lemma read_property_Own {A : Type} (m : gmap string A) (name : string) (a : A) :
  read_property m name = Own a ↔ m !! name = Some a.
Proof.
  unfold read_property. destruct (m !! name); [|destruct (inherited name)];
    split; congruence.
Qed.

Lemma read_property_FromPrototype {A : Type} (m : gmap string A) (name : string) :
  read_property m name = FromPrototype ↔ m !! name = None ∧ inherited name = true.
Proof.
  unfold read_property. destruct (m !! name); [|destruct (inherited name)];
    split; try congruence; try tauto; intros [? ?]; congruence.
Qed.

Lemma read_property_NotFound {A : Type} (m : gmap string A) (name : string) :
  read_property m name = NotFound ↔ m !! name = None ∧ inherited name = false.
Proof.
  unfold read_property. destruct (m !! name); [|destruct (inherited name)];
    split; try congruence; try tauto; intros [? ?]; congruence.
Qed.

Lemma read_property_lookup {A : Type} (m : gmap string A) (name : string) (a : A) :
  m !! name = Some a → read_property m name = Own a.
Proof. apply read_property_Own. Qed.

Lemma has_property_lookup {A : Type} (m : gmap string A) (name : string) (a : A) :
  m !! name = Some a → has_property m name = true.
Proof. intros H. unfold has_property. by rewrite (read_property_lookup m name a). Qed.

Lemma has_property_false {A : Type} (m : gmap string A) (name : string) :
  has_property m name = false ↔ m !! name = None ∧ inherited name = false.
Proof.
  unfold has_property. rewrite <- read_property_NotFound.
  destruct (read_property m name); split; congruence.
Qed.

(** Two states are the same when their four components are. *)
Lemma CacheStore_eq (a b : CacheStore) :
  stores a = stores b → globalPolicy a = globalPolicy b →
  _debugStatistics a = _debugStatistics b → frozen a = frozen b → a = b.
Proof. destruct a, b; simpl; congruence. Qed.

(** ** Basic facts about the recipes *)

Lemma stores_delete_in_place (store key name : string) (st : CacheStore) :
  stores (delete_in_place store key st) !! name =
    if decide (store = name)
    then (λ s, with_cached (delete key (cached s)) s) <$> stores st !! store
    else stores st !! name.
Proof. unfold delete_in_place; simpl. apply lookup_alter. Qed.

(** The [delete] of the first listing, where it goes through, and the
    recipe of the second remove the same entry; the recipe leaves frozen
    objects. *)
Lemma delete_cached_in_place (store key : string) (st : CacheStore) :
  delete_cached store key st = produced (delete_in_place store key st).
Proof. reflexivity. Qed.

Lemma stores_delete_cached (store key name : string) (st : CacheStore) :
  stores (delete_cached store key st) !! name =
    if decide (store = name)
    then (λ s, with_cached (delete key (cached s)) s) <$> stores st !! store
    else stores st !! name.
Proof. unfold delete_cached; simpl. apply lookup_alter. Qed.

Lemma stores_clear_cached (store name : string) (st : CacheStore) :
  stores (clear_cached store st) !! name =
    if decide (store = name) then with_cached ∅ <$> stores st !! store
    else stores st !! name.
Proof. unfold clear_cached; simpl. apply lookup_alter. Qed.

Lemma stores_assign_cached (store key name : string) (e : Entry) (st : CacheStore) :
  stores (assign_cached store key e st) !! name =
    if decide (store = name)
    then (λ s, with_cached (<[key := e]> (cached s)) s) <$> stores st !! store
    else stores st !! name.
Proof. unfold assign_cached; simpl. apply lookup_alter. Qed.

(** Deleting one entry: that entry is gone, every other one stays. *)
Lemma entry_delete_cached (store key store' key' : string) (st : CacheStore) :
  entry (delete_cached store key st) store' key' =
    if decide (store' = store ∧ key' = key) then None else entry st store' key'.
Proof.
  unfold entry. rewrite stores_delete_cached.
  destruct (decide (store = store')) as [<-|Hs].
  - destruct (stores st !! store) as [s|] eqn:Hst; simpl.
    + destruct (decide (key' = key)) as [->|Hk].
      * rewrite lookup_delete_eq. rewrite decide_True; done.
      * rewrite lookup_delete_ne by done. rewrite decide_False; [done|tauto].
    + case_decide; done.
  - rewrite decide_False; [done|]. intros [-> _]. done.
Qed.

Lemma policy_delete_cached (store key name : string) (st : CacheStore) :
  policy <$> stores (delete_cached store key st) !! name = policy <$> stores st !! name.
Proof.
  rewrite stores_delete_cached. case_decide; [subst|done].
  by destruct (stores st !! name).
Qed.

Lemma is_never_true (p : Policy) :
  is_never p = true ↔ invalidationPolicy p = Some never.
Proof. unfold is_never. apply bool_decide_eq_true. Qed.

Lemma is_never_false (p : Policy) :
  is_never p = false ↔ invalidationPolicy p ≠ Some never.
Proof. unfold is_never. apply bool_decide_eq_false. Qed.

Lemma is_on_expiry_true (p : Policy) :
  is_on_expiry p = true ↔ invalidationPolicy p = Some on_expiry.
Proof. unfold is_on_expiry. apply bool_decide_eq_true. Qed.

Lemma is_on_expiry_false (p : Policy) :
  is_on_expiry p = false ↔ invalidationPolicy p ≠ Some on_expiry.
Proof. unfold is_on_expiry. apply bool_decide_eq_false. Qed.

Lemma expired_true (now : Z) (e : Entry) (p : Policy) :
  expired now e p = true ↔ older_than_expiry now e p.
Proof.
  unfold expired, older_than_expiry. destruct (expiry p) as [d|].
  - rewrite Z.ltb_lt. split.
    + intros H. exists d. split; [done|lia].
    + intros (d' & [= <-] & H). lia.
  - split; [done|]. intros (d & [=] & _).
Qed.

(** On objects that are not frozen the two listings of [prune] leave the
    same stores, the second one on new, frozen objects. *)
Lemma prune_listings_agree (now : Z) (store key : string) (st : CacheStore) :
  frozen st = false →
  stores (Earlier.prune now store key st) = stores (prune now store key st) ∧
  Earlier.prune_ends now store key st = prune_ends store st.
Proof.
  intros Hf. unfold Earlier.prune, prune, Earlier.prune_ends, prune_ends. rewrite Hf.
  unfold read_property.
  destruct (stores st !! store) as [s|]; [|by destruct (inherited store)].
  destruct (is_on_expiry (policy s)); simpl; [|done].
  destruct (cached s !! key) as [e|]; [|done].
  destruct (expired now e (policy s)); done.
Qed.

(** On frozen objects the first listing throws where the second one
    removes, and the entry stays. *)
Lemma earlier_prune_frozen (now : Z) (store key : string) (st : CacheStore)
    (s : Store) (e : Entry) :
  frozen st = true →
  stores st !! store = Some s →
  cached s !! key = Some e →
  invalidationPolicy (policy s) = Some on_expiry →
  older_than_expiry now e (policy s) →
  Earlier.prune_ends now store key st = Throws TypeError ∧
  Earlier.prune now store key st = st.
Proof.
  intros Hf Hs He Hp Hold.
  apply is_on_expiry_true in Hp. apply expired_true in Hold.
  unfold Earlier.prune_ends, Earlier.prune.
  rewrite (read_property_lookup _ _ _ Hs), Hs, He, Hp, Hold, Hf. done.
Qed.

(** ** [prune] *)

Lemma prune_removes (now : Z) (store key : string) (st : CacheStore) (s : Store) (e : Entry) :
  stores st !! store = Some s →
  cached s !! key = Some e →
  invalidationPolicy (policy s) = Some on_expiry →
  older_than_expiry now e (policy s) →
  prune now store key st = delete_cached store key st.
Proof.
  intros Hs He Hp Hold. unfold prune. rewrite Hs, He.
  apply is_on_expiry_true in Hp. apply expired_true in Hold.
  by rewrite Hp, Hold.
Qed.

Lemma prune_keeps (now : Z) (store key : string) (st : CacheStore) (s : Store) (e : Entry) :
  stores st !! store = Some s →
  cached s !! key = Some e →
  ¬ (older_than_expiry now e (policy s) ∧ invalidationPolicy (policy s) = Some on_expiry) →
  prune now store key st = st.
Proof.
  intros Hs He Hn. unfold prune. rewrite Hs, He.
  destruct (is_on_expiry (policy s)) eqn:Hp; simpl; [|done].
  destruct (expired now e (policy s)) eqn:Hx; [|done].
  exfalso. apply Hn. split.
  - by apply expired_true.
  - by apply is_on_expiry_true.
Qed.



(** ** [getValue] reads what was there before [prune] *)
(** ** [getValue] reads what was there before [prune] *)

Lemma getValue_existing (now : Z) (store key : string) (st : CacheStore) (s : Store) :
  stores st !! store = Some s →
  getValue now store key st =
    (Normal (read_value s key),
     if truthy (read_value s key)
     then _incrementHits (prune now store key st)
     else _incrementMisses (prune now store key st)).
Proof. intros Hs. unfold getValue. by rewrite (read_property_lookup _ _ _ Hs). Qed.

Lemma getValue_missing (now : Z) (store key : string) (st : CacheStore) :
  stores st !! store = None →
  inherited store = false →
  getValue now store key st = (Normal VNull, createStore store noOverride st).
Proof.
  intros Hs Hi. unfold getValue.
  by rewrite (proj2 (read_property_NotFound _ _) (conj Hs Hi)).
Qed.

(** Under a name [Object.prototype] has, and no store has, the call
    throws and leaves the state as it is. *)
Lemma getValue_inherited (now : Z) (store key : string) (st : CacheStore) :
  stores st !! store = None →
  inherited store = true →
  getValue now store key st = (Abrupt TypeError, st).
Proof.
  intros Hs Hi. unfold getValue.
  by rewrite (proj2 (read_property_FromPrototype _ _) (conj Hs Hi)).
Qed.

(** An entry that [prune] removes is still what [getValue] returns and
    counts: the value comes from the store object read before the
    removal. *)
Lemma getValue_expired_entry
    (now : Z) (store key : string) (st : CacheStore) (s : Store) (e : Entry) :
  stores st !! store = Some s →
  cached s !! key = Some e →
  invalidationPolicy (policy s) = Some on_expiry →
  older_than_expiry now e (policy s) →
  (getValue now store key st).1 = value e ∧
  entry (getValue now store key st).2 store key = None.
Proof.
  intros Hs He Hp Hold. rewrite (getValue_existing _ _ _ _ s) by done.
  unfold read_value. rewrite He. simpl. split; [done|].
  rewrite (prune_removes now store key st s e) by done.
  assert (Hgone : entry (delete_cached store key st) store key = None).
  { rewrite entry_delete_cached. by rewrite decide_True. }
  by destruct (truthy (value e)).
Qed.

(** In the first listing the same read comes after a removal made in the
    object itself: where the objects are not frozen the expired entry is
    not returned; where they are, the removal throws. *)
Lemma earlier_getValue_expired_entry
    (now : Z) (store key : string) (st : CacheStore) (s : Store) (e : Entry) :
  stores st !! store = Some s →
  cached s !! key = Some e →
  invalidationPolicy (policy s) = Some on_expiry →
  older_than_expiry now e (policy s) →
  (frozen st = false →
     (Earlier.getValue now store key st).1 = VUndefined ∧
     entry (Earlier.getValue now store key st).2 store key = None) ∧
  (frozen st = true →
     Earlier.getValue now store key st = (Abrupt TypeError, st)).
Proof.
  intros Hs He Hp Hold.
  apply is_on_expiry_true in Hp. apply expired_true in Hold.
  unfold Earlier.getValue, Earlier.prune_ends, Earlier.prune.
  rewrite (read_property_lookup _ _ _ Hs), Hs, He, Hp, Hold. simpl.
  split; intros ->; simpl; [|done].
  rewrite lookup_alter_eq, Hs. simpl. split.
  - unfold read_value; simpl. by rewrite lookup_delete_eq.
  - unfold entry. rewrite stores_delete_in_place, decide_True, Hs by done.
    simpl. apply lookup_delete_eq.
Qed.

(** C1, on the code: in the scenario (global [expiry] 1000, policy
    [on-expiry], store [s] created from it, [k] set to 42 at time 0),
    [getValue] at time 500 returns 42, counts a hit and keeps the entry;
    [getValue] at time 1500 removes the entry from the store's table, and
    returns 42 again, counted as a second hit, where the scenario expects
    no value and a miss. *)
Theorem expiring_scenario_C1 :
  let r1 := getValue 500 "s" "k" expiring_scenario in
  let r2 := getValue 1500 "s" "k" r1.2 in
  stores expiring_scenario !! "s" = Some expiring_store ∧
  r1.1 = VNumber 42 ∧
  _debugStatistics r1.2 = {| hits := 1; misses := 0; invalidationsDueToExpiry := 0 |} ∧
  entry r1.2 "s" "k" = Some expiring_entry ∧
  r2.1 = VNumber 42 ∧
  _debugStatistics r2.2 = {| hits := 2; misses := 0; invalidationsDueToExpiry := 0 |} ∧
  entry r2.2 "s" "k" = None.
Proof. vm_compute. repeat split. Qed.

(** The read after that one finds the entry gone: no value, and a miss. *)
Example expiring_scenario_next_read :
  let r2 := getValue 1500 "s" "k" counted_scenario in
  let r3 := getValue 1600 "s" "k" r2.2 in
  r3.1 = VUndefined ∧
  _debugStatistics r3.2 = {| hits := 2; misses := 1; invalidationsDueToExpiry := 0 |}.
Proof. vm_compute. by split. Qed.

(** The first listing on the same scenario: the store was built under
    [produce], so the removal at time 1500 throws and the entry stays. *)
Lemma earlier_expiring_scenario :
  let r1 := Earlier.getValue 500 "s" "k" expiring_scenario in
  let r2 := Earlier.getValue 1500 "s" "k" r1.2 in
  frozen expiring_scenario = true ∧
  r1.1 = VNumber 42 ∧ r2.1 = Abrupt TypeError ∧
  entry r2.2 "s" "k" = Some expiring_entry.
Proof. vm_compute. repeat split. Qed.

(** And on the scenario read back from storage, where the objects are
    not frozen: no value at time 1500, and the entry is gone. *)
Lemma earlier_hydrated_scenario :
  let r1 := Earlier.getValue 500 "s" "k" hydrated_scenario in
  let r2 := Earlier.getValue 1500 "s" "k" r1.2 in
  frozen hydrated_scenario = false ∧
  r1.1 = VNumber 42 ∧ r2.1 = VUndefined ∧ entry r2.2 "s" "k" = None.
Proof. vm_compute. repeat split. Qed.

(** ** [invalidate] *)

Lemma invalidate_removes (store key : string) (st : CacheStore) (s : Store) (e : Entry) :
  stores st !! store = Some s →
  cached s !! key = Some e →
  invalidationPolicy (policy s) ≠ Some never →
  invalidate store key st = (Normal true, delete_cached store key st).
Proof.
  intros Hs He Hp. unfold invalidate.
  rewrite (read_property_lookup _ _ _ Hs), (has_property_lookup _ _ _ He).
  apply is_never_false in Hp. by rewrite Hp.
Qed.

(** The three refusals, for a store name and a key [Object.prototype]
    does not have. *)
Lemma invalidate_refuses (store key : string) (st : CacheStore) :
  inherited store = false →
  inherited key = false →
  stores st !! store = None ∨
  entry st store key = None ∨
  (∃ s, stores st !! store = Some s ∧ invalidationPolicy (policy s) = Some never) →
  invalidate store key st = (Normal false, st).
Proof.
  unfold invalidate, entry. intros Hi Hk [Hs|[He|(s & Hs & Hp)]].
  - by rewrite (proj2 (read_property_NotFound _ _) (conj Hs Hi)).
  - destruct (stores st !! store) as [s|] eqn:Hs.
    + simpl in He. rewrite (read_property_lookup _ _ _ Hs).
      by rewrite (proj2 (has_property_false _ _) (conj He Hk)).
    + by rewrite (proj2 (read_property_NotFound _ _) (conj Hs Hi)).
  - rewrite (read_property_lookup _ _ _ Hs). apply is_never_true in Hp. rewrite Hp.
    by destruct (has_property (cached s) key).
Qed.

(** A key that is not in the store but is a name [Object.prototype] has
    passes the test of line 252: the call answers [true] and removes
    nothing. *)
Lemma invalidate_inherited_key (store key : string) (st : CacheStore) (s : Store) :
  stores st !! store = Some s →
  cached s !! key = None →
  inherited key = true →
  invalidationPolicy (policy s) ≠ Some never →
  (invalidate store key st).1 = true ∧
  stores (invalidate store key st).2 = stores st.
Proof.
  intros Hs He Hk Hp. apply is_never_false in Hp. unfold invalidate.
  rewrite (read_property_lookup _ _ _ Hs). unfold has_property.
  rewrite (proj2 (read_property_FromPrototype _ _) (conj He Hk)). simpl. rewrite Hp.
  split; [done|]. cbn [snd]. apply map_eq. intros name.
  rewrite stores_delete_cached. case_decide; [subst|done].
  rewrite Hs. simpl. f_equal. destruct s as [c p]. unfold with_cached. simpl in *.
  f_equal. by apply delete_id.
Qed.

(** Under a store name [Object.prototype] has, and no store has, the
    call throws. *)
Lemma invalidate_inherited_store (store key : string) (st : CacheStore) :
  stores st !! store = None →
  inherited store = true →
  invalidate store key st = (Abrupt TypeError, st).
Proof.
  intros Hs Hi. unfold invalidate.
  by rewrite (proj2 (read_property_FromPrototype _ _) (conj Hs Hi)).
Qed.

(** The first listing has no test on the key: for a key that is not in
    a store whose policy allows removal, it answers [true]. *)
Lemma earlier_invalidate_absent_key (store key : string) (st : CacheStore) (s : Store) :
  stores st !! store = Some s →
  cached s !! key = None →
  invalidationPolicy (policy s) ≠ Some never →
  Earlier.invalidate store key st = (Normal true, st).
Proof.
  intros Hs He Hp. apply is_never_false in Hp.
  unfold Earlier.invalidate. by rewrite (read_property_lookup _ _ _ Hs), He, Hp.
Qed.

(** What [invalidate] does for a store name and a key [Object.prototype]
    does not have: [false] and the state as it is when the store is
    missing, the key is not in the store or the policy is [never]; else
    [true], and the next state differs by exactly that entry. *)
Lemma invalidate_contract (store key : string) (st : CacheStore) :
  inherited store = false →
  inherited key = false →
  (stores st !! store = None ∨
   entry st store key = None ∨
   (∃ s, stores st !! store = Some s ∧ invalidationPolicy (policy s) = Some never) →
   invalidate store key st = (Normal false, st)) ∧
  (∀ s e,
     stores st !! store = Some s →
     cached s !! key = Some e →
     invalidationPolicy (policy s) ≠ Some never →
     ∃ st',
       invalidate store key st = (Normal true, st') ∧
       (∀ store' key',
          entry st' store' key' =
            if decide (store' = store ∧ key' = key) then None else entry st store' key') ∧
       (∀ name, policy <$> stores st' !! name = policy <$> stores st !! name) ∧
       dom (stores st') = dom (stores st) ∧
       globalPolicy st' = globalPolicy st ∧
       _debugStatistics st' = _debugStatistics st) ∧
  (invalidate store key (invalidate store key st).2).1 = false.
Proof.
  intros Hi Hk.
  split; [by apply invalidate_refuses|split].
  - intros s e Hs He Hp. exists (delete_cached store key st).
    split; [by apply (invalidate_removes store key st s e)|].
    split; [intros; apply entry_delete_cached|].
    split; [intros; apply policy_delete_cached|].
    split; [|done].
    unfold delete_cached; simpl. apply dom_alter_L.
  - assert (Hrefused : invalidate store key st = (Normal false, st) →
                       (invalidate store key (invalidate store key st).2).1 = false).
    { intros H. rewrite H. cbn [snd]. by rewrite H. }
    destruct (stores st !! store) as [s|] eqn:Hs;
      [|apply Hrefused, invalidate_refuses; auto].
    destruct (cached s !! key) as [e|] eqn:He; cycle 1.
    { apply Hrefused, invalidate_refuses; [done..|].
      right; left. unfold entry. by rewrite Hs. }
    destruct (is_never (policy s)) eqn:Hp.
    { apply Hrefused, invalidate_refuses; [done..|].
      right; right. exists s. by rewrite <- is_never_true. }
    rewrite (invalidate_removes store key st s e) by (by rewrite <- ?is_never_false).
    cbn [snd]. rewrite invalidate_refuses; [done..|].
    right; left. rewrite entry_delete_cached. by rewrite decide_True.
Qed.

(** C2, on the code.  In the expiring scenario the store [s] holds the
    one key [k].  [invalidate] of the key [toString], which the store
    does not hold, returns [true], and returns [true] again the second
    time, the stores being as they were; and the [invalidate] of the
    first listing returns [true] for a key no store holds and no object
    inherits. *)
Theorem invalidate_absent_key_C2 :
  let r1 := invalidate "s" "toString" expiring_scenario in
  let r2 := invalidate "s" "toString" r1.2 in
  entry expiring_scenario "s" "toString" = None ∧
  r1.1 = true ∧ stores r1.2 = stores expiring_scenario ∧
  r2.1 = true ∧ stores r2.2 = stores expiring_scenario ∧
  entry expiring_scenario "s" "missing" = None ∧
  Earlier.invalidate "s" "missing" expiring_scenario = (Normal true, expiring_scenario).
Proof.
  assert (Hs : stores expiring_scenario !! "s" = Some expiring_store) by reflexivity.
  assert (H1 := invalidate_inherited_key "s" "toString" expiring_scenario expiring_store
                  Hs eq_refl eq_refl).
  destruct H1 as [H1 H1']; [done|].
  assert (Hs' : stores (invalidate "s" "toString" expiring_scenario).2 !! "s"
                = Some expiring_store) by (by rewrite H1').
  assert (H2 := invalidate_inherited_key "s" "toString" _ expiring_store
                  Hs' eq_refl eq_refl).
  destruct H2 as [H2 H2']; [done|].
  cbv zeta. repeat split; try done.
Qed.

(** ** Loops *)

(** What every step of a loop keeps, the loop keeps. *)
Lemma foldl_keeps {A : Type} (P : CacheStore → Prop) (step : CacheStore → A → CacheStore)
    (l : list A) (st : CacheStore) :
  (∀ acc x, P acc → P (step acc x)) →
  P st →
  P (foldl step st l).
Proof.
  intros Hstep. revert st. induction l as [|x l IH]; intros st Hst; simpl; [done|].
  apply IH. by apply Hstep.
Qed.

Lemma elem_of_keys {A : Type} (m : gmap string A) (name : string) :
  name ∈ keys m ↔ is_Some (m !! name).
Proof.
  unfold keys. rewrite list_elem_of_fmap. split.
  - intros ([k x] & -> & Hin). apply elem_of_map_to_list in Hin. simpl. eauto.
  - intros [x Hx]. exists (name, x). split; [done|]. by apply elem_of_map_to_list.
Qed.

(** ** The [never] guard *)
(** ** The [never] guard *)

Section never_guard.
Variables (name : string) (s : Store).
Hypothesis Hnever : invalidationPolicy (policy s) = Some never.

(** The store [name] is there, as the object [s]. *)
Let kept (st : CacheStore) : Prop := stores st !! name = Some s.

Lemma never_is_never : is_never (policy s) = true.
Proof. by apply is_never_true. Qed.

Lemma never_not_on_expiry : is_on_expiry (policy s) = false.
Proof. apply is_on_expiry_false. rewrite Hnever. congruence. Qed.

Lemma never_invalidate store key st : kept st → kept (invalidate store key st).2.
Proof.
  unfold kept, invalidate, read_property. intros Hs.
  destruct (stores st !! store) as [s'|] eqn:Hs'; [|by destruct (inherited store)].
  destruct (has_property (cached s') key); [|done]. cbn [negb].
  destruct (is_never (policy s')) eqn:Hp; [done|]. cbn [snd].
  rewrite stores_delete_cached. case_decide; [subst|done].
  rewrite Hs in Hs'. injection Hs' as <-. rewrite never_is_never in Hp. done.
Qed.

Lemma never_earlier_invalidate store key st :
  kept st → kept (Earlier.invalidate store key st).2.
Proof.
  unfold kept, Earlier.invalidate, read_property. intros Hs.
  destruct (stores st !! store) as [s'|] eqn:Hs'; [|by destruct (inherited store)].
  destruct (is_never (policy s')) eqn:Hp; [done|].
  destruct (cached s' !! key); [|done].
  destruct (frozen st); [done|]. cbn [snd].
  rewrite stores_delete_in_place. case_decide; [subst|done].
  rewrite Hs in Hs'. injection Hs' as <-. rewrite never_is_never in Hp. done.
Qed.

Lemma never_invalidateIfExpired now store key st :
  kept st → kept (Earlier.invalidateIfExpired now store key st).2.
Proof.
  unfold kept, Earlier.invalidateIfExpired, read_property. intros Hs.
  destruct (stores st !! store) as [s'|] eqn:Hs'; [|by destruct (inherited store)].
  destruct (is_never (policy s')) eqn:Hp; [done|].
  destruct (cached s' !! key) as [e|]; [|done].
  destruct (expired now e (policy s')); [|done].
  destruct (frozen st); [done|]. cbn [snd].
  rewrite stores_delete_in_place. case_decide; [subst|done].
  rewrite Hs in Hs'. injection Hs' as <-. rewrite never_is_never in Hp. done.
Qed.

Lemma never_invalidateAll store st : kept st → kept (invalidateAll store st).2.
Proof.
  unfold kept, invalidateAll, read_property. intros Hs.
  destruct (stores st !! store) as [s'|] eqn:Hs'; [|by destruct (inherited store)].
  destruct (is_never (policy s')) eqn:Hp; [done|].
  destruct (frozen st); [done|]. cbn [snd].
  rewrite stores_clear_cached. case_decide; [subst|done].
  rewrite Hs in Hs'. injection Hs' as <-. rewrite never_is_never in Hp. done.
Qed.

Lemma never_invalidateAllOrThrow store st :
  kept st → kept (invalidateAllOrThrow store st).2.
Proof.
  unfold kept, invalidateAllOrThrow, read_property. intros Hs.
  destruct (stores st !! store) as [s'|] eqn:Hs'; [|by destruct (inherited store)].
  destruct (is_never (policy s')) eqn:Hp; [done|].
  destruct (frozen st); [done|]. cbn [snd].
  rewrite stores_clear_cached. case_decide; [subst|done].
  rewrite Hs in Hs'. injection Hs' as <-. rewrite never_is_never in Hp. done.
Qed.

Lemma never_prune now store key st : kept st → kept (prune now store key st).
Proof.
  unfold kept, prune. intros Hs.
  destruct (stores st !! store) as [s'|] eqn:Hs'; [|done].
  destruct (is_on_expiry (policy s')) eqn:Hp; simpl; [|done].
  destruct (cached s' !! key) as [e|]; [|done].
  destruct (expired now e (policy s')); [|done].
  rewrite stores_delete_cached. case_decide; [subst|done].
  rewrite Hs in Hs'. injection Hs' as <-. rewrite never_not_on_expiry in Hp. done.
Qed.

Lemma never_pruneAll now store st : kept st → kept (pruneAll now store st).
Proof.
  intros Hs. unfold pruneAll. destruct (stores st !! store); [|done].
  apply (foldl_keeps kept); [|done]. intros acc key. apply never_prune.
Qed.

Lemma never_pruneAllStores now st : kept st → kept (pruneAllStores now st).
Proof.
  intros Hs. unfold pruneAllStores.
  apply (foldl_keeps kept); [|done]. intros acc store. apply never_pruneAll.
Qed.

Lemma never_earlier_prune now store key st : kept st → kept (Earlier.prune now store key st).
Proof.
  unfold kept, Earlier.prune. intros Hs.
  destruct (stores st !! store) as [s'|] eqn:Hs'; [|done].
  destruct (is_on_expiry (policy s')) eqn:Hp; simpl; [|done].
  destruct (cached s' !! key) as [e|]; [|done].
  destruct (expired now e (policy s')); [|done].
  destruct (frozen st); [done|].
  rewrite stores_delete_in_place. case_decide; [subst|done].
  rewrite Hs in Hs'. injection Hs' as <-. rewrite never_not_on_expiry in Hp. done.
Qed.

(** The first listing's [prune], [pruneAll] and [pruneAllStores]. *)
Lemma never_earlier_pruning now store key st :
  kept st →
  kept (Earlier.prune now store key st) ∧
  kept (Earlier.pruneAll now store st) ∧
  kept (Earlier.pruneAllStores now st).
Proof.
  intros Hs. split; [by apply never_earlier_prune|].
  assert (Hall : ∀ store acc, kept acc → kept (Earlier.pruneAll now store acc)).
  { intros store' acc Hacc. unfold Earlier.pruneAll.
    destruct (stores acc !! store'); [|done].
    apply (foldl_keeps kept); [|done]. intros acc' key'. apply never_earlier_prune. }
  split; [by apply Hall|].
  unfold Earlier.pruneAllStores. apply (foldl_keeps kept); [|done].
  intros acc store'. apply Hall.
Qed.

End never_guard.

(** C5: when a store's [invalidationPolicy] is [never], none of
    [invalidate], [invalidateIfExpired], [invalidateAll],
    [invalidateAllOrThrow], [prune], [pruneAll] and [pruneAllStores],
    with any arguments and at any time, removes an entry of that store:
    after the call the store is there with the same entries and the same
    policy. *)
Theorem never_guard_C5 (now : Z) (c : Call) (st : CacheStore) (name : string) (s : Store) :
  guarded c = true →
  stores st !! name = Some s →
  invalidationPolicy (policy s) = Some never →
  stores (perform now c st) !! name = Some s.
Proof.
  intros Hc Hs Hp. destruct c; simpl in Hc; try discriminate; simpl.
  - by apply never_invalidate.
  - by apply never_invalidateIfExpired.
  - by apply never_invalidateAll.
  - by apply never_invalidateAllOrThrow.
  - by apply never_prune.
  - by apply never_pruneAll.
  - by apply never_pruneAllStores.
Qed.

Lemma never_guard_C5_witness :
  guarded call_pruneAllStores = true ∧
  stores never_scenario !! "s" = Some never_store ∧
  invalidationPolicy (policy never_store) = Some never ∧
  stores (perform (24 * 60 * 60 * 1000) call_pruneAllStores never_scenario) !! "s"
    = Some never_store.
Proof.
  assert (Hc : guarded call_pruneAllStores = true) by reflexivity.
  assert (Hs : stores never_scenario !! "s" = Some never_store) by reflexivity.
  assert (Hp : invalidationPolicy (policy never_store) = Some never) by reflexivity.
  exact (conj Hc (conj Hs (conj Hp
    (never_guard_C5 (24 * 60 * 60 * 1000) call_pruneAllStores never_scenario
       "s" never_store Hc Hs Hp)))).
Defined.

(** The scenario of the guarded store: [invalidate] returns [false] and
    the value is still there to read. *)
Example never_scenario_invalidate :
  (invalidate "s" "k" never_scenario).1 = false ∧
  (getValue 1 "s" "k" (invalidate "s" "k" never_scenario).2).1 = VNumber 1.
Proof. vm_compute. by split. Qed.

(** ** Clearing whole stores *)

Lemma entry_clear_cached (store key : string) (st : CacheStore) :
  entry (clear_cached store st) store key = None.
Proof.
  unfold entry. rewrite stores_clear_cached, decide_True by done.
  by destruct (stores st !! store).
Qed.

(** What [invalidateAllOrThrow] does, case by case: the two errors it
    raises itself, with the state as it is; on a store that may be
    cleared, the clearing where the store object is not frozen, and a
    [TypeError] with the state as it is where it is frozen. *)
Lemma invalidateAllOrThrow_cases (store : string) (st : CacheStore) :
  (stores st !! store = None → inherited store = false →
   invalidateAllOrThrow store st
     = (Throws (Error ("Store " +:+ store +:+ " does not exist.")), st)) ∧
  (stores st !! store = None → inherited store = true →
   invalidateAllOrThrow store st = (Throws TypeError, st)) ∧
  (∀ s, stores st !! store = Some s →
        invalidationPolicy (policy s) = Some never →
        invalidateAllOrThrow store st
          = (Throws (Error ("Store " +:+ store +:+
                            " cannot be invalidated because it has a policy of 'never'.")),
             st)) ∧
  (∀ s, stores st !! store = Some s →
        invalidationPolicy (policy s) ≠ Some never →
        frozen st = true →
        invalidateAllOrThrow store st = (Throws TypeError, st)) ∧
  (∀ s, stores st !! store = Some s →
        invalidationPolicy (policy s) ≠ Some never →
        frozen st = false →
        invalidateAllOrThrow store st = (Returns, clear_cached store st)).
Proof.
  unfold invalidateAllOrThrow. repeat split.
  - intros Hs Hi. by rewrite (proj2 (read_property_NotFound _ _) (conj Hs Hi)).
  - intros Hs Hi. by rewrite (proj2 (read_property_FromPrototype _ _) (conj Hs Hi)).
  - intros s Hs Hp. rewrite (read_property_lookup _ _ _ Hs).
    apply is_never_true in Hp. by rewrite Hp.
  - intros s Hs Hp Hf. rewrite (read_property_lookup _ _ _ Hs).
    apply is_never_false in Hp. by rewrite Hp, Hf.
  - intros s Hs Hp Hf. rewrite (read_property_lookup _ _ _ Hs).
    apply is_never_false in Hp. by rewrite Hp, Hf.
Qed.

(** What the clearing leaves, where it goes through. *)
Lemma clear_cached_leaves (store : string) (st : CacheStore) (s : Store) :
  stores st !! store = Some s →
  stores (clear_cached store st) !! store = Some {| cached := ∅; policy := policy s |} ∧
  (∀ key, entry (clear_cached store st) store key = None) ∧
  (∀ name, name ≠ store → stores (clear_cached store st) !! name = stores st !! name) ∧
  globalPolicy (clear_cached store st) = globalPolicy st ∧
  _debugStatistics (clear_cached store st) = _debugStatistics st ∧
  frozen (clear_cached store st) = frozen st.
Proof.
  intros Hs. split; [|split; [|split]].
  - rewrite stores_clear_cached, decide_True, Hs by done. done.
  - intros key. apply entry_clear_cached.
  - intros name Hne. rewrite stores_clear_cached, decide_False; done.
  - done.
Qed.

(** C8, on the code.  In the expiring scenario the store [s] is there
    with the policy [on-expiry], built by [createStore] and [setValue],
    so its objects are frozen.  [invalidateAllOrThrow] of [s] throws a
    [TypeError] at the assignment of line 277 and the entry of [k] is
    still there, where the store was to be emptied and the call to
    return. *)
Theorem invalidateAllOrThrow_frozen_C8 :
  stores expiring_scenario !! "s" = Some expiring_store ∧
  invalidationPolicy (policy expiring_store) = Some on_expiry ∧
  frozen expiring_scenario = true ∧
  invalidateAllOrThrow "s" expiring_scenario = (Throws TypeError, expiring_scenario) ∧
  entry (invalidateAllOrThrow "s" expiring_scenario).2 "s" "k" = Some expiring_entry.
Proof.
  assert (Hs : stores expiring_scenario !! "s" = Some expiring_store) by reflexivity.
  assert (Hf : frozen expiring_scenario = true) by reflexivity.
  destruct (invalidateAllOrThrow_cases "s" expiring_scenario) as (_ & _ & _ & H & _).
  rewrite (H expiring_store Hs) by done.
  repeat split.
Qed.

(** The two errors of the operation, and the same call on the scenario
    read back from storage, whose objects are not frozen: the store is
    emptied. *)
Example invalidateAllOrThrow_messages :
  invalidateAllOrThrow "s" initialState
    = (Throws (Error "Store s does not exist."), initialState) ∧
  invalidateAllOrThrow "s" never_scenario
    = (Throws (Error "Store s cannot be invalidated because it has a policy of 'never'."),
       never_scenario) ∧
  entry hydrated_scenario "s" "k" = Some expiring_entry ∧
  (invalidateAllOrThrow "s" hydrated_scenario).1 = Returns ∧
  entry (invalidateAllOrThrow "s" hydrated_scenario).2 "s" "k" = None.
Proof. vm_compute. repeat split. Qed.

Lemma stores_clear_all (l : list string) (st : CacheStore) (name : string) :
  stores (foldl (λ acc store, clear_cached store acc) st l) !! name =
    if decide (name ∈ l) then with_cached ∅ <$> stores st !! name
    else stores st !! name.
Proof.
  revert st. induction l as [|x l IH]; intros st; cbn [foldl].
  - case_decide as H; [|done]. by apply elem_of_nil in H.
  - rewrite IH, stores_clear_cached.
    destruct (decide (x = name)) as [->|Hx].
    + rewrite (decide_True (P := name ∈ name :: l)) by (apply elem_of_cons; auto).
      case_decide; [|done]. by destruct (stores st !! name).
    + destruct (decide (name ∈ l)) as [Hin|Hin].
      * rewrite decide_True by (apply elem_of_cons; auto). done.
      * rewrite decide_False; [done|]. intros [->|?]%elem_of_cons; done.
Qed.

(** On store objects that are not frozen the loop empties every store. *)
Lemma stores_invalidateAllStores (st : CacheStore) (name : string) :
  frozen st = false →
  stores (invalidateAllStores st) !! name = with_cached ∅ <$> stores st !! name.
Proof.
  intros Hf. unfold invalidateAllStores. rewrite Hf, stores_clear_all.
  case_decide as Hin; [done|].
  rewrite elem_of_keys in Hin.
  destruct (stores st !! name) eqn:Hs; [|done].
  exfalso. apply Hin. eauto.
Qed.

Lemma invalidateAllStores_unfrozen (st : CacheStore) :
  frozen st = false →
  invalidateAllStores_ends st = Returns ∧
  (∀ store key, entry (invalidateAllStores st) store key = None) ∧
  (∀ name, stores (invalidateAllStores st) !! name
             = (λ s, {| cached := ∅; policy := policy s |}) <$> stores st !! name) ∧
  globalPolicy (invalidateAllStores st) = globalPolicy st ∧
  _debugStatistics (invalidateAllStores st) = _debugStatistics st.
Proof.
  intros Hf. split; [|split; [|split; [|split]]].
  - unfold invalidateAllStores_ends. rewrite Hf. by destruct (keys (stores st)).
  - intros store key. unfold entry. rewrite stores_invalidateAllStores by done.
    by destruct (stores st !! store).
  - intros name. by apply stores_invalidateAllStores.
  - unfold invalidateAllStores. rewrite Hf.
    apply (foldl_keeps (λ acc, globalPolicy acc = globalPolicy st)); done.
  - unfold invalidateAllStores. rewrite Hf.
    apply (foldl_keeps (λ acc, _debugStatistics acc = _debugStatistics st)); done.
Qed.

(** On frozen store objects the first assignment throws: nothing is
    removed. *)
Lemma invalidateAllStores_frozen (st : CacheStore) (name : string) (s : Store) :
  frozen st = true →
  stores st !! name = Some s →
  invalidateAllStores_ends st = Throws TypeError ∧
  invalidateAllStores st = st.
Proof.
  intros Hf Hs. unfold invalidateAllStores_ends, invalidateAllStores. rewrite Hf.
  split; [|done].
  destruct (keys (stores st)) as [|x l] eqn:Hk; [|done].
  assert (Hin : name ∈ keys (stores st)) by (apply elem_of_keys; eauto).
  rewrite Hk in Hin. by apply elem_of_nil in Hin.
Qed.

(** C9, on the code.  In the scenario of the guarded store, [s] holds
    [k] and was built by [createStore] and [setValue], so its objects are
    frozen.  [invalidateAllStores] throws a [TypeError] at the assignment
    of line 282 and leaves the state as it is: the entry of [k] is still
    there, where every entry of every store was to be removed. *)
Theorem invalidateAllStores_frozen_C9 :
  frozen never_scenario = true ∧
  entry never_scenario "s" "k" = Some {| value := VNumber 1; assignedAt := 0 |} ∧
  invalidateAllStores_ends never_scenario = Throws TypeError ∧
  invalidateAllStores never_scenario = never_scenario ∧
  entry (invalidateAllStores never_scenario) "s" "k"
    = Some {| value := VNumber 1; assignedAt := 0 |}.
Proof.
  assert (Hf : frozen never_scenario = true) by reflexivity.
  assert (Hs : stores never_scenario !! "s" = Some never_store) by reflexivity.
  destruct (invalidateAllStores_frozen never_scenario "s" never_store Hf Hs) as [-> ->].
  repeat split.
Qed.

(** The same call on a state read back from storage empties the store,
    whatever its policy. *)
Example invalidateAllStores_hydrated :
  entry (restart never_scenario) "s" "k" = Some {| value := VNumber 1; assignedAt := 0 |} ∧
  invalidateAllStores_ends (restart never_scenario) = Returns ∧
  entry (invalidateAllStores (restart never_scenario)) "s" "k" = None.
Proof. vm_compute. by repeat split. Qed.

(** ** The statistics *)

Lemma statistics_prune (now : Z) (store key : string) (st : CacheStore) :
  _debugStatistics (prune now store key st) = _debugStatistics st.
Proof.
  unfold prune. destruct (stores st !! store) as [s|]; [|done].
  destruct (negb (is_on_expiry (policy s))); [done|].
  destruct (cached s !! key) as [e|]; [|done].
  by destruct (expired now e (policy s)).
Qed.

Lemma statistics_createStore (store : string) (partial : Partial.Policy) (st : CacheStore) :
  _debugStatistics (createStore store partial st) = _debugStatistics st.
Proof. unfold createStore. by destruct (read_property (stores st) store). Qed.

Lemma statistics_write_value (now : Z) (store key : string) (v : Value) (st : CacheStore) :
  _debugStatistics (write_value now store key v st) = _debugStatistics st.
Proof. unfold write_value. by case_bool_decide. Qed.

Lemma statistics_setValue (now : Z) (store key : string) (v : Value) (st : CacheStore) :
  _debugStatistics (setValue now store key v st) = _debugStatistics st.
Proof.
  unfold setValue. destruct (read_property (stores st) store);
    rewrite ?statistics_write_value; [done..|]. apply statistics_createStore.
Qed.

(** A missing store, under a name [Object.prototype] does not have, is
    created. *)
Lemma createStore_missing (store : string) (partial : Partial.Policy) (st : CacheStore) :
  stores st !! store = None →
  inherited store = false →
  createStore store partial st =
    produced
      (with_stores
         (<[store := {| cached := ∅; policy := spread (globalPolicy st) partial |}]>
            (stores st))
         st).
Proof.
  intros Hs Hi. unfold createStore.
  by rewrite (proj2 (read_property_NotFound _ _) (conj Hs Hi)).
Qed.

(** C4, as the code has it: a call of [getValue] against a store that
    exists raises exactly one of [hits] and [misses], by exactly one, and
    leaves the other one as it is; a call against a name under which
    [stores] has nothing, no store and nothing inherited, creates the
    store, returns [null] and leaves both counters as they are. *)
Theorem getValue_counts_C4 (now : Z) (store key : string) (st : CacheStore) :
  (is_Some (stores st !! store) → getValue_counts now store key st) ∧
  (stores st !! store = None → inherited store = false →
     (getValue now store key st).1 = VNull ∧
     is_Some (stores (getValue now store key st).2 !! store) ∧
     _debugStatistics (getValue now store key st).2 = _debugStatistics st).
Proof.
  split.
  - intros [s Hs]. unfold getValue_counts, counted_once.
    rewrite (getValue_existing now store key st s Hs).
    destruct (truthy (read_value s key)); simpl; rewrite statistics_prune.
    + by left.
    + by right.
  - intros Hs Hi. rewrite (getValue_missing now store key st Hs Hi). cbn [fst snd].
    split; [done|]. split.
    + rewrite createStore_missing by done. simpl. rewrite lookup_insert_eq. eauto.
    + apply statistics_createStore.
Qed.

(** C4 as stated fails on a store that does not exist yet: the first
    [getValue] of a session raises neither counter. *)
Lemma getValue_missing_store_not_counted :
  ¬ getValue_counts 0 "s" "k" initialState.
Proof.
  unfold getValue_counts, counted_once. vm_compute.
  intros [[H _]|[_ H]]; discriminate H.
Qed.

(** Nor does a call under a name [Object.prototype] has: it throws. *)
Example getValue_constructor :
  getValue 0 "constructor" "k" initialState = (Abrupt TypeError, initialState).
Proof. reflexivity. Qed.

(** ** [setValue] and then [getValue] *)

Lemma setValue_entry (now : Z) (store key : string) (v : Value) (st : CacheStore) :
  plain_name st store →
  key ≠ "__proto__" →
  ∃ s, stores (setValue now store key v st) !! store = Some s ∧
       cached s !! key = Some {| value := v; assignedAt := now |}.
Proof.
  intros Hplain Hk. unfold setValue, write_value.
  rewrite bool_decide_eq_false_2 by done.
  destruct (stores st !! store) as [s|] eqn:Hs.
  - rewrite (read_property_lookup _ _ _ Hs).
    rewrite stores_assign_cached, decide_True, Hs by done.
    simpl. eexists. split; [done|]. simpl. apply lookup_insert_eq.
  - destruct Hplain as [[s Hs']|Hi]; [congruence|].
    rewrite (proj2 (read_property_NotFound _ _) (conj Hs Hi)).
    rewrite stores_assign_cached, decide_True by done.
    rewrite createStore_missing by done. simpl. rewrite lookup_insert_eq. simpl.
    eexists. split; [done|]. simpl. apply lookup_insert_eq.
Qed.

(** The value just set comes back, whatever it is; which counter goes up
    follows its truthiness. *)
Lemma set_then_get (now : Z) (store key : string) (v : Value) (st : CacheStore) :
  plain_name st store →
  key ≠ "__proto__" →
  let r := getValue now store key (setValue now store key v st) in
  r.1 = v ∧
  _debugStatistics r.2 =
    _debugStatistics (if truthy v then _incrementHits st else _incrementMisses st).
Proof.
  intros Hplain Hk.
  destruct (setValue_entry now store key v st Hplain Hk) as (s & Hs & He).
  cbv zeta. rewrite (getValue_existing _ _ _ _ s Hs).
  unfold read_value. rewrite He. simpl. split; [done|].
  destruct (truthy v); simpl; by rewrite statistics_prune, statistics_setValue.
Qed.

(** C6, as the code has it: for every key but [__proto__], every value
    and every store name that is a store's or is not one
    [Object.prototype] has, [setValue] and then [getValue] at the same
    instant returns the value just set; for a truthy value (anything but
    [undefined], [null], [false], [0], [NaN] and the empty string) it
    raises [hits] by exactly one and leaves [misses] as it is, and for
    any other value it raises [misses] by exactly one and leaves [hits]
    as it is. *)
Theorem set_then_get_C6 (now : Z) (store key : string) (v : Value) (st : CacheStore) :
  plain_name st store →
  key ≠ "__proto__" →
  set_then_get_reads now store key v st.
Proof.
  intros Hplain Hk. unfold set_then_get_reads, counted_hit, counted_miss.
  destruct (set_then_get now store key v st Hplain Hk) as [Hr Hd]. cbv zeta in *.
  rewrite Hr, Hd. split; [done|].
  split; intros ->; simpl; done.
Qed.

Lemma set_then_get_C6_witness :
  plain_name initialState "s" ∧
  "k" ≠ "__proto__" ∧
  set_then_get_reads 0 "s" "k" (VNumber 0) initialState.
Proof.
  assert (Hplain : plain_name initialState "s") by (right; reflexivity).
  assert (Hk : "k" ≠ "__proto__") by discriminate.
  exact (conj Hplain (conj Hk
    (set_then_get_C6 0 "s" "k" (VNumber 0) initialState Hplain Hk))).
Defined.

(** C6 as stated fails for a falsy value: [0] is returned, and counted as
    a miss. *)
Lemma set_then_get_zero_is_a_miss :
  ¬ set_then_get_hits 0 "s" "k" (VNumber 0) initialState.
Proof.
  unfold set_then_get_hits. vm_compute. intros (_ & H & _). discriminate H.
Qed.

(** Under a store name [Object.prototype] has, [setValue] throws and so
    does the [getValue] after it; under the key [__proto__] the recipe
    of [setValue] throws and the read finds no value. *)
Example set_then_get_inherited :
  setValue_ends "constructor" "k" initialState = Throws TypeError ∧
  getValue 0 "constructor" "k" (setValue 0 "constructor" "k" (VNumber 42) initialState)
    = (Abrupt TypeError, initialState) ∧
  setValue_ends "s" "__proto__" initialState = Throws ImmerError ∧
  (getValue 0 "s" "__proto__" (setValue 0 "s" "__proto__" (VNumber 42) initialState)).1
    = VUndefined.
Proof. vm_compute. by repeat split. Qed.

(** With an [expiry] that is not negative, the entry just set is not
    older than it at the same instant: the read leaves it in the store. *)
Lemma set_then_get_entry_stays
    (now : Z) (store key : string) (v : Value) (st : CacheStore) (s : Store) :
  plain_name st store →
  key ≠ "__proto__" →
  stores (setValue now store key v st) !! store = Some s →
  (∀ d, expiry (policy s) = Some d → 0 ≤ d) →
  entry (getValue now store key (setValue now store key v st)).2 store key
  = Some {| value := v; assignedAt := now |}.
Proof.
  intros Hplain Hk Hs Hd.
  destruct (setValue_entry now store key v st Hplain Hk) as (s' & Hs' & He).
  rewrite Hs in Hs'. injection Hs' as <-.
  rewrite (getValue_existing _ _ _ _ s Hs).
  assert (Hkeep : prune now store key (setValue now store key v st)
                  = setValue now store key v st).
  { apply (prune_keeps _ _ _ _ s _ Hs He). intros [(d & Hx & Hlt) _].
    apply Hd in Hx. simpl in Hlt. lia. }
  rewrite Hkeep.
  assert (Hentry : entry (setValue now store key v st) store key
                   = Some {| value := v; assignedAt := now |}).
  { unfold entry. rewrite Hs. simpl. done. }
  by destruct (truthy (read_value s key)).
Qed.

(** ** Complete policies *)

(** A property that holds [undefined] is copied like any other. *)
Lemma override_undefined {A : Type} (a : option A) : override a (Given None) = None.
Proof. reflexivity. Qed.

Lemma override_is_Some {A : Type} (a : option A) (b : Optional A) :
  defined b = true → is_Some a → is_Some (override a b).
Proof. intros Hb Ha. destruct b as [|[x|]]; simpl in *; eauto. discriminate. Qed.

Lemma definite_defined (b : Partial.Policy) :
  definite b = true ↔
  defined (Partial.invalidationPolicy b) = true ∧
  defined (Partial.expiry b) = true ∧
  defined (Partial.pruneOnSessionStart b) = true.
Proof. unfold definite. rewrite !andb_true_iff. tauto. Qed.

Lemma complete_spread (a : Policy) (b : Partial.Policy) :
  definite b = true → complete a → complete (spread a b).
Proof.
  intros (D1 & D2 & D3)%definite_defined (H1 & H2 & H3). unfold complete, spread. simpl.
  repeat split; by apply override_is_Some.
Qed.

Lemma complete_spread_noOverride (a : Policy) : complete a → complete (spread a noOverride).
Proof. by apply complete_spread. Qed.

Lemma complete_produced (st : CacheStore) :
  policies_complete st → policies_complete (produced st).
Proof. done. Qed.

(** A recipe that changes one store and keeps its policy. *)
Lemma complete_alter (f : Store → Store) (store : string) (st : CacheStore) :
  (∀ s, policy (f s) = policy s) →
  policies_complete st →
  policies_complete (with_stores (alter f store (stores st)) st).
Proof.
  intros Hf [Hg Hs]. split; [done|]. simpl. intros name s.
  rewrite lookup_alter. case_decide; [subst|by apply Hs].
  destruct (stores st !! name) as [s0|] eqn:H0; simpl; [|done].
  intros [= <-]. rewrite Hf. by apply (Hs name).
Qed.

Lemma complete_delete_cached (store key : string) (st : CacheStore) :
  policies_complete st → policies_complete (delete_cached store key st).
Proof. intros H. apply complete_produced. by apply complete_alter. Qed.

Lemma complete_delete_in_place (store key : string) (st : CacheStore) :
  policies_complete st → policies_complete (delete_in_place store key st).
Proof. by apply complete_alter. Qed.

Lemma complete_assign_cached (store key : string) (e : Entry) (st : CacheStore) :
  policies_complete st → policies_complete (assign_cached store key e st).
Proof. intros H. apply complete_produced. by apply complete_alter. Qed.

Lemma complete_clear_cached (store : string) (st : CacheStore) :
  policies_complete st → policies_complete (clear_cached store st).
Proof. by apply complete_alter. Qed.

Lemma complete_createStore (store : string) (partial : Partial.Policy) (st : CacheStore) :
  definite partial = true →
  policies_complete st → policies_complete (createStore store partial st).
Proof.
  intros Hd [Hg Hs]. unfold createStore.
  destruct (read_property (stores st) store) eqn:H0; [done..|].
  split; [done|]. simpl. intros name s.
  rewrite lookup_insert. case_decide; [|by apply Hs].
  intros [= <-]. simpl. by apply complete_spread.
Qed.

Lemma complete_write_value (now : Z) (store key : string) (v : Value) (st : CacheStore) :
  policies_complete st → policies_complete (write_value now store key v st).
Proof.
  intros H. unfold write_value. case_bool_decide; [done|]. by apply complete_assign_cached.
Qed.

Lemma complete_setValue (now : Z) (store key : string) (v : Value) (st : CacheStore) :
  policies_complete st → policies_complete (setValue now store key v st).
Proof.
  intros H. unfold setValue. destruct (read_property (stores st) store); [|done|].
  - by apply complete_write_value.
  - apply complete_write_value. by apply complete_createStore.
Qed.

Lemma complete_setGlobalPolicy (partial : Partial.Policy) (st : CacheStore) :
  definite partial = true →
  policies_complete st → policies_complete (setGlobalPolicy partial st).
Proof.
  intros Hd [Hg Hs]. split; [|done]. simpl. by apply complete_spread.
Qed.

Lemma complete_setStorePolicy (store : string) (partial : Partial.Policy) (st : CacheStore) :
  definite partial = true →
  policies_complete st → policies_complete (setStorePolicy store partial st).2.
Proof.
  intros Hd [Hg Hs]. unfold setStorePolicy.
  destruct (read_property (stores st) store) as [s0| |] eqn:H0; [|done..].
  apply read_property_Own in H0.
  split; [done|]. simpl. intros name s.
  rewrite lookup_insert. case_decide; [|by apply Hs].
  intros [= <-]. simpl. apply complete_spread; [done|]. by apply (Hs store).
Qed.

Lemma complete_prune (now : Z) (store key : string) (st : CacheStore) :
  policies_complete st → policies_complete (prune now store key st).
Proof.
  intros H. unfold prune. destruct (stores st !! store) as [s|]; [|done].
  destruct (negb (is_on_expiry (policy s))); [done|].
  destruct (cached s !! key) as [e|]; [|done].
  destruct (expired now e (policy s)); [|done].
  by apply complete_delete_cached.
Qed.

Lemma complete_pruneAll (now : Z) (store : string) (st : CacheStore) :
  policies_complete st → policies_complete (pruneAll now store st).
Proof.
  intros H. unfold pruneAll. destruct (stores st !! store); [|done].
  apply (foldl_keeps policies_complete); [|done].
  intros acc key. apply complete_prune.
Qed.

Lemma complete_pruneAllStores (now : Z) (st : CacheStore) :
  policies_complete st → policies_complete (pruneAllStores now st).
Proof.
  intros H. apply (foldl_keeps policies_complete); [|done].
  intros acc store. apply complete_pruneAll.
Qed.

Lemma complete_invalidateAllStores (st : CacheStore) :
  policies_complete st → policies_complete (invalidateAllStores st).
Proof.
  intros H. unfold invalidateAllStores. destruct (frozen st); [done|].
  apply (foldl_keeps policies_complete); [|done].
  intros acc store. apply complete_clear_cached.
Qed.

Lemma complete_getValue (now : Z) (store key : string) (st : CacheStore) :
  policies_complete st → policies_complete (getValue now store key st).2.
Proof.
  intros H. unfold getValue. destruct (read_property (stores st) store) as [s| |].
  - cbn [snd]. apply (complete_prune now store key) in H.
    destruct (truthy (read_value s key)); exact H.
  - done.
  - cbn [snd]. by apply complete_createStore.
Qed.

(** Every call that passes no [undefined] in a partial policy keeps the
    policies complete, whether it returns or throws. *)
Lemma complete_perform (now : Z) (c : Call) (st : CacheStore) :
  definite_call c = true →
  policies_complete st → policies_complete (perform now c st).
Proof.
  intros Hd H. destruct c; cbn [perform]; cbn [definite_call] in Hd.
  - unfold invalidate. destruct (read_property (stores st) store) as [s| |]; [|done..].
    destruct (negb (has_property (cached s) key)); [done|].
    destruct (is_never (policy s)); [done|]. by apply complete_delete_cached.
  - unfold Earlier.invalidateIfExpired.
    destruct (read_property (stores st) store) as [s| |]; [|done..].
    destruct (is_never (policy s)); [done|].
    destruct (cached s !! key) as [e|]; [|done].
    destruct (expired now e (policy s)); [|done].
    destruct (frozen st); [done|]. by apply complete_delete_in_place.
  - unfold invalidateAll. destruct (read_property (stores st) store) as [s| |]; [|done..].
    destruct (is_never (policy s)); [done|].
    destruct (frozen st); [done|]. by apply complete_clear_cached.
  - unfold invalidateAllOrThrow.
    destruct (read_property (stores st) store) as [s| |]; [|done..].
    destruct (is_never (policy s)); [done|].
    destruct (frozen st); [done|]. by apply complete_clear_cached.
  - by apply complete_invalidateAllStores.
  - by apply complete_prune.
  - by apply complete_pruneAll.
  - by apply complete_pruneAllStores.
  - by apply complete_getValue.
  - by apply complete_createStore.
  - by apply complete_setValue.
  - by apply complete_setGlobalPolicy.
  - by apply complete_setStorePolicy.
  - done.
  - done.
  - done.
Qed.

Lemma complete_initialState : policies_complete initialState.
Proof.
  split.
  - unfold complete. simpl. eauto.
  - intros name s. simpl. by rewrite lookup_empty.
Qed.

Lemma complete_run (calls : list (Z * Call)) (st : CacheStore) :
  Forall (λ tc, definite_call tc.2 = true) calls →
  policies_complete st → policies_complete (run calls st).
Proof.
  unfold run. revert st. induction calls as [|tc calls IH]; intros st Hd Hst; [done|].
  apply Forall_cons in Hd as [Hd1 Hd]. cbn [foldl].
  apply IH; [done|]. by apply complete_perform.
Qed.

(** C10, as the code has it: after any sequence of calls of the
    interface in which no partial policy has a property holding
    [undefined], made at any times from the initial state, the global
    policy and the policy of every store have all three properties
    [invalidationPolicy], [expiry] and [pruneOnSessionStart]: a store is
    created with the current global policy spread under the caller's
    partial policy, a policy update spreads a partial policy over a
    complete one, and spreading such a partial policy over a complete
    policy gives a complete policy. *)
Theorem policies_complete_C10 (calls : list (Z * Call)) :
  Forall (λ tc, definite_call tc.2 = true) calls →
  policies_complete (run calls initialState) ∧
  (∀ (p : Policy) (partial : Partial.Policy),
     definite partial = true → complete p → complete (spread p partial)) ∧
  (∀ (now : Z) (c : Call) (st : CacheStore),
     definite_call c = true →
     policies_complete st → policies_complete (perform now c st)).
Proof.
  intros Hd. split; [|split].
  - apply complete_run; [done|]. apply complete_initialState.
  - intros p partial. apply complete_spread.
  - apply complete_perform.
Qed.

Lemma policies_complete_C10_witness :
  Forall (λ tc, definite_call tc.2 = true)
    [(0, call_createStore "s" {| Partial.invalidationPolicy := Given (Some never);
                                 Partial.expiry := Omitted;
                                 Partial.pruneOnSessionStart := Omitted |});
     (1, call_setValue "s" "k" (VNumber 1))] ∧
  policies_complete
    (run [(0, call_createStore "s" {| Partial.invalidationPolicy := Given (Some never);
                                      Partial.expiry := Omitted;
                                      Partial.pruneOnSessionStart := Omitted |});
          (1, call_setValue "s" "k" (VNumber 1))] initialState).
Proof.
  assert (Hd : Forall (λ tc, definite_call tc.2 = true)
                 [(0, call_createStore "s"
                        {| Partial.invalidationPolicy := Given (Some never);
                           Partial.expiry := Omitted;
                           Partial.pruneOnSessionStart := Omitted |});
                  (1, call_setValue "s" "k" (VNumber 1))]).
  { repeat constructor. }
  exact (conj Hd (proj1 (policies_complete_C10 _ Hd))).
Defined.

(** C10 as stated fails when a partial policy has a property holding
    [undefined]: a store created with [{ expiry: undefined }] has no
    [expiry]. *)
Lemma undefined_expiry_is_copied :
  let st := run [(0, call_createStore "s" {| Partial.invalidationPolicy := Omitted;
                                             Partial.expiry := Given None;
                                             Partial.pruneOnSessionStart := Omitted |})]
                initialState in
  (expiry <$> (policy <$> stores st !! "s")) = Some None ∧
  ¬ policies_complete st.
Proof.
  cbv zeta. split; [reflexivity|].
  intros [_ H]. destruct (H "s" _ eq_refl) as (_ & [d Hd] & _). discriminate Hd.
Qed.

(** ** Persisting and hydrating *)

(** A payload without [NaN] and without [undefined] inside an array or an
    object comes back from [JSON] as it went in. *)
Lemma json_clone_faithful (v : Value) : json_faithful v = true → json_clone v = v.
Proof.
  induction v as [| |b|n| |s|items IH|props IH] using Value_nested_ind;
    simpl; try done.
  - intros H. f_equal. induction IH as [|x l Hx _ IHl]; simpl in *; [done|].
    apply andb_prop in H as [Hfx Hl]. f_equal; [|by apply IHl].
    destruct x; try done; by apply Hx.
  - intros H. f_equal. induction IH as [|[k x] l Hx _ IHl]; simpl in *; [done|].
    destruct x; simpl in *; try done;
      try (apply andb_prop in H as [Hfx Hl]);
      rewrite ?Hx by done; f_equal; by apply IHl.
Qed.

Lemma json_entry_faithful (e : Entry) :
  json_faithful (value e) = true → json_entry e = e.
Proof.
  intros H. unfold json_entry. rewrite json_clone_faithful by done. by destruct e.
Qed.

Lemma stores_restart (st : CacheStore) :
  stores (restart st) = json_store <$> stores st.
Proof. reflexivity. Qed.

Lemma entry_restart (st : CacheStore) (store key : string) :
  entry (restart st) store key = json_entry <$> entry st store key.
Proof.
  unfold entry. rewrite stores_restart, lookup_fmap.
  destruct (stores st !! store) as [s|]; simpl; [|done].
  apply lookup_fmap.
Qed.

(** C3, as the code has it: writing the state under ["cache"] and
    hydrating from it gives back the same store names, the same policy for
    every store, the same global policy and the same entries, with their
    [assignedAt] and with their values as [JSON] encodes them (unchanged
    for a value [JSON] can represent); the statistics are written with the
    rest of the state and come back with the values they had. *)
Theorem restart_roundtrip_C3 (st : CacheStore) :
  same_registry st (restart st) ∧
  (∀ store key e,
     entry st store key = Some e →
     ∃ e', entry (restart st) store key = Some e' ∧
           assignedAt e' = assignedAt e ∧
           value e' = json_clone (value e) ∧
           (json_faithful (value e) = true → e' = e)) ∧
  _debugStatistics (restart st) = _debugStatistics st.
Proof.
  split; [|split; [|done]].
  - unfold same_registry. split; [|split; [done|split]].
    + rewrite stores_restart. apply dom_fmap_L.
    + intros name. rewrite stores_restart, lookup_fmap.
      by destruct (stores st !! name).
    + apply entry_restart.
  - intros store key e He. exists (json_entry e).
    rewrite entry_restart, He. simpl.
    split; [done|]. split; [done|]. split; [done|].
    apply json_entry_faithful.
Qed.

(** C3 as stated fails on the statistics: a hit counted before the
    restart is still counted after it. *)
Lemma restart_keeps_statistics :
  hits (_debugStatistics counted_scenario) = 1 ∧
  ¬ statistics_zero (restart counted_scenario).
Proof.
  split; [reflexivity|].
  unfold statistics_zero. vm_compute. intros [H _]. discriminate H.
Qed.

(** With nothing stored, hydration leaves the initial state. *)
Lemma hydrate_nothing : hydrate None initialState = initialState.
Proof. reflexivity. Qed.

(** An item written by the first listing has no statistics: the current
    ones stay. *)
Lemma merge_without_statistics (m : gmap string Store) (p : Policy) (st : CacheStore) :
  _debugStatistics
    (merge {| p_stores := Some m; p_globalPolicy := Some p; p_debugStatistics := None |} st)
  = _debugStatistics st.
Proof. reflexivity. Qed.

(** The listener of lines 407-412 is a further step after hydration: run
    at a time when the scenario's entry is older than its [expiry], it
    prunes the entry the hydration had restored. *)
Example restart_then_listener :
  entry (restart expiring_scenario) "s" "k" = Some expiring_entry ∧
  entry (onFinishHydration 1500 (restart expiring_scenario)) "s" "k" = None ∧
  entry (onFinishHydration 500 (restart expiring_scenario)) "s" "k" = Some expiring_entry.
Proof. vm_compute. repeat split. Qed.

(** The state read back from storage has store objects that are not
    frozen. *)
Lemma frozen_restart (st : CacheStore) : frozen (restart st) = false.
Proof. reflexivity. Qed.

(** ** The operations are what the objects compute *)

Lemma stores_state_of (m : Objects.Machine) (name : string) :
  stores (Objects.state_of m) !! name = Objects.root m !! name ≫= Objects.store_at m.
Proof. unfold Objects.state_of. simpl. apply lookup_omap. Qed.

Lemma store_at_Some (m : Objects.Machine) (r : positive) (s : Store) :
  Objects.store_at m r = Some s ↔
  ∃ o, Objects.store_objects m !! r = Some o ∧
       Objects.dictionaries m !! Objects.cached_at o = Some (cached s) ∧
       Objects.policy_of o = policy s.
Proof.
  unfold Objects.store_at. split.
  - destruct (Objects.store_objects m !! r) as [o|]; simpl; [|done].
    destruct (Objects.dictionaries m !! Objects.cached_at o) as [d|] eqn:Hd;
      simpl; [|done].
    intros [= <-]. simpl. eauto.
  - intros (o & -> & Hd & Hp). simpl. rewrite Hd. simpl. destruct s. simpl in *. by subst.
Qed.

(** Reading through a reference, in terms of the store it stands for. *)
Lemma objects_read (m : Objects.Machine) (r : positive) (s : Store) (key : string) :
  Objects.store_at m r = Some s →
  Objects.entry_of m r key = cached s !! key ∧
  Objects.read_value m r key = read_value s key ∧
  Objects.policy_of <$> Objects.store_objects m !! r = Some (policy s).
Proof.
  intros (o & Ho & Hd & Hp)%store_at_Some.
  unfold Objects.read_value, Objects.entry_of, Objects.cached_of, read_value.
  rewrite Ho. simpl. rewrite Hd. simpl. by rewrite Hp.
Qed.

(** [produce] writes to no object of the state before: whatever a
    reference stood for, it still stands for. *)
Lemma produce_delete_keeps (store key : string) (m : Objects.Machine) (r : positive) (s : Store) :
  Objects.well_formed m →
  Objects.store_at m r = Some s →
  Objects.store_at (Objects.produce_delete store key m) r = Some s.
Proof.
  intros Hwf Hs. unfold Objects.produce_delete.
  destruct (Objects.root m !! store) as [r0|]; [|done].
  destruct (Objects.store_objects m !! r0) as [o0|]; [|done].
  destruct (Objects.dictionaries m !! Objects.cached_at o0) as [d0|]; [|done].
  apply store_at_Some in Hs as (o & Ho & Hd & Hp).
  apply store_at_Some. exists o. simpl.
  assert (r < Objects.next m)%positive
    by (apply (Objects.wf_store_below m Hwf); eauto).
  assert (Objects.cached_at o < Objects.next m)%positive
    by (apply (Objects.wf_dictionary_below m Hwf); eauto).
  rewrite lookup_insert_ne by lia. rewrite lookup_insert_ne by lia. done.
Qed.

Lemma createStore_keeps (store : string) (partial : Partial.Policy) (m : Objects.Machine)
    (r : positive) (s : Store) :
  Objects.well_formed m →
  Objects.store_at m r = Some s →
  Objects.store_at (Objects.createStore store partial m) r = Some s.
Proof.
  intros Hwf Hs. unfold Objects.createStore.
  destruct (read_property (Objects.root m) store) as [r0| |]; [done..|].
  apply store_at_Some in Hs as (o & Ho & Hd & Hp).
  apply store_at_Some. exists o. simpl.
  assert (r < Objects.next m)%positive
    by (apply (Objects.wf_store_below m Hwf); eauto).
  assert (Objects.cached_at o < Objects.next m)%positive
    by (apply (Objects.wf_dictionary_below m Hwf); eauto).
  rewrite lookup_insert_ne by lia. rewrite lookup_insert_ne by lia. done.
Qed.

(** The recipe under [produce] is [delete_cached] on the state. *)
Lemma objects_produce_delete (store key : string) (r : positive) (m : Objects.Machine) :
  Objects.well_formed m →
  Objects.root m !! store = Some r →
  Objects.state_of (Objects.produce_delete store key m)
  = delete_cached store key (Objects.state_of m).
Proof.
  intros Hwf Hr. unfold delete_cached, with_stores, produced.
  assert (Hkeep := produce_delete_keeps store key m).
  unfold Objects.produce_delete in *. rewrite Hr in *.
  destruct (Objects.wf_reachable m Hwf store r Hr) as (s & Hs).
  apply store_at_Some in Hs as Hs'. destruct Hs' as (o & Ho & Hd & Hp).
  rewrite Ho, Hd in *. unfold Objects.state_of at 1. simpl. f_equal.
  apply map_eq. intros name. rewrite lookup_omap, lookup_alter.
  destruct (decide (store = name)) as [<-|Hne].
  - rewrite lookup_insert_eq, lookup_omap, Hr. simpl. rewrite Hs. simpl.
    unfold Objects.store_at. simpl. rewrite lookup_insert_eq. simpl.
    rewrite lookup_insert_eq. simpl. unfold with_cached. by rewrite Hp.
  - rewrite lookup_insert_ne, lookup_omap by done.
    destruct (Objects.root m !! name) as [r'|] eqn:Hr'; simpl; [|done].
    destruct (Objects.wf_reachable m Hwf name r' Hr') as (s' & Hs').
    rewrite Hs'. by apply Hkeep.
Qed.

(** A [delete] on the dictionary of [store] that goes through removes
    the entry from that store of the state and from no other: the
    dictionary belongs to no other store. *)
Lemma objects_delete_in_place (store key : string) (r : positive) (m : Objects.Machine) :
  Objects.well_formed m →
  Objects.root m !! store = Some r →
  Objects.state_of (Objects.delete_in_place r key m)
  = delete_in_place store key (Objects.state_of m).
Proof.
  intros Hwf Hr. unfold delete_in_place, with_stores.
  destruct (Objects.wf_reachable m Hwf store r Hr) as (s & Hs).
  apply store_at_Some in Hs as Hs'. destruct Hs' as (o & Ho & Hd & Hp).
  unfold Objects.delete_in_place. rewrite Ho.
  unfold Objects.state_of. simpl. f_equal.
  apply map_eq. intros name. rewrite lookup_omap, lookup_alter, !lookup_omap.
  destruct (decide (store = name)) as [<-|Hne].
  - rewrite Hr. simpl. rewrite Hs. simpl.
    unfold Objects.store_at. simpl. rewrite Ho. simpl.
    rewrite lookup_alter_eq, Hd. simpl. unfold with_cached. by rewrite Hp.
  - destruct (Objects.root m !! name) as [r'|] eqn:Hr'; simpl; [|done].
    destruct (Objects.wf_reachable m Hwf name r' Hr') as (s' & Hs').
    rewrite Hs'. apply store_at_Some in Hs' as (o' & Ho' & Hd' & Hp').
    apply store_at_Some. exists o'. simpl. split; [done|]. split; [|done].
    rewrite lookup_alter_ne; [done|].
    intros Heq. apply Hne.
    by apply (Objects.wf_unshared m Hwf store name r r' o o').
Qed.

(** A name gives the same kind of thing in the [stores] dictionary of
    references and in the state. *)
Lemma read_property_state_of (m : Objects.Machine) (store : string) :
  Objects.well_formed m →
  match read_property (Objects.root m) store with
  | Own r => ∃ s, Objects.store_at m r = Some s ∧
                  read_property (stores (Objects.state_of m)) store = Own s
  | FromPrototype => read_property (stores (Objects.state_of m)) store = FromPrototype
  | NotFound => read_property (stores (Objects.state_of m)) store = NotFound
  end.
Proof.
  intros Hwf. unfold read_property. rewrite stores_state_of.
  destruct (Objects.root m !! store) as [r|] eqn:Hr; simpl.
  - destruct (Objects.wf_reachable m Hwf store r Hr) as (s & Hs). rewrite Hs. eauto.
  - by destruct (inherited store).
Qed.

Lemma objects_createStore (store : string) (partial : Partial.Policy) (m : Objects.Machine) :
  Objects.well_formed m →
  Objects.state_of (Objects.createStore store partial m)
  = createStore store partial (Objects.state_of m).
Proof.
  intros Hwf. assert (Hkeep := createStore_keeps store partial m).
  assert (Hread := read_property_state_of m store Hwf).
  unfold createStore. unfold Objects.createStore in *.
  destruct (read_property (Objects.root m) store) as [r| |] eqn:Hr.
  - destruct Hread as (s & Hs & ->). done.
  - by rewrite Hread.
  - rewrite Hread.
    unfold Objects.state_of, with_stores, produced. simpl. f_equal.
    apply map_eq. intros name. rewrite lookup_omap, !lookup_insert.
    case_decide; simpl.
    + unfold Objects.store_at. simpl. rewrite lookup_insert_eq. simpl.
      by rewrite lookup_insert_eq.
    + rewrite lookup_omap.
      destruct (Objects.root m !! name) as [r'|] eqn:Hr'; simpl; [|done].
      destruct (Objects.wf_reachable m Hwf name r' Hr') as (s' & Hs').
      rewrite Hs'. by apply Hkeep.
Qed.

(** [prune] of the second listing, on objects and on the state. *)
Lemma objects_prune (now : Z) (store key : string) (m : Objects.Machine) :
  Objects.well_formed m →
  Objects.state_of (Objects.prune now store key m)
  = prune now store key (Objects.state_of m).
Proof.
  intros Hwf. unfold Objects.prune, prune. rewrite stores_state_of.
  destruct (Objects.root m !! store) as [r|] eqn:Hr; simpl; [|done].
  destruct (Objects.wf_reachable m Hwf store r Hr) as (s & Hs). rewrite Hs.
  destruct (objects_read m r s key Hs) as (He & _ & Hp).
  unfold Objects.prune_with. rewrite Hp, He.
  destruct (negb (is_on_expiry (policy s))); [done|].
  destruct (cached s !! key) as [e|]; [|done].
  destruct (expired now e (policy s)); [|done].
  by apply (objects_produce_delete store key r).
Qed.

(** [prune] of the first listing, on objects and on the state. *)
Lemma objects_earlier_prune (now : Z) (store key : string) (m : Objects.Machine) :
  Objects.well_formed m →
  Objects.state_of (Objects.earlier_prune now store key m)
  = Earlier.prune now store key (Objects.state_of m).
Proof.
  intros Hwf. unfold Objects.earlier_prune, Earlier.prune. rewrite stores_state_of.
  destruct (Objects.root m !! store) as [r|] eqn:Hr; simpl; [|done].
  destruct (Objects.wf_reachable m Hwf store r Hr) as (s & Hs). rewrite Hs.
  destruct (objects_read m r s key Hs) as (He & _ & Hp).
  unfold Objects.prune_with. rewrite Hp, He.
  destruct (negb (is_on_expiry (policy s))); [done|].
  destruct (cached s !! key) as [e|]; [|done].
  destruct (expired now e (policy s)); [|done].
  change (frozen (Objects.state_of m)) with (Objects.root_frozen m).
  destruct (Objects.root_frozen m); [done|].
  by apply objects_delete_in_place.
Qed.

(** How the first listing's [prune] ends, on objects and on the state. *)
Lemma objects_earlier_prune_ends (now : Z) (store key : string) (r : positive)
    (m : Objects.Machine) :
  Objects.well_formed m →
  Objects.root m !! store = Some r →
  Objects.earlier_prune_ends now r key m
  = Earlier.prune_ends now store key (Objects.state_of m).
Proof.
  intros Hwf Hr. unfold Objects.earlier_prune_ends, Earlier.prune_ends.
  destruct (Objects.wf_reachable m Hwf store r Hr) as (s & Hs).
  assert (Hst : stores (Objects.state_of m) !! store = Some s).
  { rewrite stores_state_of, Hr. done. }
  rewrite (read_property_lookup _ _ _ Hst).
  destruct (objects_read m r s key Hs) as (He & _ & Hp).
  rewrite Hp, He. done.
Qed.

(** After the second listing's [prune], a reference taken before it
    still stands for the store as it was. *)
Lemma prune_keeps_objects (now : Z) (store key : string) (m : Objects.Machine)
    (r : positive) (s : Store) :
  Objects.well_formed m →
  Objects.store_at m r = Some s →
  Objects.store_at (Objects.prune now store key m) r = Some s.
Proof.
  intros Hwf Hs. unfold Objects.prune, Objects.prune_with.
  destruct (Objects.root m !! store) as [r0|]; [|done].
  destruct (Objects.policy_of <$> Objects.store_objects m !! r0) as [p|]; [|done].
  destruct (negb (is_on_expiry p)); [done|].
  destruct (Objects.entry_of m r0 key) as [e|]; [|done].
  destruct (expired now e p); [|done].
  by apply produce_delete_keeps.
Qed.

Lemma root_earlier_prune (now : Z) (store key : string) (m : Objects.Machine) :
  Objects.root (Objects.earlier_prune now store key m) = Objects.root m.
Proof.
  unfold Objects.earlier_prune, Objects.prune_with, Objects.delete_in_place.
  destruct (Objects.root m !! store) as [r0|]; [|done].
  destruct (Objects.policy_of <$> Objects.store_objects m !! r0) as [p|]; [|done].
  destruct (negb (is_on_expiry p)); [done|].
  destruct (Objects.entry_of m r0 key) as [e|]; [|done].
  destruct (expired now e p); [|done].
  destruct (Objects.root_frozen m); [done|].
  by destruct (Objects.store_objects m !! r0).
Qed.

(** Reading through a reference, whether or not it stands for a store. *)
Lemma objects_read_value (m : Objects.Machine) (r : positive) (key : string) :
  Objects.read_value m r key
  = from_option (λ s, read_value s key) VUndefined (Objects.store_at m r).
Proof.
  destruct (Objects.store_at m r) as [s|] eqn:Hs; simpl.
  - by apply objects_read.
  - unfold Objects.read_value, Objects.entry_of, Objects.cached_of.
    unfold Objects.store_at in Hs.
    destruct (Objects.store_objects m !! r) as [o|]; simpl in *; [|done].
    by destruct (Objects.dictionaries m !! Objects.cached_at o).
Qed.

(** [getValue] of the second listing: read through the reference
    [storeInstance] after [prune], it returns what the operation on
    states returns, the value from before the removal. *)
Lemma objects_getValue (now : Z) (store key : string) (m : Objects.Machine) :
  Objects.well_formed m →
  (Objects.getValue now store key m).1 = (getValue now store key (Objects.state_of m)).1 ∧
  Objects.state_of (Objects.getValue now store key m).2
  = (getValue now store key (Objects.state_of m)).2.
Proof.
  intros Hwf. assert (Hread := read_property_state_of m store Hwf).
  unfold Objects.getValue, getValue.
  destruct (read_property (Objects.root m) store) as [r| |] eqn:Hr.
  - destruct Hread as (s & Hs & ->). cbn [fst snd].
    assert (Hs1 := prune_keeps_objects now store key m r s Hwf Hs).
    destruct (objects_read _ r s key Hs1) as (_ & -> & _).
    split; [done|]. rewrite <- objects_prune by done.
    by destruct (truthy (read_value s key)).
  - by rewrite Hread.
  - rewrite Hread. split; [done|]. by apply objects_createStore.
Qed.

(** [getValue] of the first listing: the same read finds the dictionary
    [prune] deleted from, where the [delete] went through. *)
Lemma objects_earlier_getValue (now : Z) (store key : string) (m : Objects.Machine) :
  Objects.well_formed m →
  (Objects.earlier_getValue now store key m).1
  = (Earlier.getValue now store key (Objects.state_of m)).1 ∧
  Objects.state_of (Objects.earlier_getValue now store key m).2
  = (Earlier.getValue now store key (Objects.state_of m)).2.
Proof.
  intros Hwf. assert (Hread := read_property_state_of m store Hwf).
  unfold Objects.earlier_getValue, Earlier.getValue.
  destruct (read_property (Objects.root m) store) as [r| |] eqn:Hr.
  - destruct Hread as (s & Hs & ->). apply read_property_Own in Hr.
    rewrite (objects_earlier_prune_ends now store key r m Hwf Hr).
    destruct (Earlier.prune_ends now store key (Objects.state_of m)); [|done].
    cbn [fst snd]. rewrite <- objects_earlier_prune by done. split; [|done].
    rewrite objects_read_value, stores_state_of, root_earlier_prune, Hr. done.
  - by rewrite Hread.
  - rewrite Hread. split; [done|]. by apply objects_createStore.
Qed.

(** The expiring scenario, as objects. *)
Lemma expiring_machine_well_formed : Objects.well_formed expiring_machine.
Proof.
  split; unfold expiring_machine; simpl.
  - intros name r [<- <-]%lookup_singleton_Some. vm_compute. eauto.
  - intros r [o [<- _]%lookup_singleton_Some]. reflexivity.
  - intros r [o [<- _]%lookup_singleton_Some]. reflexivity.
  - intros name1 name2 r1 r2 o1 o2
      [<- _]%lookup_singleton_Some [<- _]%lookup_singleton_Some _ _ _. done.
Qed.

Example expiring_machine_scenario :
  Objects.state_of expiring_machine = expiring_scenario ∧
  (Objects.getValue 1500 "s" "k" expiring_machine).1 = VNumber 42 ∧
  entry (Objects.state_of (Objects.getValue 1500 "s" "k" expiring_machine).2) "s" "k" = None ∧
  (Objects.earlier_getValue 1500 "s" "k" expiring_machine).1 = Abrupt TypeError.
Proof. vm_compute. repeat split. Qed.

(** ** The operations keep the objects well formed *)

(** A new store object [ro] with a new dictionary [rd], put under
    [store]: what [createStore] and a recipe under [produce] both do. *)
Lemma well_formed_install (store : string) (p : Policy) (d : gmap string Entry)
    (f : bool) (m : Objects.Machine) :
  Objects.well_formed m →
  Objects.well_formed
    {| Objects.store_objects :=
         <[Pos.succ (Objects.next m) :=
             {| Objects.cached_at := Objects.next m; Objects.policy_of := p |}]>
           (Objects.store_objects m);
       Objects.dictionaries := <[Objects.next m := d]> (Objects.dictionaries m);
       Objects.next := Pos.succ (Pos.succ (Objects.next m));
       Objects.root := <[store := Pos.succ (Objects.next m)]> (Objects.root m);
       Objects.root_globalPolicy := Objects.root_globalPolicy m;
       Objects.root_statistics := Objects.root_statistics m;
       Objects.root_frozen := f |}.
Proof.
  intros Hwf.
  assert (Hso : ∀ r o, Objects.store_objects m !! r = Some o →
                       (r < Objects.next m)%positive).
  { intros r o Hr. apply (Objects.wf_store_below m Hwf). eauto. }
  assert (Hdi : ∀ r d', Objects.dictionaries m !! r = Some d' →
                        (r < Objects.next m)%positive).
  { intros r d' Hr. apply (Objects.wf_dictionary_below m Hwf). eauto. }
  assert (Hre : ∀ name r, Objects.root m !! name = Some r →
                ∃ o d', Objects.store_objects m !! r = Some o ∧
                        Objects.dictionaries m !! Objects.cached_at o = Some d').
  { intros name r Hr. destruct (Objects.wf_reachable m Hwf name r Hr) as (s & Hs).
    apply store_at_Some in Hs as (o & Ho & Hd & _). eauto. }
  split; simpl.
  - intros name r. rewrite lookup_insert. case_decide.
    + intros [= <-]. unfold Objects.store_at. simpl.
      rewrite lookup_insert_eq. simpl. rewrite lookup_insert_eq. simpl. eauto.
    + intros Hr. destruct (Hre name r Hr) as (o & d' & Ho & Hd).
      unfold Objects.store_at. simpl.
      rewrite lookup_insert_ne by (apply Hso in Ho; lia). rewrite Ho. simpl.
      rewrite lookup_insert_ne by (apply Hdi in Hd; lia). rewrite Hd. simpl. eauto.
  - intros r. rewrite lookup_insert. case_decide; [subst; lia|].
    intros [o Ho]. apply Hso in Ho. lia.
  - intros r. rewrite lookup_insert. case_decide; [subst; lia|].
    intros [d' Hd]. apply Hdi in Hd. lia.
  - intros name1 name2 r1 r2 o1 o2. rewrite !lookup_insert.
    destruct (decide (store = name1)) as [<-|H1];
      destruct (decide (store = name2)) as [<-|H2]; [done| | |].
    + intros [= <-] Hr2. rewrite decide_True by done. intros [= <-].
      destruct (Hre name2 r2 Hr2) as (o & d' & Ho & Hd).
      rewrite decide_False by (apply Hso in Ho; lia). rewrite Ho.
      intros [= <-]. simpl. intros Heq. apply Hdi in Hd. lia.
    + intros Hr1 [= <-]. destruct (Hre name1 r1 Hr1) as (o & d' & Ho & Hd).
      rewrite decide_False by (apply Hso in Ho; lia). rewrite Ho.
      intros [= <-]. rewrite decide_True by done. intros [= <-]. simpl.
      intros Heq. apply Hdi in Hd. lia.
    + intros Hr1 Hr2.
      destruct (Hre name1 r1 Hr1) as (o & d' & Ho & Hd).
      destruct (Hre name2 r2 Hr2) as (o' & d'' & Ho' & Hd').
      rewrite decide_False by (apply Hso in Ho; lia).
      rewrite decide_False by (apply Hso in Ho'; lia).
      by apply (Objects.wf_unshared m Hwf).
Qed.

Lemma well_formed_createStore (store : string) (partial : Partial.Policy) (m : Objects.Machine) :
  Objects.well_formed m → Objects.well_formed (Objects.createStore store partial m).
Proof.
  intros Hwf. unfold Objects.createStore.
  destruct (read_property (Objects.root m) store); [done..|]. by apply well_formed_install.
Qed.

Lemma well_formed_produce_delete (store key : string) (m : Objects.Machine) :
  Objects.well_formed m → Objects.well_formed (Objects.produce_delete store key m).
Proof.
  intros Hwf. unfold Objects.produce_delete.
  destruct (Objects.root m !! store) as [r|]; [|done].
  destruct (Objects.store_objects m !! r) as [o|]; [|done].
  destruct (Objects.dictionaries m !! Objects.cached_at o) as [d|]; [|done].
  by apply well_formed_install.
Qed.

Lemma well_formed_delete_in_place (r : positive) (key : string) (m : Objects.Machine) :
  Objects.well_formed m → Objects.well_formed (Objects.delete_in_place r key m).
Proof.
  intros Hwf. unfold Objects.delete_in_place.
  destruct (Objects.store_objects m !! r) as [o|]; [|done].
  split; simpl.
  - intros name r' Hr'. destruct (Objects.wf_reachable m Hwf name r' Hr') as (s & Hs).
    apply store_at_Some in Hs as (o' & Ho' & Hd' & _).
    unfold Objects.store_at. simpl. rewrite Ho'. simpl.
    rewrite lookup_alter. case_decide as Heq.
    + rewrite Heq in *. rewrite Hd'. simpl. eauto.
    + rewrite Hd'. simpl. eauto.
  - apply (Objects.wf_store_below m Hwf).
  - intros r'. rewrite lookup_alter_is_Some. apply (Objects.wf_dictionary_below m Hwf).
  - apply (Objects.wf_unshared m Hwf).
Qed.

Lemma well_formed_prune (now : Z) (store key : string) (m : Objects.Machine) :
  Objects.well_formed m →
  Objects.well_formed (Objects.prune now store key m) ∧
  Objects.well_formed (Objects.earlier_prune now store key m).
Proof.
  intros Hwf. unfold Objects.prune, Objects.earlier_prune, Objects.prune_with.
  destruct (Objects.root m !! store) as [r|]; [|done].
  destruct (Objects.policy_of <$> Objects.store_objects m !! r) as [p|]; [|done].
  destruct (negb (is_on_expiry p)); [done|].
  destruct (Objects.entry_of m r key) as [e|]; [|done].
  destruct (expired now e p); [|done]. split.
  - by apply well_formed_produce_delete.
  - destruct (Objects.root_frozen m); [done|]. by apply well_formed_delete_in_place.
Qed.

Lemma well_formed_with_statistics (d : Statistics) (m : Objects.Machine) :
  Objects.well_formed m → Objects.well_formed (Objects.with_statistics d m).
Proof. intros [H1 H2 H3 H4]. by split. Qed.

(** Both listings of [getValue] leave well-formed objects, so the
    correspondence with the operations on states holds call after call. *)
Lemma well_formed_getValue (now : Z) (store key : string) (m : Objects.Machine) :
  Objects.well_formed m →
  Objects.well_formed (Objects.getValue now store key m).2 ∧
  Objects.well_formed (Objects.earlier_getValue now store key m).2.
Proof.
  intros Hwf. unfold Objects.getValue, Objects.earlier_getValue.
  destruct (well_formed_prune now store key m Hwf) as [H2 H1].
  destruct (read_property (Objects.root m) store) as [r| |]; simpl.
  - split.
    + destruct (truthy _); by apply well_formed_with_statistics.
    + by destruct (Objects.earlier_prune_ends now r key m).
  - done.
  - split; by apply well_formed_createStore.
Qed.

(** * Further properties of the operations *)

(** ** Records and recipes *)

Lemma with_stores_id (st : CacheStore) : with_stores (stores st) st = st.
Proof. by destruct st. Qed.

Lemma stores_after_recipes (ran : bool) (st : CacheStore) :
  stores (after_recipes ran st) = stores st.
Proof. by destruct ran. Qed.

Lemma frozen_after_recipes (ran : bool) (st : CacheStore) :
  frozen (after_recipes ran st) = ran || frozen st.
Proof. by destruct ran. Qed.

Lemma entry_clear_cached_all (store store' key' : string) (st : CacheStore) :
  entry (clear_cached store st) store' key' =
    if decide (store' = store) then None else entry st store' key'.
Proof.
  unfold entry. rewrite stores_clear_cached.
  destruct (decide (store = store')) as [<-|Hne].
  - rewrite decide_True by done. by destruct (stores st !! store).
  - rewrite decide_False; [done|]. congruence.
Qed.

Lemma entry_assign_cached (store key store' key' : string) (e : Entry) (st : CacheStore) :
  is_Some (stores st !! store) →
  entry (assign_cached store key e st) store' key' =
    if decide (store' = store ∧ key' = key) then Some e else entry st store' key'.
Proof.
  intros [s Hs]. unfold entry. rewrite stores_assign_cached.
  destruct (decide (store = store')) as [<-|Hne].
  - rewrite Hs. simpl. destruct (decide (key' = key)) as [->|Hk].
    + rewrite lookup_insert_eq. rewrite decide_True; done.
    + rewrite lookup_insert_ne by done. rewrite decide_False; [done|tauto].
  - rewrite decide_False; [done|]. intros [-> _]. done.
Qed.

Lemma dueb_true (now : Z) (s : Store) (e : Entry) :
  dueb now (policy s) e = true ↔ due now s e.
Proof.
  unfold dueb, due. rewrite andb_true_iff, is_on_expiry_true, expired_true. done.
Qed.

Lemma dueb_false (now : Z) (s : Store) (e : Entry) :
  dueb now (policy s) e = false ↔ ¬ due now s e.
Proof. rewrite <- dueb_true. by destruct (dueb now (policy s) e). Qed.

(** Time only makes entries due. *)
Lemma dueb_later (t1 t2 : Z) (p : Policy) (e : Entry) :
  t1 ≤ t2 → dueb t1 p e = true → dueb t2 p e = true.
Proof.
  intros Ht. unfold dueb, expired. destruct (is_on_expiry p); [|done]. simpl.
  destruct (expiry p) as [d|]; [|done]. rewrite !Z.ltb_lt. lia.
Qed.

(** ** What a pruning loop leaves *)
(** ** What a pruning loop leaves *)

Lemma prune_as_dueb (now : Z) (store key : string) (st : CacheStore) (s : Store) :
  stores st !! store = Some s →
  prune now store key st =
    match cached s !! key with
    | Some e => if dueb now (policy s) e then delete_cached store key st else st
    | None => st
    end.
Proof.
  intros Hs. unfold prune, dueb. rewrite Hs.
  destruct (is_on_expiry (policy s)); simpl; [done|].
  by destruct (cached s !! key).
Qed.

Lemma prune_as_due_key (now : Z) (store key : string) (st : CacheStore) (s : Store) :
  stores st !! store = Some s →
  prune now store key st =
    if due_key now s key then delete_cached store key st else st.
Proof.
  intros Hs. rewrite (prune_as_dueb now store key st s Hs). unfold due_key.
  by destruct (cached s !! key).
Qed.

(** The loop of [pruneAll] over any list of keys: the keys of the list
    lose their due entries, nothing else changes in the store. *)
Lemma prune_loop (now : Z) (store : string) (l : list string) (st : CacheStore) (s : Store) :
  stores st !! store = Some s →
  ∃ s',
    stores (foldl (λ acc key, prune now store key acc) st l) !! store = Some s' ∧
    policy s' = policy s ∧
    ∀ key, cached s' !! key =
             if decide (key ∈ l)
             then cached s !! key ≫= λ e, if dueb now (policy s) e then None else Some e
             else cached s !! key.
Proof.
  revert st s. induction l as [|k l IH]; intros st s Hs; cbn [foldl].
  - exists s. split; [done|]. split; [done|]. intros key.
    rewrite decide_False; [done|]. apply not_elem_of_nil.
  - rewrite (prune_as_dueb now store k st s Hs).
    destruct (cached s !! k) as [e|] eqn:He; [destruct (dueb now (policy s) e) eqn:Hd|].
    + assert (Hs1 : stores (delete_cached store k st) !! store
                    = Some (with_cached (delete k (cached s)) s)).
      { rewrite stores_delete_cached, decide_True, Hs by done. done. }
      destruct (IH _ _ Hs1) as (s' & Hs' & Hp & Hc). exists s'.
      split; [done|]. split; [done|]. intros key. rewrite Hc. simpl.
      destruct (decide (key = k)) as [->|Hk].
      * rewrite lookup_delete_eq, He. simpl. rewrite Hd.
        rewrite (decide_True (P := k ∈ k :: l)) by (apply elem_of_cons; auto).
        by case_decide.
      * rewrite lookup_delete_ne by done.
        destruct (decide (key ∈ l)) as [Hin|Hin].
        -- rewrite decide_True by (apply elem_of_cons; auto). done.
        -- rewrite decide_False; [done|]. intros [?|?]%elem_of_cons; done.
    + destruct (IH _ _ Hs) as (s' & Hs' & Hp & Hc). exists s'.
      split; [done|]. split; [done|]. intros key. rewrite Hc.
      destruct (decide (key = k)) as [->|Hk].
      * rewrite He. simpl. rewrite Hd.
        rewrite (decide_True (P := k ∈ k :: l)) by (apply elem_of_cons; auto).
        by case_decide.
      * destruct (decide (key ∈ l)) as [Hin|Hin].
        -- rewrite decide_True by (apply elem_of_cons; auto). done.
        -- rewrite decide_False; [done|]. intros [?|?]%elem_of_cons; done.
    + destruct (IH _ _ Hs) as (s' & Hs' & Hp & Hc). exists s'.
      split; [done|]. split; [done|]. intros key. rewrite Hc.
      destruct (decide (key = k)) as [->|Hk].
      * rewrite He. simpl. by repeat case_decide.
      * destruct (decide (key ∈ l)) as [Hin|Hin].
        -- rewrite decide_True by (apply elem_of_cons; auto). done.
        -- rewrite decide_False; [done|]. intros [?|?]%elem_of_cons; done.
Qed.

Lemma prune_loop_frame (now : Z) (store : string) (l : list string) (st : CacheStore) :
  (∀ name, name ≠ store →
     stores (foldl (λ acc key, prune now store key acc) st l) !! name = stores st !! name) ∧
  globalPolicy (foldl (λ acc key, prune now store key acc) st l) = globalPolicy st ∧
  _debugStatistics (foldl (λ acc key, prune now store key acc) st l) = _debugStatistics st.
Proof.
  apply (foldl_keeps (λ acc,
    (∀ name, name ≠ store → stores acc !! name = stores st !! name) ∧
    globalPolicy acc = globalPolicy st ∧
    _debugStatistics acc = _debugStatistics st)); [|done].
  intros acc key (H1 & H2 & H3). unfold prune.
  destruct (stores acc !! store) as [s|]; [|done].
  destruct (negb (is_on_expiry (policy s))); [done|].
  destruct (cached s !! key) as [e|]; [|done].
  destruct (expired now e (policy s)); [|done].
  split; [|done]. intros name Hne.
  rewrite stores_delete_cached, decide_False by done. by apply H1.
Qed.

(** The loop leaves frozen objects as soon as one of its keys had a due
    entry: that [prune] ran its recipe. *)
Lemma prune_loop_frozen (now : Z) (store : string) (l : list string) (st : CacheStore)
    (s : Store) :
  stores st !! store = Some s →
  frozen (foldl (λ acc key, prune now store key acc) st l)
  = existsb (due_key now s) l || frozen st.
Proof.
  revert st s. induction l as [|k l IH]; intros st s Hs; cbn [foldl existsb]; [done|].
  rewrite (prune_as_due_key now store k st s Hs).
  destruct (due_key now s k) eqn:Hd.
  - assert (Hs1 : stores (delete_cached store k st) !! store
                  = Some (with_cached (delete k (cached s)) s)).
    { rewrite stores_delete_cached, decide_True, Hs by done. done. }
    rewrite (IH _ _ Hs1). simpl. apply orb_true_r.
  - by rewrite (IH _ _ Hs).
Qed.

Lemma due_key_true (now : Z) (s : Store) (key : string) :
  due_key now s key = true ↔ ∃ e, cached s !! key = Some e ∧ dueb now (policy s) e = true.
Proof.
  unfold due_key. destruct (cached s !! key) as [e|].
  - split; [eauto|]. by intros (e' & [= <-] & H).
  - split; [done|]. by intros (e' & [=] & _).
Qed.

Lemma any_due_true (now : Z) (s : Store) :
  any_due now s = true ↔
  ∃ key e, cached s !! key = Some e ∧ dueb now (policy s) e = true.
Proof.
  unfold any_due. rewrite existsb_exists. split.
  - intros (key & _ & (e & He & Hd)%due_key_true). eauto.
  - intros (key & e & He & Hd). exists key. split.
    + apply list_elem_of_In, elem_of_keys. eauto.
    + apply due_key_true. eauto.
Qed.

(** A store without a due entry is its own pruned store. *)
Lemma pruned_store_id (now : Z) (s : Store) : any_due now s = false → pruned_store now s = s.
Proof.
  intros Hn. destruct s as [c p]. unfold pruned_store, with_cached. simpl. f_equal.
  apply map_eq. intros key. rewrite lookup_omap.
  destruct (c !! key) as [e|] eqn:He; simpl; [|done].
  destruct (dueb now p e) eqn:Hd; [|done].
  assert (any_due now {| cached := c; policy := p |} = true); [|congruence].
  apply any_due_true. simpl. eauto.
Qed.

(** [pruneAll], as one step on the state. *)
Lemma pruneAll_as_pruned_store (now : Z) (store : string) (st : CacheStore) :
  pruneAll now store st
  = after_recipes (store_due now st store)
      (with_stores (alter (pruned_store now) store (stores st)) st).
Proof.
  unfold pruneAll, store_due. destruct (stores st !! store) as [s|] eqn:Hs.
  - destruct (prune_loop now store (keys (cached s)) st s Hs) as (s' & Hs' & Hp & Hc).
    destruct (prune_loop_frame now store (keys (cached s)) st) as (Hf & Hg & Hd).
    apply CacheStore_eq; rewrite ?stores_after_recipes, ?frozen_after_recipes.
    + apply map_eq. intros name. simpl. rewrite lookup_alter.
      destruct (decide (store = name)) as [<-|Hne].
      * rewrite Hs', Hs. simpl. f_equal.
        destruct s' as [c' p']. simpl in *. subst p'.
        unfold pruned_store, with_cached. f_equal.
        apply map_eq. intros key. rewrite Hc, lookup_omap.
        case_decide as Hin; [done|].
        rewrite elem_of_keys in Hin.
        destruct (cached s !! key) eqn:He; [|done]. exfalso. apply Hin. eauto.
      * apply Hf. congruence.
    + rewrite Hg. by destruct (any_due now s).
    + rewrite Hd. by destruct (any_due now s).
    + by rewrite (prune_loop_frozen now store _ st s Hs).
  - simpl. transitivity (with_stores (stores st) st); [by rewrite with_stores_id|].
    f_equal. apply map_eq. intros name. rewrite lookup_alter.
    case_decide; [subst|done]. by rewrite Hs.
Qed.

Lemma pruned_store_twice (t1 t2 : Z) (s : Store) :
  t1 ≤ t2 → pruned_store t2 (pruned_store t1 s) = pruned_store t2 s.
Proof.
  intros Ht. unfold pruned_store, with_cached. simpl. f_equal.
  apply map_eq. intros key. rewrite !lookup_omap.
  destruct (cached s !! key) as [e|]; simpl; [|done].
  destruct (dueb t1 (policy s) e) eqn:H1; simpl; [|done].
  by rewrite (dueb_later t1 t2 _ _ Ht H1).
Qed.

(** The loop of [pruneAllStores] over any list of store names. *)
Lemma pruneAll_loop (now : Z) (l : list string) (st : CacheStore) (name : string) :
  stores (foldl (λ acc store, pruneAll now store acc) st l) !! name =
    if decide (name ∈ l) then pruned_store now <$> stores st !! name
    else stores st !! name.
Proof.
  revert st. induction l as [|x l IH]; intros st; cbn [foldl].
  - case_decide as H; [|done]. by apply elem_of_nil in H.
  - rewrite IH, pruneAll_as_pruned_store, stores_after_recipes. simpl.
    rewrite lookup_alter.
    destruct (decide (x = name)) as [->|Hx].
    + rewrite (decide_True (P := name ∈ name :: l)) by (apply elem_of_cons; auto).
      case_decide; [|done].
      destruct (stores st !! name) as [s|]; simpl; [|done].
      f_equal. by apply pruned_store_twice.
    + destruct (decide (name ∈ l)) as [Hin|Hin].
      * rewrite decide_True by (apply elem_of_cons; auto). done.
      * rewrite decide_False; [done|]. intros [->|?]%elem_of_cons; done.
Qed.

Lemma cached_pruned_store (now : Z) (s : Store) (key : string) (e : Entry) :
  cached (pruned_store now s) !! key = Some e ↔ cached s !! key = Some e ∧ ¬ due now s e.
Proof.
  unfold pruned_store. simpl. rewrite lookup_omap.
  destruct (cached s !! key) as [e'|]; simpl.
  - destruct (dueb now (policy s) e') eqn:Hd.
    + split; [done|]. intros [[= ->] Hn]. apply dueb_true in Hd. done.
    + split.
      * intros [= <-]. split; [done|]. by apply dueb_false.
      * by intros [[= ->] _].
  - split; [done|]. by intros [? _].
Qed.

(** A pruned store holds no due entry. *)
Lemma any_due_pruned_store (now : Z) (s : Store) : any_due now (pruned_store now s) = false.
Proof.
  destruct (any_due now (pruned_store now s)) eqn:H; [|done].
  apply any_due_true in H as (key & e & He & Hd).
  apply cached_pruned_store in He as [_ Hn]. apply (dueb_true now s e) in Hd. done.
Qed.

(** One [pruneAll] changes which stores hold a due entry only by making
    the answer [false] for its own store. *)
Lemma store_due_pruneAll (now : Z) (x name : string) (st : CacheStore) :
  store_due now (pruneAll now x st) name
  = if decide (x = name) then false else store_due now st name.
Proof.
  unfold store_due at 1. rewrite pruneAll_as_pruned_store, stores_after_recipes. simpl.
  rewrite lookup_alter. case_decide; [subst|done].
  destruct (stores st !! name) as [s|]; simpl; [|done]. apply any_due_pruned_store.
Qed.

Lemma existsb_pointwise {A : Type} (f g : A → bool) (l : list A) :
  (∀ x, f x = g x) → existsb f l = existsb g l.
Proof. intros H. induction l as [|x l IH]; simpl; [done|]. by rewrite H, IH. Qed.

(** Two lists with the same elements pass the same tests. *)
Lemma existsb_same_elements {A : Type} (f : A → bool) (l l' : list A) :
  (∀ x, x ∈ l ↔ x ∈ l') → existsb f l = existsb f l'.
Proof.
  intros H. apply eq_true_iff_eq. rewrite !existsb_exists.
  split; intros (x & Hin & Hx); exists x; split; try done;
    apply list_elem_of_In; apply H; by apply list_elem_of_In.
Qed.

(** The loop of [pruneAllStores] leaves frozen objects as soon as one of
    its stores held a due entry. *)
Lemma pruneAll_loop_frozen (now : Z) (l : list string) (st : CacheStore) :
  frozen (foldl (λ acc store, pruneAll now store acc) st l)
  = existsb (store_due now st) l || frozen st.
Proof.
  revert st. induction l as [|x l IH]; intros st; cbn [foldl existsb]; [done|].
  rewrite IH. rewrite pruneAll_as_pruned_store at 2. rewrite frozen_after_recipes.
  destruct (store_due now st x) eqn:Hx; simpl.
  - by rewrite orb_true_r.
  - f_equal. apply existsb_pointwise. intros name. rewrite store_due_pruneAll.
    case_decide; [subst|done]. done.
Qed.

(** Some store of the state holds an entry that is due at [now]. *)
Lemma some_store_due (now : Z) (st : CacheStore) :
  existsb (store_due now st) (keys (stores st)) = true ↔
  ∃ name s key e, stores st !! name = Some s ∧ cached s !! key = Some e ∧
                  dueb now (policy s) e = true.
Proof.
  rewrite existsb_exists. unfold store_due. split.
  - intros (name & _ & H). destruct (stores st !! name) as [s|] eqn:Hs; [|done].
    apply any_due_true in H as (key & e & He & Hd). eauto 10.
  - intros (name & s & key & e & Hs & He & Hd). exists name. split.
    + apply list_elem_of_In, elem_of_keys. eauto.
    + rewrite Hs. apply any_due_true. eauto.
Qed.

(** [pruneAllStores], as one step on the state. *)
Lemma pruneAllStores_as_pruned_store (now : Z) (st : CacheStore) :
  pruneAllStores now st
  = after_recipes (existsb (store_due now st) (keys (stores st)))
      (with_stores (pruned_store now <$> stores st) st).
Proof.
  unfold pruneAllStores.
  apply CacheStore_eq; rewrite ?stores_after_recipes, ?frozen_after_recipes.
  - apply map_eq. intros name. simpl. rewrite pruneAll_loop, lookup_fmap.
    case_decide as Hin; [done|]. rewrite elem_of_keys in Hin.
    destruct (stores st !! name) eqn:Hs; [|done]. exfalso. apply Hin. eauto.
  - transitivity (globalPolicy st); [|by destruct (existsb _ _)].
    apply (foldl_keeps (λ acc, globalPolicy acc = globalPolicy st)); [|done].
    intros acc store H. rewrite pruneAll_as_pruned_store.
    by destruct (store_due now acc store).
  - transitivity (_debugStatistics st); [|by destruct (existsb _ _)].
    apply (foldl_keeps (λ acc, _debugStatistics acc = _debugStatistics st)); [|done].
    intros acc store H. rewrite pruneAll_as_pruned_store.
    by destruct (store_due now acc store).
  - by rewrite pruneAll_loop_frozen.
Qed.

Lemma globalPolicy_after_recipes (ran : bool) (st : CacheStore) :
  globalPolicy (after_recipes ran st) = globalPolicy st.
Proof. by destruct ran. Qed.

Lemma statistics_after_recipes (ran : bool) (st : CacheStore) :
  _debugStatistics (after_recipes ran st) = _debugStatistics st.
Proof. by destruct ran. Qed.

(** X1: [pruneAll(store)] removes from the store exactly the entries that
    are due at [now] (policy [on-expiry] and older than [expiry]): an
    entry is in the store afterwards if and only if it was there and is
    not due.  Every other store, every policy, the global policy and the
    statistics are as before, and on a store name that does not exist the
    state is left as it is. *)
Theorem pruneAll_entries_X1 (now : Z) (store : string) (st : CacheStore) :
  (∀ s key e,
     stores st !! store = Some s →
     (entry (pruneAll now store st) store key = Some e ↔
        cached s !! key = Some e ∧ ¬ due now s e)) ∧
  (∀ name, name ≠ store → stores (pruneAll now store st) !! name = stores st !! name) ∧
  (∀ name, policy <$> stores (pruneAll now store st) !! name = policy <$> stores st !! name) ∧
  (stores st !! store = None → pruneAll now store st = st) ∧
  globalPolicy (pruneAll now store st) = globalPolicy st ∧
  _debugStatistics (pruneAll now store st) = _debugStatistics st.
Proof.
  split; [|split; [|split; [|split; [|split]]]].
  - intros s key e Hs. unfold entry.
    rewrite pruneAll_as_pruned_store, stores_after_recipes. simpl.
    rewrite lookup_alter_eq, Hs. simpl. apply cached_pruned_store.
  - intros name Hne. rewrite pruneAll_as_pruned_store, stores_after_recipes. simpl.
    by rewrite lookup_alter_ne.
  - intros name. rewrite pruneAll_as_pruned_store, stores_after_recipes. simpl.
    rewrite lookup_alter. case_decide; [subst|done].
    by destruct (stores st !! name).
  - intros Hs. unfold pruneAll. by rewrite Hs.
  - by rewrite pruneAll_as_pruned_store, globalPolicy_after_recipes.
  - by rewrite pruneAll_as_pruned_store, statistics_after_recipes.
Qed.

(** X2: [pruneAllStores()] removes from every store exactly the entries
    that are due at [now]: an entry is there afterwards if and only if it
    was there and is not due, so no entry that is due is left anywhere.
    The stores keep their names and policies; the global policy and the
    statistics are as before. *)
Theorem pruneAllStores_entries_X2 (now : Z) (st : CacheStore) :
  (∀ store key e,
     entry (pruneAllStores now st) store key = Some e ↔
       ∃ s, stores st !! store = Some s ∧ cached s !! key = Some e ∧ ¬ due now s e) ∧
  (∀ store s key e,
     stores (pruneAllStores now st) !! store = Some s →
     cached s !! key = Some e → ¬ due now s e) ∧
  (∀ name, policy <$> stores (pruneAllStores now st) !! name = policy <$> stores st !! name) ∧
  globalPolicy (pruneAllStores now st) = globalPolicy st ∧
  _debugStatistics (pruneAllStores now st) = _debugStatistics st.
Proof.
  rewrite pruneAllStores_as_pruned_store.
  rewrite globalPolicy_after_recipes, statistics_after_recipes.
  unfold entry. rewrite !stores_after_recipes. simpl.
  split; [|split; [|split; [|done]]].
  - intros store key e. rewrite lookup_fmap.
    destruct (stores st !! store) as [s|]; simpl.
    + split.
      * intros H. apply (cached_pruned_store now s key e) in H. eauto.
      * intros (s' & [= <-] & H). by apply (cached_pruned_store now s key e).
    + split; [done|]. by intros (s' & [=] & _).
  - intros store s key e. rewrite lookup_fmap.
    destruct (stores st !! store) as [s0|]; simpl; [|done].
    intros [= <-] H. apply (cached_pruned_store now s0 key e) in H as [_ Hn].
    exact Hn.
  - intros name. rewrite lookup_fmap. by destruct (stores st !! name).
Qed.

(** A recipe runs in [pruneAllStores] at [t2] after the one at [t1]
    exactly when one runs in the one at [t2] alone. *)
Lemma some_store_due_later (t1 t2 : Z) (st : CacheStore) :
  t1 ≤ t2 →
  existsb (store_due t2 (pruneAllStores t1 st)) (keys (stores (pruneAllStores t1 st)))
  || existsb (store_due t1 st) (keys (stores st))
  = existsb (store_due t2 st) (keys (stores st)).
Proof.
  intros Ht. apply eq_true_iff_eq. rewrite orb_true_iff, !some_store_due. split.
  - intros [(name & s & key & e & Hs & He & Hd)|(name & s & key & e & Hs & He & Hd)].
    + rewrite pruneAllStores_as_pruned_store, stores_after_recipes in Hs. simpl in Hs.
      rewrite lookup_fmap in Hs.
      destruct (stores st !! name) as [s0|] eqn:Hs0; simpl in Hs; [|done].
      injection Hs as <-. apply cached_pruned_store in He as [He _].
      exists name, s0, key, e. done.
    + exists name, s, key, e. split; [done|]. split; [done|].
      by apply (dueb_later t1 t2).
  - intros (name & s & key & e & Hs & He & Hd).
    destruct (dueb t1 (policy s) e) eqn:Hd1.
    + right. exists name, s, key, e. done.
    + left. exists name, (pruned_store t1 s), key, e. split; [|split].
      * rewrite pruneAllStores_as_pruned_store, stores_after_recipes. simpl.
        by rewrite lookup_fmap, Hs.
      * apply cached_pruned_store. split; [done|]. by apply dueb_false.
      * done.
Qed.

(** X3: pruning composes along time: [pruneAllStores()] at a time [t1]
    followed by [pruneAllStores()] at a later or equal time [t2] leaves
    the state that [pruneAllStores()] at [t2] alone leaves; at the same
    time, the second run changes nothing. *)
Theorem pruneAllStores_later_X3 (t1 t2 : Z) (st : CacheStore) :
  t1 ≤ t2 →
  pruneAllStores t2 (pruneAllStores t1 st) = pruneAllStores t2 st.
Proof.
  intros Ht. assert (Hran := some_store_due_later t1 t2 st Ht).
  rewrite (pruneAllStores_as_pruned_store t2 (pruneAllStores t1 st)).
  rewrite (pruneAllStores_as_pruned_store t2 st).
  apply CacheStore_eq;
    rewrite ?stores_after_recipes, ?globalPolicy_after_recipes,
      ?statistics_after_recipes, ?frozen_after_recipes; simpl.
  - rewrite pruneAllStores_as_pruned_store, stores_after_recipes. simpl.
    rewrite <- map_fmap_compose. apply map_fmap_ext.
    intros name s _. simpl. by apply pruned_store_twice.
  - by rewrite pruneAllStores_as_pruned_store, globalPolicy_after_recipes.
  - by rewrite pruneAllStores_as_pruned_store, statistics_after_recipes.
  - rewrite <- Hran.
    rewrite (pruneAllStores_as_pruned_store t1 st) at 3.
    rewrite frozen_after_recipes. simpl. by rewrite orb_assoc.
Qed.

Lemma pruneAllStores_later_X3_witness :
  500 ≤ 1500 ∧
  pruneAllStores 1500 (pruneAllStores 500 always_scenario)
  = pruneAllStores 1500 always_scenario.
Proof.
  assert (Ht : 500 ≤ 1500) by lia.
  exact (conj Ht (pruneAllStores_later_X3 500 1500 always_scenario Ht)).
Defined.

(** What the loops do on the two-store scenario at time 1500: the entry
    of the [on-expiry] store goes, the one of the [always] store stays. *)
Example pruneAllStores_two_stores :
  entry (pruneAllStores 1500 always_scenario) "s" "k" = None ∧
  entry (pruneAllStores 1500 always_scenario) "a" "k"
    = Some {| value := VNumber 7; assignedAt := 0 |} ∧
  entry (pruneAll 1500 "s" always_scenario) "s" "k" = None ∧
  entry (pruneAllStores 500 always_scenario) "s" "k" = Some expiring_entry.
Proof. vm_compute. repeat split. Qed.

(** X4: the listener run after hydration.  When the global policy has
    [pruneOnSessionStart] set, it is [pruneAllStores()]: afterwards no
    store holds an entry that is due, and the stores, their policies, the
    global policy and the statistics are kept.  When the flag is [false]
    or missing, the state is left as it is. *)
Theorem onFinishHydration_X4 (now : Z) (st : CacheStore) :
  (pruneOnSessionStart (globalPolicy st) = Some true →
     onFinishHydration now st = pruneAllStores now st ∧
     (∀ store s key e,
        stores (onFinishHydration now st) !! store = Some s →
        cached s !! key = Some e → ¬ due now s e) ∧
     (∀ store key e,
        entry st store key = Some e →
        (∀ s, stores st !! store = Some s → ¬ due now s e) →
        entry (onFinishHydration now st) store key = Some e)) ∧
  (pruneOnSessionStart (globalPolicy st) ≠ Some true →
     onFinishHydration now st = st).
Proof.
  unfold onFinishHydration. split.
  - intros ->. split; [done|].
    unfold entry. rewrite pruneAllStores_as_pruned_store, !stores_after_recipes. simpl.
    split.
    + intros store s key e. rewrite lookup_fmap.
      destruct (stores st !! store) as [s0|]; simpl; [|done].
      intros [= <-] H. apply (cached_pruned_store now s0 key e) in H as [_ Hn].
      exact Hn.
    + intros store key e. rewrite lookup_fmap.
      destruct (stores st !! store) as [s|]; simpl; [|done].
      intros He Hn. apply (cached_pruned_store now s key e).
      split; [done|]. by apply Hn.
  - intros Hn. destruct (pruneOnSessionStart (globalPolicy st)) as [[|]|]; done.
Qed.

(** ** Single operations *)

(** X5: [invalidateIfExpired(store, key)] of the first listing removes
    with a [delete] on the store's own dictionary.  It answers [true]
    exactly when the store exists, its policy is not [never], the key has
    an entry, the entry is older than [expiry] and the objects are not
    frozen; then exactly that entry is removed.  With all of that but on
    frozen objects, and under a store name that is inherited from
    [Object.prototype], it throws a [TypeError].  Whenever it does not
    answer [true] the state is left as it is.  The policy need not be
    [on-expiry]: under [always] it removes an old entry that [prune]
    leaves. *)
Theorem invalidateIfExpired_X5 (now : Z) (store key : string) (st : CacheStore) :
  ((Earlier.invalidateIfExpired now store key st).1 = true ↔
     frozen st = false ∧
     ∃ s e, stores st !! store = Some s ∧ cached s !! key = Some e ∧
            invalidationPolicy (policy s) ≠ Some never ∧
            older_than_expiry now e (policy s)) ∧
  ((Earlier.invalidateIfExpired now store key st).1 = Abrupt TypeError ↔
     (stores st !! store = None ∧ inherited store = true) ∨
     (frozen st = true ∧
      ∃ s e, stores st !! store = Some s ∧ cached s !! key = Some e ∧
             invalidationPolicy (policy s) ≠ Some never ∧
             older_than_expiry now e (policy s))) ∧
  ((Earlier.invalidateIfExpired now store key st).1 = true →
     ∀ store' key',
       entry (Earlier.invalidateIfExpired now store key st).2 store' key' =
         if decide (store' = store ∧ key' = key) then None else entry st store' key') ∧
  ((Earlier.invalidateIfExpired now store key st).1 ≠ true →
     (Earlier.invalidateIfExpired now store key st).2 = st) ∧
  (∀ s e, stores st !! store = Some s → cached s !! key = Some e →
          invalidationPolicy (policy s) = Some always →
          older_than_expiry now e (policy s) →
          frozen st = false →
          (Earlier.invalidateIfExpired now store key st).1 = true ∧
          prune now store key st = st).
Proof.
  assert (Hcases :
    (∃ s e, stores st !! store = Some s ∧ cached s !! key = Some e ∧
            invalidationPolicy (policy s) ≠ Some never ∧
            older_than_expiry now e (policy s) ∧
            Earlier.invalidateIfExpired now store key st
            = if frozen st then (Abrupt TypeError, st)
              else (Normal true, delete_in_place store key st)) ∨
    (¬ (∃ s e, stores st !! store = Some s ∧ cached s !! key = Some e ∧
               invalidationPolicy (policy s) ≠ Some never ∧
               older_than_expiry now e (policy s)) ∧
     ((stores st !! store = None ∧ inherited store = true ∧
       Earlier.invalidateIfExpired now store key st = (Abrupt TypeError, st)) ∨
      (¬ (stores st !! store = None ∧ inherited store = true) ∧
       Earlier.invalidateIfExpired now store key st = (Normal false, st))))).
  { unfold Earlier.invalidateIfExpired, read_property.
    destruct (stores st !! store) as [s|] eqn:Hs.
    - destruct (is_never (policy s)) eqn:Hp.
      + right. split.
        * intros (s' & e & [= <-] & _ & Hn & _). apply is_never_true in Hp. done.
        * right. split; [by intros [? _]|done].
      + apply is_never_false in Hp.
        destruct (cached s !! key) as [e|] eqn:He.
        * destruct (expired now e (policy s)) eqn:Hx.
          -- left. exists s, e. apply expired_true in Hx. done.
          -- right. split.
             ++ intros (s' & e' & [= <-] & He' & _ & Hold).
                rewrite He in He'. injection He' as <-.
                apply expired_true in Hold. congruence.
             ++ right. split; [by intros [? _]|done].
        * right. split.
          -- intros (s' & e' & [= <-] & He' & _). congruence.
          -- right. split; [by intros [? _]|done].
    - destruct (inherited store) eqn:Hi.
      + right. split; [by intros (s' & e & ? & _)|]. left. done.
      + right. split; [by intros (s' & e & ? & _)|]. right.
        split; [|done]. intros [_ ?]. done. }
  split; [|split; [|split; [|split]]].
  - destruct Hcases as [(s & e & Hs & He & Hp & Hold & ->)|[Hn [(_ & _ & ->)|(_ & ->)]]].
    + destruct (frozen st); cbn [fst]; split; try done.
      * by intros [? _].
      * intros _. split; [done|]. eauto 10.
    + split; [done|]. by intros [_ ?].
    + split; [done|]. by intros [_ ?].
  - destruct Hcases as [(s & e & Hs & He & Hp & Hold & ->)|[Hn [(Hs & Hi & ->)|(Hni & ->)]]].
    + destruct (frozen st); cbn [fst]; split; try done.
      * intros _. right. split; [done|]. eauto 10.
      * intros [[? _]|[? _]]; congruence.
    + split; [intros _; by left|done].
    + cbn [fst]. split; [done|]. intros [?|[_ ?]]; done.
  - destruct Hcases as [(s & e & Hs & He & Hp & Hold & ->)|[Hn [(_ & _ & ->)|(_ & ->)]]];
      [|done..].
    destruct (frozen st); cbn [fst snd]; [done|].
    intros _ store' key'. unfold entry. rewrite stores_delete_in_place.
    rewrite <- (stores_delete_cached store key store' st). apply entry_delete_cached.
  - destruct Hcases as [(s & e & Hs & He & Hp & Hold & ->)|[Hn [(_ & _ & ->)|(_ & ->)]]];
      [|done..].
    by destruct (frozen st).
  - intros s e Hs He Hp Hold Hf.
    destruct Hcases as [(s' & e' & _ & _ & _ & _ & ->)|[Hn _]].
    + rewrite Hf. split; [done|].
      unfold prune. rewrite Hs.
      assert (Ho : is_on_expiry (policy s) = false).
      { apply is_on_expiry_false. rewrite Hp. congruence. }
      by rewrite Ho.
    + exfalso. apply Hn. exists s, e. repeat split; try done. rewrite Hp. congruence.
Qed.

(** On the two-store scenario read back from storage, and on the
    scenario as the session built it. *)
Example invalidateIfExpired_always :
  (Earlier.invalidateIfExpired 1500 "a" "k" (restart always_scenario)).1 = true ∧
  entry (Earlier.invalidateIfExpired 1500 "a" "k" (restart always_scenario)).2 "a" "k"
    = None ∧
  entry (prune 1500 "a" "k" (restart always_scenario)) "a" "k"
    = Some {| value := VNumber 7; assignedAt := 0 |} ∧
  Earlier.invalidateIfExpired 1500 "a" "k" always_scenario
    = (Abrupt TypeError, always_scenario) ∧
  (Earlier.invalidateIfExpired 500 "a" "k" always_scenario).1 = false ∧
  (Earlier.invalidateIfExpired 1500 "a" "missing" always_scenario).1 = false.
Proof. vm_compute. repeat split. Qed.

(** X6: [invalidateAll(store)] answers [true] exactly when the store
    exists with a policy other than [never] and its object is not
    frozen; then the store has no entry left and keeps its policy, and
    the other stores are untouched.  On such a store whose object is
    frozen, and under a store name inherited from [Object.prototype], it
    throws a [TypeError].  Whenever it does not answer [true] the state
    is left as it is.  It answers [true] exactly when
    [invalidateAllOrThrow(store)] returns normally, it throws the
    [TypeError] exactly when that one does, and the two leave the same
    state. *)
Theorem invalidateAll_X6 (store : string) (st : CacheStore) :
  ((invalidateAll store st).1 = true ↔
     frozen st = false ∧
     ∃ s, stores st !! store = Some s ∧ invalidationPolicy (policy s) ≠ Some never) ∧
  ((invalidateAll store st).1 = Abrupt TypeError ↔
     (stores st !! store = None ∧ inherited store = true) ∨
     (frozen st = true ∧
      ∃ s, stores st !! store = Some s ∧ invalidationPolicy (policy s) ≠ Some never)) ∧
  ((invalidateAll store st).1 = true →
     ∀ store' key',
       entry (invalidateAll store st).2 store' key' =
         if decide (store' = store) then None else entry st store' key') ∧
  (∀ name, policy <$> stores (invalidateAll store st).2 !! name
           = policy <$> stores st !! name) ∧
  ((invalidateAll store st).1 ≠ true → (invalidateAll store st).2 = st) ∧
  ((invalidateAll store st).1 = true ↔ (invalidateAllOrThrow store st).1 = Returns) ∧
  ((invalidateAll store st).1 = Abrupt TypeError ↔
     (invalidateAllOrThrow store st).1 = Throws TypeError) ∧
  (invalidateAll store st).2 = (invalidateAllOrThrow store st).2.
Proof.
  unfold invalidateAll, invalidateAllOrThrow, read_property.
  destruct (stores st !! store) as [s|] eqn:Hs.
  - destruct (is_never (policy s)) eqn:Hp; cbn [fst snd].
    + apply is_never_true in Hp.
      split; [|split; [|split; [done|split; [done|split; [done|split; [done|split; done]]]]]].
      * split; [done|]. by intros [_ (s' & [= <-] & Hn)].
      * split; [done|]. intros [[? _]|[_ (s' & [= <-] & Hn)]]; done.
    + apply is_never_false in Hp. destruct (frozen st) eqn:Hf; cbn [fst snd].
      * split; [|split; [|split; [done|split; [done|split; [done|split; [done|split; done]]]]]].
        -- split; [done|]. by intros [? _].
        -- split; [|done]. intros _. right. eauto.
      * split; [|split; [|split; [|split; [|split; [done|split; [done|split; done]]]]]].
        -- split; eauto.
        -- split; [done|]. intros [[? _]|[? _]]; done.
        -- intros _ store' key'. apply entry_clear_cached_all.
        -- intros name. rewrite stores_clear_cached. case_decide; [subst|done].
           by rewrite Hs.
  - destruct (inherited store) eqn:Hi; cbn [fst snd].
    + split; [|split; [|split; [done|split; [done|split; [done|split; [done|split; done]]]]]].
      * split; [done|]. by intros [_ (s' & [=] & _)].
      * split; [|done]. intros _. by left.
    + split; [|split; [|split; [done|split; [done|split; [done|split; [done|split; done]]]]]].
      * split; [done|]. by intros [_ (s' & [=] & _)].
      * split; [done|]. intros [[_ ?]|[_ (s' & [=] & _)]]. done.
Qed.

(** On the scenario as the session built it, and read back from
    storage. *)
Example invalidateAll_scenarios :
  invalidateAll "s" expiring_scenario = (Abrupt TypeError, expiring_scenario) ∧
  (invalidateAll "s" hydrated_scenario).1 = true ∧
  entry (invalidateAll "s" hydrated_scenario).2 "s" "k" = None ∧
  invalidateAll "s" never_scenario = (Normal false, never_scenario) ∧
  invalidateAll "missing" expiring_scenario = (Normal false, expiring_scenario) ∧
  invalidateAll "constructor" expiring_scenario = (Abrupt TypeError, expiring_scenario).
Proof. vm_compute. repeat split. Qed.

Lemma spread_noOverride (p : Policy) : spread p noOverride = p.
Proof. by destruct p. Qed.

Lemma entry_write_value (now : Z) (store key store' key' : string) (v : Value)
    (st : CacheStore) :
  is_Some (stores st !! store) →
  key ≠ "__proto__" →
  entry (write_value now store key v st) store' key' =
    if decide (store' = store ∧ key' = key)
    then Some {| value := v; assignedAt := now |}
    else entry st store' key'.
Proof.
  intros Hs Hk. unfold write_value. rewrite bool_decide_eq_false_2 by done.
  by apply entry_assign_cached.
Qed.

Lemma stores_write_value (now : Z) (store key name : string) (v : Value) (st : CacheStore) :
  name ≠ store →
  stores (write_value now store key v st) !! name = stores st !! name.
Proof.
  intros Hne. unfold write_value. case_bool_decide; [done|].
  by rewrite stores_assign_cached, decide_False.
Qed.

Lemma policy_write_value (now : Z) (store key name : string) (v : Value) (st : CacheStore) :
  policy <$> stores (write_value now store key v st) !! name = policy <$> stores st !! name.
Proof.
  unfold write_value. case_bool_decide; [done|].
  rewrite stores_assign_cached. case_decide; [subst|done].
  by destruct (stores st !! name).
Qed.

Lemma globalPolicy_write_value (now : Z) (store key : string) (v : Value) (st : CacheStore) :
  globalPolicy (write_value now store key v st) = globalPolicy st.
Proof. unfold write_value. by case_bool_decide. Qed.

Lemma globalPolicy_createStore (store : string) (partial : Partial.Policy) (st : CacheStore) :
  globalPolicy (createStore store partial st) = globalPolicy st.
Proof. unfold createStore. by destruct (read_property (stores st) store). Qed.

Lemma stores_createStore_ne (store name : string) (partial : Partial.Policy)
    (st : CacheStore) :
  name ≠ store →
  stores (createStore store partial st) !! name = stores st !! name.
Proof.
  intros Hne. unfold createStore.
  destruct (read_property (stores st) store); [done..|]. simpl.
  by rewrite lookup_insert_ne.
Qed.

(** X7: [setValue(store, key, v)] at [now], for a key other than
    [__proto__] and a store name that is a store's or is not inherited
    from [Object.prototype], returns, and afterwards the entry of [key]
    in [store] is [v] stamped with [now], whatever was there before and
    whatever the store's policy; every other entry of every store is as
    before; a store that existed keeps its policy and a store that did
    not exist is created with the global policy as it is now.  Under an
    inherited store name the call throws a [TypeError] and leaves the
    state as it is; under the key [__proto__] the recipe throws, and no
    entry changes.  In every case the stores under other names, the
    global policy and the statistics are as before. *)
Theorem setValue_X7 (now : Z) (store key : string) (v : Value) (st : CacheStore) :
  (plain_name st store → key ≠ "__proto__" →
     setValue_ends store key st = Returns ∧
     (∀ store' key',
        entry (setValue now store key v st) store' key' =
          if decide (store' = store ∧ key' = key)
          then Some {| value := v; assignedAt := now |}
          else entry st store' key') ∧
     policy <$> stores (setValue now store key v st) !! store
       = Some (from_option policy (globalPolicy st) (stores st !! store))) ∧
  (stores st !! store = None → inherited store = true →
     setValue_ends store key st = Throws TypeError ∧
     setValue now store key v st = st) ∧
  (plain_name st store → key = "__proto__" →
     setValue_ends store key st = Throws ImmerError ∧
     (∀ store' key',
        entry (setValue now store key v st) store' key' = entry st store' key')) ∧
  (∀ name, name ≠ store →
     stores (setValue now store key v st) !! name = stores st !! name) ∧
  globalPolicy (setValue now store key v st) = globalPolicy st ∧
  _debugStatistics (setValue now store key v st) = _debugStatistics st.
Proof.
  assert (Hfresh : stores st !! store = None → inherited store = false →
            ∀ store' key', entry (createStore store noOverride st) store' key'
                           = entry st store' key').
  { intros Hs Hi store' key'. rewrite createStore_missing by done.
    unfold entry. simpl. rewrite lookup_insert. case_decide; [subst|done].
    by rewrite Hs. }
  split; [|split; [|split; [|split; [|split]]]].
  - intros Hplain Hk. unfold setValue_ends, setValue.
    rewrite (bool_decide_eq_false_2 _ Hk).
    destruct (stores st !! store) as [s|] eqn:Hs.
    + rewrite (read_property_lookup _ _ _ Hs). split; [done|]. split.
      * intros store' key'. apply entry_write_value; eauto.
      * rewrite policy_write_value. by rewrite Hs.
    + destruct Hplain as [[s Hs']|Hi]; [congruence|].
      rewrite (proj2 (read_property_NotFound _ _) (conj Hs Hi)). split; [done|]. split.
      * intros store' key'. rewrite entry_write_value; [|..|done].
        -- case_decide; [done|]. by apply Hfresh.
        -- rewrite createStore_missing by done. simpl. rewrite lookup_insert_eq. eauto.
      * rewrite policy_write_value, createStore_missing by done. simpl.
        rewrite lookup_insert_eq. simpl. by rewrite spread_noOverride.
  - intros Hs Hi. unfold setValue_ends, setValue.
    by rewrite (proj2 (read_property_FromPrototype _ _) (conj Hs Hi)).
  - intros Hplain ->. unfold setValue_ends, setValue, write_value.
    rewrite bool_decide_eq_true_2 by done.
    destruct (stores st !! store) as [s|] eqn:Hs.
    + by rewrite (read_property_lookup _ _ _ Hs).
    + destruct Hplain as [[s Hs']|Hi]; [congruence|].
      rewrite (proj2 (read_property_NotFound _ _) (conj Hs Hi)). split; [done|].
      by apply Hfresh.
  - intros name Hne. unfold setValue.
    destruct (read_property (stores st) store); [|done|].
    + by apply stores_write_value.
    + rewrite stores_write_value by done. by apply stores_createStore_ne.
  - unfold setValue. destruct (read_property (stores st) store);
      rewrite ?globalPolicy_write_value; [done..|]. apply globalPolicy_createStore.
  - apply statistics_setValue.
Qed.

Example setValue_scenarios :
  entry (setValue 7 "fresh" "toString" VNull expiring_scenario) "fresh" "toString"
    = Some {| value := VNull; assignedAt := 7 |} ∧
  setValue 7 "valueOf" "k" VNull expiring_scenario = expiring_scenario ∧
  stores (setValue 7 "fresh" "__proto__" VNull initialState) !! "fresh"
    = Some {| cached := ∅; policy := globalPolicy initialState |}.
Proof. vm_compute. repeat split. Qed.

(** X8: [createStore(store, partial)] leaves the state as it is on a
    name in use (the store keeps its entries and its policy) and on a
    name inherited from [Object.prototype] (no store is created).  On
    any other name it adds a store without entries whose policy is the
    global policy with the properties of [partial] laid over it, one
    that holds [undefined] included, and touches nothing else.  A second
    [createStore] on the same name, with whatever policy, changes
    nothing: the first creation stands. *)
Theorem createStore_X8 (store : string) (partial : Partial.Policy) (st : CacheStore) :
  (is_Some (stores st !! store) ∨ inherited store = true →
     createStore store partial st = st) ∧
  (stores st !! store = None → inherited store = false →
     stores (createStore store partial st) !! store
       = Some {| cached := ∅;
                 policy :=
                   {| invalidationPolicy :=
                        match Partial.invalidationPolicy partial with
                        | Given x => x
                        | Omitted => invalidationPolicy (globalPolicy st)
                        end;
                      expiry :=
                        match Partial.expiry partial with
                        | Given x => x
                        | Omitted => expiry (globalPolicy st)
                        end;
                      pruneOnSessionStart :=
                        match Partial.pruneOnSessionStart partial with
                        | Given x => x
                        | Omitted => pruneOnSessionStart (globalPolicy st)
                        end |} |} ∧
     (∀ name, name ≠ store →
        stores (createStore store partial st) !! name = stores st !! name)) ∧
  (∀ partial', createStore store partial' (createStore store partial st)
               = createStore store partial st) ∧
  (∀ store' key',
     entry (createStore store partial st) store' key' = entry st store' key') ∧
  globalPolicy (createStore store partial st) = globalPolicy st ∧
  _debugStatistics (createStore store partial st) = _debugStatistics st.
Proof.
  split; [|split; [|split; [|split; [|split]]]].
  - unfold createStore, read_property. intros [[s Hs]|Hi].
    + by rewrite Hs.
    + rewrite Hi. by destruct (stores st !! store).
  - intros Hs Hi. rewrite createStore_missing by done. simpl. split.
    + apply lookup_insert_eq.
    + intros name Hne. by rewrite lookup_insert_ne.
  - intros partial'. unfold createStore at 1.
    destruct (read_property (stores (createStore store partial st)) store) eqn:H1;
      [done..|].
    exfalso. apply read_property_NotFound in H1 as [H1 Hi].
    unfold createStore, read_property in H1.
    destruct (stores st !! store) eqn:Hs; [congruence|].
    rewrite Hi in H1. simpl in H1. by rewrite lookup_insert_eq in H1.
  - intros store' key'. unfold createStore, entry, read_property.
    destruct (stores st !! store) eqn:Hs; [done|].
    destruct (inherited store); [done|]. simpl.
    rewrite lookup_insert. case_decide; [subst|done]. by rewrite Hs.
  - apply globalPolicy_createStore.
  - apply statistics_createStore.
Qed.

Example createStore_scenarios :
  createStore "constructor" noOverride initialState = initialState ∧
  (policy <$> stores (createStore "s" {| Partial.invalidationPolicy := Omitted;
                                         Partial.expiry := Given None;
                                         Partial.pruneOnSessionStart := Given (Some false) |}
                        initialState) !! "s")
  = Some {| invalidationPolicy := Some on_expiry; expiry := None;
            pruneOnSessionStart := Some false |}.
Proof. vm_compute. by split. Qed.

(** X9: [getValue] on a name under which [stores] has nothing, no store
    and nothing inherited, returns [null] and creates the store, without
    entries and with the global policy.  From then on the store is
    there: a [getValue] that follows returns [undefined], creates
    nothing (the stores are as the first call left them) and counts one
    miss. *)
Theorem getValue_fresh_store_X9 (now now' : Z) (store key key' : string) (st : CacheStore) :
  stores st !! store = None →
  inherited store = false →
  let r1 := getValue now store key st in
  let r2 := getValue now' store key' r1.2 in
  r1.1 = VNull ∧
  stores r1.2 = <[store := {| cached := ∅; policy := globalPolicy st |}]> (stores st) ∧
  r2.1 = VUndefined ∧
  stores r2.2 = stores r1.2 ∧
  hits (_debugStatistics r2.2) = hits (_debugStatistics st) ∧
  misses (_debugStatistics r2.2) = misses (_debugStatistics st) + 1.
Proof.
  intros Hs Hi. cbv zeta. rewrite (getValue_missing now store key st Hs Hi). cbn [fst snd].
  rewrite createStore_missing, spread_noOverride by done.
  split; [done|]. split; [done|].
  set (st1 := produced _).
  assert (Hs1 : stores st1 !! store = Some {| cached := ∅; policy := globalPolicy st |}).
  { unfold st1. simpl. apply lookup_insert_eq. }
  rewrite (getValue_existing now' store key' st1 _ Hs1).
  unfold read_value. simpl. rewrite lookup_empty. simpl.
  assert (Hp : prune now' store key' st1 = st1).
  { unfold prune. rewrite Hs1. simpl. rewrite lookup_empty.
    by destruct (negb (is_on_expiry (globalPolicy st))). }
  rewrite Hp. done.
Qed.

Lemma getValue_fresh_store_X9_witness :
  stores initialState !! "s" = None ∧
  inherited "s" = false ∧
  (getValue 5 "s" "other" (getValue 0 "s" "k" initialState).2).1 = VUndefined.
Proof.
  assert (Hs : stores initialState !! "s" = None) by reflexivity.
  assert (Hi : inherited "s" = false) by reflexivity.
  exact (conj Hs (conj Hi (proj1 (proj2 (proj2
    (getValue_fresh_store_X9 0 5 "s" "k" "other" initialState Hs Hi)))))).
Defined.

(** X10: [setStorePolicy(store, partial)] on a store that exists lays the
    properties of [partial] over the store's policy (a property [partial]
    leaves out keeps its value, one it gives is taken, [undefined]
    included) and keeps the store's entries.  On a name under which
    [stores] has nothing it throws a [TypeError] and the state is left as
    it is; the store is not created.  On a name inherited from
    [Object.prototype] it returns.  In every case the other stores,
    every entry, the global policy and the statistics are as before. *)
Theorem setStorePolicy_X10 (store : string) (partial : Partial.Policy) (st : CacheStore) :
  (∀ s, stores st !! store = Some s →
     (setStorePolicy store partial st).1 = Returns ∧
     stores (setStorePolicy store partial st).2 !! store
       = Some {| cached := cached s;
                 policy :=
                   {| invalidationPolicy :=
                        match Partial.invalidationPolicy partial with
                        | Given x => x
                        | Omitted => invalidationPolicy (policy s)
                        end;
                      expiry :=
                        match Partial.expiry partial with
                        | Given x => x
                        | Omitted => expiry (policy s)
                        end;
                      pruneOnSessionStart :=
                        match Partial.pruneOnSessionStart partial with
                        | Given x => x
                        | Omitted => pruneOnSessionStart (policy s)
                        end |} |}) ∧
  (stores st !! store = None → inherited store = false →
     setStorePolicy store partial st = (Throws TypeError, st)) ∧
  (stores st !! store = None → inherited store = true →
     (setStorePolicy store partial st).1 = Returns ∧
     stores (setStorePolicy store partial st).2 = stores st) ∧
  (∀ name, name ≠ store →
     stores (setStorePolicy store partial st).2 !! name = stores st !! name) ∧
  (∀ store' key',
     entry (setStorePolicy store partial st).2 store' key' = entry st store' key') ∧
  globalPolicy (setStorePolicy store partial st).2 = globalPolicy st ∧
  _debugStatistics (setStorePolicy store partial st).2 = _debugStatistics st.
Proof.
  unfold setStorePolicy, read_property.
  destruct (stores st !! store) as [s|] eqn:Hs; [|destruct (inherited store)];
    cbn [fst snd].
  - split; [|split; [done|split; [done|split; [|split; [|done]]]]].
    + intros s' [= <-]. split; [done|]. simpl. by rewrite lookup_insert_eq.
    + intros name Hne. simpl. by rewrite lookup_insert_ne.
    + intros store' key'. unfold entry. simpl. rewrite lookup_insert.
      case_decide; [subst|done]. by rewrite Hs.
  - split; [done|]. split; [done|]. split; [done|]. split; [done|]. split; done.
  - split; [done|]. split; [done|]. split; [done|]. split; [done|]. split; done.
Qed.

Example setStorePolicy_then_guard :
  let st1 := (setStorePolicy "s" {| Partial.invalidationPolicy := Given (Some never);
                                    Partial.expiry := Omitted;
                                    Partial.pruneOnSessionStart := Omitted |}
                expiring_scenario).2 in
  (invalidate "s" "k" st1).1 = false ∧
  entry (pruneAllStores 1500 st1) "s" "k" = Some expiring_entry ∧
  setStorePolicy "missing" noOverride expiring_scenario
    = (Throws TypeError, expiring_scenario) ∧
  (setStorePolicy "constructor" noOverride expiring_scenario).1 = Returns.
Proof. vm_compute. repeat split. Qed.

Lemma spread_overlay (a : Policy) (b c : Partial.Policy) :
  spread (spread a b) c = spread a (overlay b c).
Proof.
  unfold spread, overlay, override. simpl.
  by destruct (Partial.invalidationPolicy c), (Partial.expiry c),
              (Partial.pruneOnSessionStart c).
Qed.

(** X11: [setGlobalPolicy(partial)] lays the properties of [partial] over
    the global policy, one that holds [undefined] included, and touches
    no store: the stores that exist keep their policies and entries, and
    a store created afterwards, under a name that [stores] has nothing
    for, starts from the new global policy.  Two updates in a row amount
    to one update with the second partial policy laid over the first, and
    an update with [{}] changes no policy. *)
Theorem setGlobalPolicy_X11 (partial : Partial.Policy) (st : CacheStore) :
  (∀ x, Partial.expiry partial = Given x →
        expiry (globalPolicy (setGlobalPolicy partial st)) = x) ∧
  (Partial.expiry partial = Omitted →
     expiry (globalPolicy (setGlobalPolicy partial st)) = expiry (globalPolicy st)) ∧
  stores (setGlobalPolicy partial st) = stores st ∧
  _debugStatistics (setGlobalPolicy partial st) = _debugStatistics st ∧
  (∀ name partial',
     stores st !! name = None → inherited name = false →
     stores (createStore name partial' (setGlobalPolicy partial st)) !! name
       = Some {| cached := ∅;
                 policy := spread (spread (globalPolicy st) partial) partial' |}) ∧
  (∀ name s partial',
     stores st !! name = Some s →
     stores (createStore name partial' (setGlobalPolicy partial st)) !! name = Some s) ∧
  (∀ partial',
     setGlobalPolicy partial' (setGlobalPolicy partial st)
     = setGlobalPolicy (overlay partial partial') st) ∧
  globalPolicy (setGlobalPolicy noOverride st) = globalPolicy st.
Proof.
  split; [|split; [|split; [done|split; [done|split; [|split; [|split]]]]]].
  - intros x Hx. simpl. by rewrite Hx.
  - intros Hx. simpl. by rewrite Hx.
  - intros name partial' Hs Hi. rewrite createStore_missing by done. simpl.
    apply lookup_insert_eq.
  - intros name s partial' Hs. unfold createStore.
    by rewrite (read_property_lookup (stores (setGlobalPolicy partial st)) name s Hs).
  - intros partial'. unfold setGlobalPolicy, with_globalPolicy, produced. simpl.
    by rewrite spread_overlay.
  - simpl. apply spread_noOverride.
Qed.

Example setGlobalPolicy_undefined :
  expiry (globalPolicy (setGlobalPolicy {| Partial.invalidationPolicy := Omitted;
                                           Partial.expiry := Given None;
                                           Partial.pruneOnSessionStart := Omitted |}
                          initialState)) = None.
Proof. reflexivity. Qed.

(** X12: a [getValue] that finds an entry which is not due returns the
    entry's value and leaves the stores and the global policy as they
    are; the read changes nothing but one counter. *)
Theorem getValue_live_X12
    (now : Z) (store key : string) (st : CacheStore) (s : Store) (e : Entry) :
  stores st !! store = Some s →
  cached s !! key = Some e →
  ¬ due now s e →
  (getValue now store key st).1 = value e ∧
  stores (getValue now store key st).2 = stores st ∧
  globalPolicy (getValue now store key st).2 = globalPolicy st ∧
  (Earlier.getValue now store key st) = (Normal (value e), st).
Proof.
  intros Hs He Hn.
  assert (Hx : is_on_expiry (policy s) && expired now e (policy s) = false).
  { apply (dueb_false now s e). exact Hn. }
  assert (Hp : prune now store key st = st).
  { apply (prune_keeps now store key st s e Hs He). unfold due in Hn. tauto. }
  rewrite (getValue_existing now store key st s Hs). rewrite Hp.
  unfold read_value. rewrite He. cbn [fst snd].
  split; [done|]. split; [by destruct (truthy (value e))|].
  split; [by destruct (truthy (value e))|].
  unfold Earlier.getValue, Earlier.prune_ends, Earlier.prune.
  rewrite (read_property_lookup _ _ _ Hs), Hs, He.
  destruct (is_on_expiry (policy s)); simpl in *.
  - rewrite Hx. simpl. rewrite Hs. simpl. unfold read_value. by rewrite He.
  - rewrite Hs. simpl. unfold read_value. by rewrite He.
Qed.

Lemma getValue_live_X12_witness :
  stores expiring_scenario !! "s" = Some expiring_store ∧
  cached expiring_store !! "k" = Some expiring_entry ∧
  ¬ due 1000 expiring_store expiring_entry ∧
  (getValue 1000 "s" "k" expiring_scenario).1 = VNumber 42.
Proof.
  assert (Hs : stores expiring_scenario !! "s" = Some expiring_store) by reflexivity.
  assert (He : cached expiring_store !! "k" = Some expiring_entry) by reflexivity.
  assert (Hn : ¬ due 1000 expiring_store expiring_entry).
  { intros [_ (d & Hd & Hlt)]. injection Hd as <-. simpl in Hlt. lia. }
  exact (conj Hs (conj He (conj Hn (proj1
    (getValue_live_X12 1000 "s" "k" expiring_scenario expiring_store expiring_entry
       Hs He Hn))))).
Defined.

(** X13: [getValue] of the first listing on a store that exists.  Where
    its [prune] returns, the call answers from the table as it leaves
    it: what it returns is the value of the entry under [key] in the
    state after the call, and [undefined] when there is none, and the
    state after the call is the state after [prune].  An entry that is
    due is removed and not returned where the objects are not frozen;
    where they are frozen the call throws a [TypeError] and the entry
    stays. *)
Theorem earlier_getValue_X13 (now : Z) (store key : string) (st : CacheStore) (s : Store) :
  stores st !! store = Some s →
  (Earlier.prune_ends now store key st = Returns →
     (Earlier.getValue now store key st).1
       = from_option value VUndefined
           (entry (Earlier.getValue now store key st).2 store key) ∧
     (Earlier.getValue now store key st).2 = Earlier.prune now store key st) ∧
  (∀ e, cached s !! key = Some e → due now s e →
        (frozen st = false →
           (Earlier.getValue now store key st).1 = VUndefined ∧
           entry (Earlier.getValue now store key st).2 store key = None) ∧
        (frozen st = true →
           Earlier.getValue now store key st = (Abrupt TypeError, st) ∧
           entry st store key = Some e)).
Proof.
  intros Hs. split.
  - intros Hends. unfold Earlier.getValue.
    rewrite (read_property_lookup _ _ _ Hs), Hends. cbn [fst snd]. split; [|done].
    unfold entry, read_value.
    destruct (stores (Earlier.prune now store key st) !! store) as [s'|]; simpl; [|done].
    by destruct (cached s' !! key).
  - intros e He [Hp Hold].
    destruct (earlier_getValue_expired_entry now store key st s e Hs He Hp Hold)
      as [H1 H2].
    split; [done|]. intros Hf. split; [by apply H2|].
    unfold entry. rewrite Hs. done.
Qed.

Lemma earlier_getValue_X13_witness :
  stores hydrated_scenario !! "s" = Some expiring_store ∧
  cached expiring_store !! "k" = Some expiring_entry ∧
  due 1500 expiring_store expiring_entry ∧
  frozen hydrated_scenario = false ∧
  (Earlier.getValue 1500 "s" "k" hydrated_scenario).1 = VUndefined ∧
  entry (Earlier.getValue 1500 "s" "k" hydrated_scenario).2 "s" "k" = None.
Proof.
  assert (Hs : stores hydrated_scenario !! "s" = Some expiring_store) by reflexivity.
  assert (He : cached expiring_store !! "k" = Some expiring_entry) by reflexivity.
  assert (Hd : due 1500 expiring_store expiring_entry).
  { split; [reflexivity|]. exists 1000. split; [reflexivity|]. simpl. lia. }
  assert (Hf : frozen hydrated_scenario = false) by reflexivity.
  exact (conj Hs (conj He (conj Hd (conj Hf
    (proj1 (proj2 (earlier_getValue_X13 1500 "s" "k" hydrated_scenario expiring_store Hs)
              expiring_entry He Hd) Hf))))).
Defined.

(** ** What a session never does *)

(** A relation every call of a kind keeps, over a session of such calls. *)
Lemma run_keeps (R : CacheStore → CacheStore → Prop) (Q : Call → Prop) :
  (∀ st, R st st) →
  (∀ a b c, R a b → R b c → R a c) →
  (∀ now c st, Q c → R st (perform now c st)) →
  ∀ calls st, Forall (λ tc, Q tc.2) calls → R st (run calls st).
Proof.
  intros Hrefl Htrans Hstep calls. unfold run.
  induction calls as [|[now c] calls IH]; intros st Hall; cbn [foldl]; [done|].
  apply Forall_cons in Hall as [Hc Hall].
  apply (Htrans _ (perform now c st)); [by apply Hstep|by apply IH].
Qed.

Lemma loop_keeps {A : Type} (R : CacheStore → CacheStore → Prop)
    (step : CacheStore → A → CacheStore) (l : list A) (st : CacheStore) :
  (∀ st, R st st) →
  (∀ a b c, R a b → R b c → R a c) →
  (∀ acc x, R acc (step acc x)) →
  R st (foldl step st l).
Proof.
  intros Hrefl Htrans Hstep.
  apply (foldl_keeps (R st)); [|done].
  intros acc x Hacc. by apply (Htrans _ acc).
Qed.

Lemma keeps_stores_refl (st : CacheStore) : keeps_stores st st.
Proof. intros name s Hs. eauto. Qed.

Lemma keeps_stores_trans (a b c : CacheStore) :
  keeps_stores a b → keeps_stores b c → keeps_stores a c.
Proof.
  intros Hab Hbc name s Hs.
  destruct (Hab name s Hs) as (s1 & H1 & Hp1).
  destruct (Hbc name s1 H1) as (s2 & H2 & Hp2).
  exists s2. split; [done|]. congruence.
Qed.

Lemma keeps_stores_alter (f : Store → Store) (store : string) (st : CacheStore) :
  (∀ s, policy (f s) = policy s) →
  keeps_stores st (with_stores (alter f store (stores st)) st).
Proof.
  intros Hf name s Hs. simpl. rewrite lookup_alter.
  case_decide; [subst|eauto]. rewrite Hs. simpl. eauto.
Qed.

Lemma keeps_stores_same (a b : CacheStore) : stores b = stores a → keeps_stores a b.
Proof. intros Heq name s Hs. rewrite Heq. eauto. Qed.

Lemma keeps_stores_delete_cached (store key : string) (st : CacheStore) :
  keeps_stores st (delete_cached store key st).
Proof. apply (keeps_stores_alter (λ s, with_cached (delete key (cached s)) s)). done. Qed.

Lemma keeps_stores_delete_in_place (store key : string) (st : CacheStore) :
  keeps_stores st (delete_in_place store key st).
Proof. by apply keeps_stores_alter. Qed.

Lemma keeps_stores_assign_cached (store key : string) (e : Entry) (st : CacheStore) :
  keeps_stores st (assign_cached store key e st).
Proof. apply (keeps_stores_alter (λ s, with_cached (<[key := e]> (cached s)) s)). done. Qed.

Lemma keeps_stores_clear_cached (store : string) (st : CacheStore) :
  keeps_stores st (clear_cached store st).
Proof. by apply keeps_stores_alter. Qed.

Lemma keeps_stores_createStore (store : string) (partial : Partial.Policy) (st : CacheStore) :
  keeps_stores st (createStore store partial st).
Proof.
  unfold createStore.
  destruct (read_property (stores st) store) eqn:H0; [apply keeps_stores_refl..|].
  apply read_property_NotFound in H0 as [H0 _].
  intros name s Hs. simpl. rewrite lookup_insert_ne; [eauto|]. congruence.
Qed.

Lemma keeps_stores_write_value (now : Z) (store key : string) (v : Value) (st : CacheStore) :
  keeps_stores st (write_value now store key v st).
Proof.
  unfold write_value. case_bool_decide; [apply keeps_stores_refl|].
  apply keeps_stores_assign_cached.
Qed.

Lemma keeps_stores_pruneAll (now : Z) (store : string) (st : CacheStore) :
  keeps_stores st (pruneAll now store st).
Proof.
  apply (keeps_stores_trans _
           (with_stores (alter (pruned_store now) store (stores st)) st)).
  - by apply keeps_stores_alter.
  - apply keeps_stores_same. by rewrite pruneAll_as_pruned_store, stores_after_recipes.
Qed.

Lemma keeps_stores_prune (now : Z) (store key : string) (st : CacheStore) :
  keeps_stores st (prune now store key st).
Proof.
  unfold prune. destruct (stores st !! store) as [s|]; [|apply keeps_stores_refl].
  destruct (negb (is_on_expiry (policy s))); [apply keeps_stores_refl|].
  destruct (cached s !! key) as [e|]; [|apply keeps_stores_refl].
  destruct (expired now e (policy s)); [|apply keeps_stores_refl].
  apply keeps_stores_delete_cached.
Qed.

Lemma keeps_stores_perform (now : Z) (c : Call) (st : CacheStore) :
  sets_store_policy c = false → keeps_stores st (perform now c st).
Proof.
  intros Hc. destruct c; try discriminate Hc; cbn [perform].
  - unfold invalidate.
    destruct (read_property (stores st) store) as [s| |]; [|apply keeps_stores_refl..].
    destruct (negb (has_property (cached s) key)); [apply keeps_stores_refl|].
    destruct (is_never (policy s)); [apply keeps_stores_refl|].
    apply keeps_stores_delete_cached.
  - unfold Earlier.invalidateIfExpired.
    destruct (read_property (stores st) store) as [s| |]; [|apply keeps_stores_refl..].
    destruct (is_never (policy s)); [apply keeps_stores_refl|].
    destruct (cached s !! key) as [e|]; [|apply keeps_stores_refl].
    destruct (expired now e (policy s)); [|apply keeps_stores_refl].
    destruct (frozen st); [apply keeps_stores_refl|].
    apply keeps_stores_delete_in_place.
  - unfold invalidateAll.
    destruct (read_property (stores st) store) as [s| |]; [|apply keeps_stores_refl..].
    destruct (is_never (policy s)); [apply keeps_stores_refl|].
    destruct (frozen st); [apply keeps_stores_refl|].
    apply keeps_stores_clear_cached.
  - unfold invalidateAllOrThrow.
    destruct (read_property (stores st) store) as [s| |]; [|apply keeps_stores_refl..].
    destruct (is_never (policy s)); [apply keeps_stores_refl|].
    destruct (frozen st); [apply keeps_stores_refl|].
    apply keeps_stores_clear_cached.
  - unfold invalidateAllStores. destruct (frozen st); [apply keeps_stores_refl|].
    apply (loop_keeps keeps_stores);
      [apply keeps_stores_refl|apply keeps_stores_trans|].
    intros acc store. apply keeps_stores_clear_cached.
  - apply keeps_stores_prune.
  - apply keeps_stores_pruneAll.
  - unfold pruneAllStores. apply (loop_keeps keeps_stores);
      [apply keeps_stores_refl|apply keeps_stores_trans|].
    intros acc store. apply keeps_stores_pruneAll.
  - unfold getValue. destruct (read_property (stores st) store) as [s| |]; cbn [snd].
    + apply (keeps_stores_trans _ (prune now store key st));
        [apply keeps_stores_prune|].
      destruct (truthy (read_value s key)); by apply keeps_stores_same.
    + apply keeps_stores_refl.
    + apply keeps_stores_createStore.
  - apply keeps_stores_createStore.
  - unfold setValue. destruct (read_property (stores st) store).
    + apply keeps_stores_write_value.
    + apply keeps_stores_refl.
    + apply (keeps_stores_trans _ (createStore store noOverride st));
        [apply keeps_stores_createStore|apply keeps_stores_write_value].
  - by apply keeps_stores_same.
  - apply keeps_stores_refl.
  - by apply keeps_stores_same.
  - by apply keeps_stores_same.
Qed.

(** A store that is there stays there through any call. *)
Lemma present_perform (now : Z) (c : Call) (st : CacheStore) (name : string) :
  is_Some (stores st !! name) → is_Some (stores (perform now c st) !! name).
Proof.
  intros [s Hs]. destruct (sets_store_policy c) eqn:Hc.
  - destruct c; try discriminate Hc. cbn [perform]. unfold setStorePolicy.
    destruct (read_property (stores st) store) as [s0| |]; cbn [snd]; [|eauto..].
    simpl. rewrite lookup_insert. case_decide; eauto.
  - destruct (keeps_stores_perform now c st Hc name s Hs) as (s' & Hs' & _). eauto.
Qed.

(** X14: no operation removes a store: a store that exists at some point
    of a session exists after every later call, whatever the calls. *)
Theorem stores_stay_X14 (calls : list (Z * Call)) (st : CacheStore) (name : string) :
  is_Some (stores st !! name) →
  is_Some (stores (run calls st) !! name).
Proof.
  revert st. unfold run.
  induction calls as [|[now c] calls IH]; intros st Hs; cbn [foldl]; [done|].
  apply IH. by apply present_perform.
Qed.

Lemma stores_stay_X14_witness :
  is_Some (stores never_scenario !! "s") ∧
  is_Some (stores (run [(5, call_invalidateAllStores); (6, call_invalidateAll "s")]
                     never_scenario) !! "s").
Proof.
  assert (Hs : is_Some (stores never_scenario !! "s")).
  { exists never_store. reflexivity. }
  exact (conj Hs (stores_stay_X14
    [(5, call_invalidateAllStores); (6, call_invalidateAll "s")] never_scenario "s" Hs)).
Defined.

(** X15: a store's policy is fixed at creation and changed by
    [setStorePolicy] only: through any session without a
    [setStorePolicy] call, every store that existed at the start is
    still there with the policy it had, [setGlobalPolicy] calls
    included. *)
Theorem store_policy_stays_X15 (calls : list (Z * Call)) (st : CacheStore) :
  Forall (λ tc, sets_store_policy tc.2 = false) calls →
  keeps_stores st (run calls st).
Proof.
  apply (run_keeps keeps_stores (λ c, sets_store_policy c = false)).
  - apply keeps_stores_refl.
  - apply keeps_stores_trans.
  - intros now c st' Hc. by apply keeps_stores_perform.
Qed.

Lemma store_policy_stays_X15_witness :
  Forall (λ tc : Z * Call, sets_store_policy tc.2 = false)
    [(5, call_setGlobalPolicy {| Partial.invalidationPolicy := Given (Some always);
                                 Partial.expiry := Given (Some 1);
                                 Partial.pruneOnSessionStart := Given (Some false) |});
     (6, call_createStore "s" noOverride);
     (7, call_getValue "s" "k")] ∧
  keeps_stores never_scenario
    (run [(5, call_setGlobalPolicy {| Partial.invalidationPolicy := Given (Some always);
                                      Partial.expiry := Given (Some 1);
                                      Partial.pruneOnSessionStart := Given (Some false) |});
          (6, call_createStore "s" noOverride);
          (7, call_getValue "s" "k")] never_scenario).
Proof.
  assert (Hall : Forall (λ tc : Z * Call, sets_store_policy tc.2 = false)
    [(5, call_setGlobalPolicy {| Partial.invalidationPolicy := Given (Some always);
                                 Partial.expiry := Given (Some 1);
                                 Partial.pruneOnSessionStart := Given (Some false) |});
     (6, call_createStore "s" noOverride);
     (7, call_getValue "s" "k")]).
  { repeat constructor. }
  exact (conj Hall (store_policy_stays_X15 _ never_scenario Hall)).
Defined.

Lemma no_new_entries_refl (st : CacheStore) : no_new_entries st st.
Proof. by intros store key e. Qed.

Lemma no_new_entries_trans (a b c : CacheStore) :
  no_new_entries a b → no_new_entries b c → no_new_entries a c.
Proof. intros Hab Hbc store key e H. by apply Hab, Hbc. Qed.

Lemma no_new_entries_same (a b : CacheStore) :
  (∀ store key, entry b store key = entry a store key) → no_new_entries a b.
Proof. intros Heq store key e. by rewrite Heq. Qed.

Lemma no_new_entries_delete (store key : string) (st : CacheStore) :
  no_new_entries st (delete_cached store key st).
Proof. intros store' key' e. rewrite entry_delete_cached. by case_decide. Qed.

Lemma no_new_entries_delete_in_place (store key : string) (st : CacheStore) :
  no_new_entries st (delete_in_place store key st).
Proof. exact (no_new_entries_delete store key st). Qed.

Lemma no_new_entries_clear (store : string) (st : CacheStore) :
  no_new_entries st (clear_cached store st).
Proof. intros store' key' e. rewrite entry_clear_cached_all. by case_decide. Qed.

Lemma entry_createStore (store : string) (partial : Partial.Policy) (st : CacheStore)
    (store' key' : string) :
  entry (createStore store partial st) store' key' = entry st store' key'.
Proof.
  unfold createStore, entry, read_property.
  destruct (stores st !! store) eqn:Hs; [done|].
  destruct (inherited store); [done|]. simpl.
  rewrite lookup_insert. case_decide; [subst|done]. by rewrite Hs.
Qed.

Lemma no_new_entries_prune (now : Z) (store key : string) (st : CacheStore) :
  no_new_entries st (prune now store key st).
Proof.
  unfold prune. destruct (stores st !! store) as [s|]; [|apply no_new_entries_refl].
  destruct (negb (is_on_expiry (policy s))); [apply no_new_entries_refl|].
  destruct (cached s !! key) as [e|]; [|apply no_new_entries_refl].
  destruct (expired now e (policy s)); [|apply no_new_entries_refl].
  apply no_new_entries_delete.
Qed.

Lemma no_new_entries_pruneAll (now : Z) (store : string) (st : CacheStore) :
  no_new_entries st (pruneAll now store st).
Proof.
  unfold pruneAll. destruct (stores st !! store); [|apply no_new_entries_refl].
  apply (loop_keeps no_new_entries);
    [apply no_new_entries_refl|apply no_new_entries_trans|].
  intros acc key. apply no_new_entries_prune.
Qed.

Lemma no_new_entries_perform (now : Z) (c : Call) (st : CacheStore) :
  writes_entry c = false → no_new_entries st (perform now c st).
Proof.
  intros Hc. destruct c; try discriminate Hc; cbn [perform].
  - unfold invalidate.
    destruct (read_property (stores st) store) as [s| |]; [|apply no_new_entries_refl..].
    destruct (negb (has_property (cached s) key)); [apply no_new_entries_refl|].
    destruct (is_never (policy s)); [apply no_new_entries_refl|].
    apply no_new_entries_delete.
  - unfold Earlier.invalidateIfExpired.
    destruct (read_property (stores st) store) as [s| |]; [|apply no_new_entries_refl..].
    destruct (is_never (policy s)); [apply no_new_entries_refl|].
    destruct (cached s !! key) as [e|]; [|apply no_new_entries_refl].
    destruct (expired now e (policy s)); [|apply no_new_entries_refl].
    destruct (frozen st); [apply no_new_entries_refl|].
    apply no_new_entries_delete_in_place.
  - unfold invalidateAll.
    destruct (read_property (stores st) store) as [s| |]; [|apply no_new_entries_refl..].
    destruct (is_never (policy s)); [apply no_new_entries_refl|].
    destruct (frozen st); [apply no_new_entries_refl|].
    apply no_new_entries_clear.
  - unfold invalidateAllOrThrow.
    destruct (read_property (stores st) store) as [s| |]; [|apply no_new_entries_refl..].
    destruct (is_never (policy s)); [apply no_new_entries_refl|].
    destruct (frozen st); [apply no_new_entries_refl|].
    apply no_new_entries_clear.
  - unfold invalidateAllStores. destruct (frozen st); [apply no_new_entries_refl|].
    apply (loop_keeps no_new_entries);
      [apply no_new_entries_refl|apply no_new_entries_trans|].
    intros acc store. apply no_new_entries_clear.
  - apply no_new_entries_prune.
  - apply no_new_entries_pruneAll.
  - unfold pruneAllStores. apply (loop_keeps no_new_entries);
      [apply no_new_entries_refl|apply no_new_entries_trans|].
    intros acc store. apply no_new_entries_pruneAll.
  - unfold getValue. destruct (read_property (stores st) store) as [s| |]; cbn [snd].
    + apply (no_new_entries_trans _ (prune now store key st));
        [apply no_new_entries_prune|].
      destruct (truthy (read_value s key)); by apply no_new_entries_same.
    + apply no_new_entries_refl.
    + apply no_new_entries_same. intros. apply entry_createStore.
  - apply no_new_entries_same. intros. apply entry_createStore.
  - by apply no_new_entries_same.
  - unfold setStorePolicy.
    destruct (read_property (stores st) store) as [s| |] eqn:Hs; cbn [snd];
      [|by apply no_new_entries_same|apply no_new_entries_refl].
    apply read_property_Own in Hs.
    apply no_new_entries_same. intros store' key'. unfold entry. simpl.
    rewrite lookup_insert. case_decide; [subst|done]. by rewrite Hs.
  - apply no_new_entries_refl.
  - by apply no_new_entries_same.
  - by apply no_new_entries_same.
Qed.

(** X16: entries come from [setValue] only: through any session without
    a [setValue] call, every entry found at the end was there at the
    start, with the same value and the same [assignedAt]; no other
    operation writes, restamps or moves an entry. *)
Theorem entries_from_setValue_X16 (calls : list (Z * Call)) (st : CacheStore) :
  Forall (λ tc, writes_entry tc.2 = false) calls →
  no_new_entries st (run calls st).
Proof.
  apply (run_keeps no_new_entries (λ c, writes_entry c = false)).
  - apply no_new_entries_refl.
  - apply no_new_entries_trans.
  - intros now c st' Hc. by apply no_new_entries_perform.
Qed.

Lemma entries_from_setValue_X16_witness :
  Forall (λ tc : Z * Call, writes_entry tc.2 = false)
    [(500, call_getValue "s" "k"); (600, call_createStore "t" noOverride);
     (1500, call_pruneAllStores)] ∧
  no_new_entries expiring_scenario
    (run [(500, call_getValue "s" "k"); (600, call_createStore "t" noOverride);
          (1500, call_pruneAllStores)] expiring_scenario).
Proof.
  assert (Hall : Forall (λ tc : Z * Call, writes_entry tc.2 = false)
    [(500, call_getValue "s" "k"); (600, call_createStore "t" noOverride);
     (1500, call_pruneAllStores)]).
  { repeat constructor. }
  exact (conj Hall (entries_from_setValue_X16 _ expiring_scenario Hall)).
Defined.

(** ** The counters over a session *)

Lemma counters_grow_refl (st : CacheStore) : counters_grow st st.
Proof. unfold counters_grow. lia. Qed.

Lemma counters_grow_trans (a b c : CacheStore) :
  counters_grow a b → counters_grow b c → counters_grow a c.
Proof. unfold counters_grow. intros (?&?&?) (?&?&?). repeat split; [lia|lia|congruence]. Qed.

Lemma counters_grow_same (a b : CacheStore) :
  _debugStatistics b = _debugStatistics a → counters_grow a b.
Proof. unfold counters_grow. intros ->. lia. Qed.

Lemma statistics_pruneAllStores (now : Z) (st : CacheStore) :
  _debugStatistics (pruneAllStores now st) = _debugStatistics st.
Proof. by rewrite pruneAllStores_as_pruned_store, statistics_after_recipes. Qed.

Lemma statistics_invalidateAllStores (st : CacheStore) :
  _debugStatistics (invalidateAllStores st) = _debugStatistics st.
Proof.
  unfold invalidateAllStores. destruct (frozen st); [done|].
  apply (foldl_keeps (λ acc, _debugStatistics acc = _debugStatistics st)); done.
Qed.

(** The calls that are not counting calls leave the statistics alone. *)
Lemma statistics_perform (now : Z) (c : Call) (st : CacheStore) :
  counts c = false → _debugStatistics (perform now c st) = _debugStatistics st.
Proof.
  intros Hc. destruct c; try discriminate Hc; cbn [perform].
  - unfold invalidate. destruct (read_property (stores st) store) as [s| |]; [|done..].
    destruct (negb (has_property (cached s) key)); [done|].
    by destruct (is_never (policy s)).
  - unfold Earlier.invalidateIfExpired.
    destruct (read_property (stores st) store) as [s| |]; [|done..].
    destruct (is_never (policy s)); [done|].
    destruct (cached s !! key) as [e|]; [|done].
    destruct (expired now e (policy s)); [|done]. by destruct (frozen st).
  - unfold invalidateAll. destruct (read_property (stores st) store) as [s| |]; [|done..].
    destruct (is_never (policy s)); [done|]. by destruct (frozen st).
  - unfold invalidateAllOrThrow.
    destruct (read_property (stores st) store) as [s| |]; [|done..].
    destruct (is_never (policy s)); [done|]. by destruct (frozen st).
  - apply statistics_invalidateAllStores.
  - apply statistics_prune.
  - by rewrite pruneAll_as_pruned_store, statistics_after_recipes.
  - apply statistics_pruneAllStores.
  - apply statistics_createStore.
  - apply statistics_setValue.
  - done.
  - unfold setStorePolicy. by destruct (read_property (stores st) store).
  - done.
Qed.

Lemma counters_grow_perform (now : Z) (c : Call) (st : CacheStore) :
  counters_grow st (perform now c st).
Proof.
  destruct (counts c) eqn:Hc.
  - destruct c; try discriminate Hc; cbn [perform].
    + unfold getValue. destruct (read_property (stores st) store) as [s| |]; cbn [snd].
      * destruct (truthy (read_value s key)); unfold counters_grow; simpl;
          rewrite statistics_prune; lia.
      * apply counters_grow_refl.
      * apply counters_grow_same, statistics_createStore.
    + unfold counters_grow. simpl. lia.
    + unfold counters_grow. simpl. lia.
  - by apply counters_grow_same, statistics_perform.
Qed.

(** X17: over any session, [hits] and [misses] never go down and
    [invalidationsDueToExpiry] never changes: no operation writes it.
    Only [getValue], [_incrementHits] and [_incrementMisses] touch the
    statistics at all: a session without them leaves the statistics as
    they were. *)
Theorem counters_X17 (calls : list (Z * Call)) (st : CacheStore) :
  counters_grow st (run calls st) ∧
  (Forall (λ tc, counts tc.2 = false) calls →
   _debugStatistics (run calls st) = _debugStatistics st).
Proof.
  split.
  - apply (run_keeps counters_grow (λ _, True)).
    + apply counters_grow_refl.
    + apply counters_grow_trans.
    + intros now c st' _. apply counters_grow_perform.
    + by apply Forall_true.
  - apply (run_keeps (λ a b, _debugStatistics b = _debugStatistics a)
             (λ c, counts c = false)).
    + done.
    + intros a b c Hab Hbc. congruence.
    + intros now c st' Hc. by apply statistics_perform.
Qed.

(** ** How the operations compose *)

Lemma misses_incrementMisses (st : CacheStore) :
  misses (_debugStatistics (_incrementMisses st)) = misses (_debugStatistics st) + 1.
Proof. reflexivity. Qed.

Lemma statistics_delete_cached (store key : string) (st : CacheStore) :
  _debugStatistics (delete_cached store key st) = _debugStatistics st.
Proof. reflexivity. Qed.

(** A store [setValue] leaves under its name was there before or has a
    name [Object.prototype] does not have. *)
Lemma setValue_plain_name (now : Z) (store key : string) (v : Value) (st : CacheStore) :
  is_Some (stores (setValue now store key v st) !! store) → plain_name st store.
Proof.
  intros Hs. unfold plain_name. destruct (stores st !! store) as [s|] eqn:Hst; [eauto|].
  right. destruct (inherited store) eqn:Hi; [|done].
  unfold setValue in Hs.
  rewrite (proj2 (read_property_FromPrototype _ _) (conj Hst Hi)), Hst in Hs.
  by destruct Hs.
Qed.

(** X18: an entry just written can be invalidated unless the store's
    policy is [never].  After a [setValue(store, key, v)] that leaves a
    store under [store], for a key other than [__proto__]: in a store
    whose policy is not [never], [invalidate(store, key)] answers [true]
    and a [getValue] that follows returns [undefined] and counts a miss;
    in a store whose policy is [never], [invalidate] answers [false] and
    the [getValue] that follows, at any time, returns [v]. *)
Theorem set_invalidate_get_X18
    (now now' : Z) (store key : string) (v : Value) (st : CacheStore) (s : Store) :
  stores (setValue now store key v st) !! store = Some s →
  key ≠ "__proto__" →
  let r := invalidate store key (setValue now store key v st) in
  (invalidationPolicy (policy s) ≠ Some never →
     r.1 = true ∧
     (getValue now' store key r.2).1 = VUndefined ∧
     misses (_debugStatistics (getValue now' store key r.2).2)
       = misses (_debugStatistics st) + 1) ∧
  (invalidationPolicy (policy s) = Some never →
     r.1 = false ∧ (getValue now' store key r.2).1 = v).
Proof.
  intros Hs Hk.
  assert (Hplain : plain_name st store) by (apply (setValue_plain_name now store key v); eauto).
  destruct (setValue_entry now store key v st Hplain Hk) as (s' & Hs' & He).
  rewrite Hs in Hs'. injection Hs' as <-. cbv zeta. split.
  - intros Hp.
    rewrite (invalidate_removes store key _ s _ Hs He Hp). cbn [fst snd].
    split; [done|].
    assert (Hs2 : stores (delete_cached store key (setValue now store key v st)) !! store
                  = Some (with_cached (delete key (cached s)) s)).
    { rewrite stores_delete_cached, decide_True, Hs by done. done. }
    rewrite (getValue_existing now' store key _ _ Hs2).
    assert (Hr : read_value (with_cached (delete key (cached s)) s) key = VUndefined).
    { unfold read_value. simpl. by rewrite lookup_delete_eq. }
    rewrite Hr. cbn [fst snd truthy]. split; [done|].
    rewrite misses_incrementMisses, statistics_prune, statistics_delete_cached.
    by rewrite statistics_setValue.
  - intros Hp.
    assert (Hrefused : invalidate store key (setValue now store key v st)
                       = (Normal false, setValue now store key v st)).
    { unfold invalidate. rewrite (read_property_lookup _ _ _ Hs).
      rewrite (has_property_lookup _ _ _ He). apply is_never_true in Hp.
      by rewrite Hp. }
    rewrite Hrefused. cbn [fst snd].
    split; [done|]. rewrite (getValue_existing now' store key _ s Hs).
    unfold read_value. by rewrite He.
Qed.

Lemma set_invalidate_get_X18_witness :
  stores (setValue 0 "s" "k" (VNumber 1) never_scenario) !! "s" = Some never_store ∧
  "k" ≠ "__proto__" ∧
  (invalidationPolicy (policy never_store) = Some never →
     (invalidate "s" "k" (setValue 0 "s" "k" (VNumber 1) never_scenario)).1 = false ∧
     (getValue 9 "s" "k"
        (invalidate "s" "k" (setValue 0 "s" "k" (VNumber 1) never_scenario)).2).1
       = VNumber 1).
Proof.
  assert (Hs : stores (setValue 0 "s" "k" (VNumber 1) never_scenario) !! "s"
               = Some never_store) by reflexivity.
  assert (Hk : "k" ≠ "__proto__") by discriminate.
  exact (conj Hs (conj Hk (proj2
    (set_invalidate_get_X18 0 9 "s" "k" (VNumber 1) never_scenario never_store Hs Hk)))).
Defined.

(** The store [createStore] leaves under its name. *)
Lemma stores_createStore (store name : string) (partial : Partial.Policy) (st : CacheStore) :
  stores (createStore store partial st) !! name =
    if decide (store = name)
    then match stores st !! store with
         | Some s => Some s
         | None =>
             if inherited store then None
             else Some {| cached := ∅; policy := spread (globalPolicy st) partial |}
         end
    else stores st !! name.
Proof.
  unfold createStore, read_property.
  destruct (stores st !! store) as [s|] eqn:Hs; [|destruct (inherited store)]; simpl.
  - case_decide; [subst|done]. done.
  - case_decide; [subst|done]. done.
  - apply lookup_insert.
Qed.

Lemma frozen_createStore (store : string) (partial : Partial.Policy) (st : CacheStore) :
  frozen (createStore store partial st)
  = match read_property (stores st) store with
    | NotFound => true
    | _ => frozen st
    end.
Proof. unfold createStore. by destruct (read_property (stores st) store). Qed.

Lemma stores_createStore_ne' (store name : string) (partial : Partial.Policy)
    (st : CacheStore) :
  stores (createStore store partial st) !! name =
    if decide (store = name) then stores (createStore store partial st) !! store
    else stores st !! name.
Proof.
  case_decide; [by subst|]. apply stores_createStore_ne. congruence.
Qed.

(** What [setValue] leaves: the stores, and whether the objects are
    frozen. *)
Lemma stores_setValue (now : Z) (store key : string) (v : Value) (st : CacheStore)
    (name : string) :
  stores (setValue now store key v st) !! name =
    if decide (store = name)
    then written key {| value := v; assignedAt := now |}
           <$> stores (createStore store noOverride st) !! store
    else stores st !! name.
Proof.
  unfold setValue, write_value, written.
  rewrite stores_createStore, (decide_True (P := store = store)) by done.
  unfold read_property.
  destruct (stores st !! store) as [s|] eqn:Hs; [|destruct (inherited store) eqn:Hi];
    case_bool_decide; rewrite ?stores_assign_cached, ?stores_createStore,
      ?(decide_True (P := store = store)), ?Hs, ?Hi by done; simpl.
  - case_decide; [subst|done]. done.
  - done.
  - case_decide; [subst|done]. done.
  - case_decide; [subst|done]. done.
  - done.
  - by case_decide.
Qed.

Lemma frozen_setValue (now : Z) (store key : string) (v : Value) (st : CacheStore) :
  frozen (setValue now store key v st) = setValue_produces store key st || frozen st.
Proof.
  unfold setValue, setValue_produces, write_value.
  destruct (read_property (stores st) store) eqn:Hr; [| done |].
  - by case_bool_decide.
  - case_bool_decide; [|done].
    by rewrite (frozen_createStore store noOverride st), Hr.
Qed.

Lemma globalPolicy_setValue (now : Z) (store key : string) (v : Value) (st : CacheStore) :
  globalPolicy (setValue now store key v st) = globalPolicy st.
Proof.
  unfold setValue. destruct (read_property (stores st) store);
    rewrite ?globalPolicy_write_value; [done..|]. apply globalPolicy_createStore.
Qed.

(** Whether a later [setValue] on [store'] runs a recipe is not changed
    by an earlier one on another store. *)
Lemma setValue_produces_other (now : Z) (store key store' key' : string) (v : Value)
    (st : CacheStore) :
  store' ≠ store →
  setValue_produces store' key' (setValue now store key v st)
  = setValue_produces store' key' st.
Proof.
  intros Hne. unfold setValue_produces, read_property.
  rewrite stores_setValue, decide_False by done. done.
Qed.

(** The store [setValue] leaves under its own name, case by case. *)
Lemma stores_setValue_own (now : Z) (store key : string) (v : Value) (st : CacheStore) :
  stores (setValue now store key v st) !! store =
    match stores st !! store with
    | Some s => Some (written key {| value := v; assignedAt := now |} s)
    | None =>
        if inherited store then None
        else Some (written key {| value := v; assignedAt := now |}
                     {| cached := ∅; policy := globalPolicy st |})
    end.
Proof.
  rewrite stores_setValue, decide_True, stores_createStore, decide_True by done.
  destruct (stores st !! store); [done|]. destruct (inherited store); [done|].
  simpl. by rewrite spread_noOverride.
Qed.

Lemma written_twice (key : string) (e1 e2 : Entry) (s : Store) :
  written key e2 (written key e1 s) = written key e2 s.
Proof.
  unfold written. case_bool_decide; [done|]. unfold with_cached. simpl.
  by rewrite insert_insert_eq.
Qed.

Lemma written_commute (key key' : string) (e e' : Entry) (s : Store) :
  key' ≠ key →
  written key' e' (written key e s) = written key e (written key' e' s).
Proof.
  intros Hne. unfold written. repeat case_bool_decide; try done.
  unfold with_cached. simpl. f_equal. by apply insert_insert_ne.
Qed.

(** X19: the last write wins: [setValue] of a key over an earlier
    [setValue] of the same key leaves the state the later one alone would
    leave, with the later value and the later time stamp; writes to
    different keys, or to different stores, can be made in either order,
    whether or not the stores exist beforehand. *)
Theorem setValue_last_write_X19
    (t1 t2 : Z) (store key : string) (v1 v2 : Value) (st : CacheStore) :
  setValue t2 store key v2 (setValue t1 store key v1 st) = setValue t2 store key v2 st ∧
  (∀ key', key' ≠ key →
     setValue t2 store key' v2 (setValue t1 store key v1 st)
     = setValue t1 store key v1 (setValue t2 store key' v2 st)) ∧
  (∀ store' key', store' ≠ store →
     setValue t2 store' key' v2 (setValue t1 store key v1 st)
     = setValue t1 store key v1 (setValue t2 store' key' v2 st)).
Proof.
  split; [|split].
  - apply CacheStore_eq;
      [|by rewrite !globalPolicy_setValue|by rewrite !statistics_setValue|].
    + apply map_eq. intros name. rewrite (stores_setValue t2 _ _ _ (setValue _ _ _ _ _)).
      rewrite (stores_setValue t2 _ _ _ st).
      case_decide; [subst name|by rewrite stores_setValue, decide_False].
      rewrite !stores_createStore, !decide_True by done.
      rewrite stores_setValue_own.
      destruct (stores st !! store); [|destruct (inherited store)]; simpl;
        rewrite ?spread_noOverride, ?written_twice; done.
    + rewrite !frozen_setValue. unfold setValue_produces at 1, read_property.
      rewrite stores_setValue_own. unfold setValue_produces, read_property.
      destruct (stores st !! store); [|destruct (inherited store)];
        by destruct (bool_decide (key = "__proto__")), (frozen st).
  - intros key' Hk. apply CacheStore_eq;
      [|by rewrite !globalPolicy_setValue|by rewrite !statistics_setValue|].
    + apply map_eq. intros name.
      rewrite (stores_setValue t2 _ _ _ (setValue _ _ _ _ _)).
      rewrite (stores_setValue t1 _ _ _ (setValue _ _ _ _ _)).
      case_decide; [subst name|by rewrite !stores_setValue, !decide_False].
      rewrite !stores_createStore, !decide_True by done.
      rewrite !stores_setValue_own.
      destruct (stores st !! store); [|destruct (inherited store)]; simpl;
        rewrite ?spread_noOverride; try done; f_equal; by apply written_commute.
    + rewrite !frozen_setValue. unfold setValue_produces at 1 3, read_property.
      rewrite !stores_setValue_own. unfold setValue_produces, read_property.
      destruct (stores st !! store); [|destruct (inherited store)];
        by destruct (bool_decide (key = "__proto__")),
                    (bool_decide (key' = "__proto__")), (frozen st).
  - intros store' key' Hne. apply CacheStore_eq;
      [|by rewrite !globalPolicy_setValue|by rewrite !statistics_setValue|].
    + apply map_eq. intros name. rewrite !stores_setValue.
      rewrite !stores_createStore, !(decide_True (P := store = store)),
        !(decide_True (P := store' = store')) by done.
      rewrite !stores_setValue, !globalPolicy_setValue.
      rewrite (decide_False (P := store = store')) by congruence.
      rewrite (decide_False (P := store' = store)) by congruence.
      repeat case_decide; subst; congruence.
    + rewrite !frozen_setValue.
      rewrite (setValue_produces_other t1 store key store' key' v1 st) by done.
      rewrite (setValue_produces_other t2 store' key' store key v2 st) by congruence.
      by destruct (setValue_produces store' key' st), (setValue_produces store key st),
                  (frozen st).
Qed.

(** ** The loops and the order of [for ... in] *)

Lemma store_eq (a b : Store) :
  policy a = policy b → (∀ key, cached a !! key = cached b !! key) → a = b.
Proof.
  destruct a as [ca pa], b as [cb pb]. simpl. intros -> H. f_equal. by apply map_eq.
Qed.

Lemma prune_loop_missing (now : Z) (store : string) (l : list string) (st : CacheStore) :
  stores st !! store = None →
  foldl (λ acc key, prune now store key acc) st l = st.
Proof.
  intros Hs. apply (foldl_keeps (λ acc, acc = st)); [|done].
  intros acc key ->. unfold prune. by rewrite Hs.
Qed.

Lemma decide_elem_of_iff (l l' : list string) (k : string) {A : Type} (x y : A) :
  (k ∈ l ↔ k ∈ l') →
  (if decide (k ∈ l) then x else y) = (if decide (k ∈ l') then x else y).
Proof. intros H. repeat case_decide; tauto. Qed.

Lemma pruneAll_loop_frame (now : Z) (l : list string) (st : CacheStore) :
  globalPolicy (foldl (λ acc name, pruneAll now name acc) st l) = globalPolicy st ∧
  _debugStatistics (foldl (λ acc name, pruneAll now name acc) st l) = _debugStatistics st.
Proof.
  apply (foldl_keeps (λ acc, globalPolicy acc = globalPolicy st ∧
                             _debugStatistics acc = _debugStatistics st)); [|done].
  intros acc name [H1 H2].
  by rewrite pruneAll_as_pruned_store, globalPolicy_after_recipes,
    statistics_after_recipes.
Qed.

Lemma clear_loop_frame (l : list string) (st : CacheStore) :
  globalPolicy (foldl (λ acc name, clear_cached name acc) st l) = globalPolicy st ∧
  _debugStatistics (foldl (λ acc name, clear_cached name acc) st l) = _debugStatistics st ∧
  frozen (foldl (λ acc name, clear_cached name acc) st l) = frozen st.
Proof.
  apply (foldl_keeps (λ acc, globalPolicy acc = globalPolicy st ∧
                             _debugStatistics acc = _debugStatistics st ∧
                             frozen acc = frozen st)); done.
Qed.

(** X20: the three loops give a result that depends on which names they
    visit only, not on the order of the visits nor on a name coming up
    twice: the loop of [pruneAll] over keys, the loop of [pruneAllStores]
    over stores and the loop of [invalidateAllStores] over stores leave
    the same state for any two enumerations of the same names. *)
Theorem loops_order_X20 (now : Z) (store : string) (st : CacheStore) (l l' : list string) :
  (∀ k, k ∈ l ↔ k ∈ l') →
  foldl (λ acc key, prune now store key acc) st l
  = foldl (λ acc key, prune now store key acc) st l' ∧
  foldl (λ acc name, pruneAll now name acc) st l
  = foldl (λ acc name, pruneAll now name acc) st l' ∧
  foldl (λ acc name, clear_cached name acc) st l
  = foldl (λ acc name, clear_cached name acc) st l'.
Proof.
  intros Hl. split; [|split].
  - destruct (stores st !! store) as [s|] eqn:Hs.
    + destruct (prune_loop now store l st s Hs) as (s1 & H1 & Hp1 & Hc1).
      destruct (prune_loop now store l' st s Hs) as (s2 & H2 & Hp2 & Hc2).
      destruct (prune_loop_frame now store l st) as (Hf1 & Hg1 & Hd1).
      destruct (prune_loop_frame now store l' st) as (Hf2 & Hg2 & Hd2).
      apply CacheStore_eq; [|congruence|congruence|].
      * apply map_eq. intros name. destruct (decide (name = store)) as [->|Hne].
        -- rewrite H1, H2. f_equal. apply store_eq; [congruence|].
           intros key. rewrite Hc1, Hc2. by apply decide_elem_of_iff.
        -- by rewrite Hf1, Hf2.
      * rewrite !(prune_loop_frozen now store _ st s Hs).
        f_equal. by apply existsb_same_elements.
    + by rewrite !prune_loop_missing.
  - destruct (pruneAll_loop_frame now l st) as [Hg1 Hd1].
    destruct (pruneAll_loop_frame now l' st) as [Hg2 Hd2].
    apply CacheStore_eq; [|congruence|congruence|].
    + apply map_eq. intros name. rewrite !pruneAll_loop. by apply decide_elem_of_iff.
    + rewrite !pruneAll_loop_frozen. f_equal. by apply existsb_same_elements.
  - destruct (clear_loop_frame l st) as (Hg1 & Hd1 & Hz1).
    destruct (clear_loop_frame l' st) as (Hg2 & Hd2 & Hz2).
    apply CacheStore_eq; [|congruence..].
    apply map_eq. intros name. rewrite !stores_clear_all. by apply decide_elem_of_iff.
Qed.

Lemma loops_order_X20_witness :
  (∀ k : string, k ∈ ["s"; "a"] ↔ k ∈ ["a"; "s"; "a"]) ∧
  foldl (λ acc name, pruneAll 1500 name acc) always_scenario ["s"; "a"]
  = foldl (λ acc name, pruneAll 1500 name acc) always_scenario ["a"; "s"; "a"].
Proof.
  assert (Hl : ∀ k : string, k ∈ ["s"; "a"] ↔ k ∈ ["a"; "s"; "a"]).
  { intros k. rewrite !elem_of_cons, !elem_of_nil. tauto. }
  exact (conj Hl (proj1 (proj2
    (loops_order_X20 1500 "s" always_scenario ["s"; "a"] ["a"; "s"; "a"] Hl)))).
Defined.

(** ** Plain names, frozen objects and the two listings *)

(** X21: [invalidate(store, key)], for a store name and a key that
    [Object.prototype] does not have, returns [false] and leaves the
    state as it is when the store is missing, when the key is not in the
    store, or when the store's [invalidationPolicy] is [never]; otherwise
    it returns [true] and the next state differs from the state by
    exactly that entry: the entry is gone, every other entry of every
    store, every store's policy, the global policy and the statistics
    are as before.  A second [invalidate] of the same key returns
    [false]. *)
Theorem invalidate_plain_names_X21 (store key : string) (st : CacheStore) :
  inherited store = false →
  inherited key = false →
  (stores st !! store = None ∨
   entry st store key = None ∨
   (∃ s, stores st !! store = Some s ∧ invalidationPolicy (policy s) = Some never) →
   invalidate store key st = (Normal false, st)) ∧
  (∀ s e,
     stores st !! store = Some s →
     cached s !! key = Some e →
     invalidationPolicy (policy s) ≠ Some never →
     ∃ st',
       invalidate store key st = (Normal true, st') ∧
       (∀ store' key',
          entry st' store' key' =
            if decide (store' = store ∧ key' = key) then None else entry st store' key') ∧
       (∀ name, policy <$> stores st' !! name = policy <$> stores st !! name) ∧
       dom (stores st') = dom (stores st) ∧
       globalPolicy st' = globalPolicy st ∧
       _debugStatistics st' = _debugStatistics st) ∧
  (invalidate store key (invalidate store key st).2).1 = false.
Proof. apply invalidate_contract. Qed.

Lemma invalidate_plain_names_X21_witness :
  inherited "s" = false ∧
  inherited "k" = false ∧
  (invalidate "s" "k" (invalidate "s" "k" expiring_scenario).2).1 = false.
Proof.
  assert (Hs : inherited "s" = false) by reflexivity.
  assert (Hk : inherited "k" = false) by reflexivity.
  exact (conj Hs (conj Hk (proj2 (proj2
    (invalidate_plain_names_X21 "s" "k" expiring_scenario Hs Hk))))).
Defined.

(** X22: on a state whose store objects are not frozen, as it is right
    after hydration, [invalidateAllStores()] returns and leaves no entry
    in any store; the stores are there under the same names with the
    same policies, a store with the policy [never] included; the global
    policy and the statistics are as before. *)
Theorem invalidateAllStores_hydrated_X22 (st : CacheStore) :
  frozen st = false →
  invalidateAllStores_ends st = Returns ∧
  (∀ store key, entry (invalidateAllStores st) store key = None) ∧
  (∀ name, stores (invalidateAllStores st) !! name
             = (λ s, {| cached := ∅; policy := policy s |}) <$> stores st !! name) ∧
  globalPolicy (invalidateAllStores st) = globalPolicy st ∧
  _debugStatistics (invalidateAllStores st) = _debugStatistics st.
Proof. apply invalidateAllStores_unfrozen. Qed.

Lemma invalidateAllStores_hydrated_X22_witness :
  frozen (restart never_scenario) = false ∧
  invalidateAllStores_ends (restart never_scenario) = Returns ∧
  (∀ store key, entry (invalidateAllStores (restart never_scenario)) store key = None).
Proof.
  assert (Hf : frozen (restart never_scenario) = false) by reflexivity.
  exact (conj Hf (conj
    (proj1 (invalidateAllStores_hydrated_X22 (restart never_scenario) Hf))
    (proj1 (proj2 (invalidateAllStores_hydrated_X22 (restart never_scenario) Hf))))).
Defined.

(** X23: [invalidateAllOrThrow(store)], case by case.  It throws the
    error that names the store when [stores] has nothing under the name,
    and the error that names the policy when the store's policy is
    [never]; under a name inherited from [Object.prototype] it throws a
    [TypeError]; in all three cases the state is left as it is.  On a
    store with another policy it returns and empties the store where the
    store object is not frozen, and throws a [TypeError], the state left
    as it is, where the store object is frozen. *)
Theorem invalidateAllOrThrow_cases_X23 (store : string) (st : CacheStore) :
  (stores st !! store = None → inherited store = false →
   invalidateAllOrThrow store st
     = (Throws (Error ("Store " +:+ store +:+ " does not exist.")), st)) ∧
  (stores st !! store = None → inherited store = true →
   invalidateAllOrThrow store st = (Throws TypeError, st)) ∧
  (∀ s, stores st !! store = Some s →
        invalidationPolicy (policy s) = Some never →
        invalidateAllOrThrow store st
          = (Throws (Error ("Store " +:+ store +:+
                            " cannot be invalidated because it has a policy of 'never'.")),
             st)) ∧
  (∀ s, stores st !! store = Some s →
        invalidationPolicy (policy s) ≠ Some never →
        frozen st = true →
        invalidateAllOrThrow store st = (Throws TypeError, st)) ∧
  (∀ s, stores st !! store = Some s →
        invalidationPolicy (policy s) ≠ Some never →
        frozen st = false →
        (invalidateAllOrThrow store st).1 = Returns ∧
        stores (invalidateAllOrThrow store st).2 !! store
          = Some {| cached := ∅; policy := policy s |} ∧
        (∀ key, entry (invalidateAllOrThrow store st).2 store key = None) ∧
        (∀ name, name ≠ store →
           stores (invalidateAllOrThrow store st).2 !! name = stores st !! name) ∧
        globalPolicy (invalidateAllOrThrow store st).2 = globalPolicy st ∧
        _debugStatistics (invalidateAllOrThrow store st).2 = _debugStatistics st).
Proof.
  destruct (invalidateAllOrThrow_cases store st) as (H1 & H2 & H3 & H4 & H5).
  split; [done|]. split; [done|]. split; [done|]. split; [done|].
  intros s Hs Hp Hf. rewrite (H5 s Hs Hp Hf). cbn [fst snd]. split; [done|].
  destruct (clear_cached_leaves store st s Hs) as (C1 & C2 & C3 & C4 & C5 & _).
  done.
Qed.

(** X24: the [prune] of the first listing against the one of the
    second, on an entry that is due.  On objects that are not frozen
    both return and remove the entry, the first in the store's own
    dictionary and the second on new objects.  On frozen objects the
    second removes the entry and the first throws a [TypeError] and
    leaves the state as it is, the entry included. *)
Theorem prune_listings_X24
    (now : Z) (store key : string) (st : CacheStore) (s : Store) (e : Entry) :
  stores st !! store = Some s →
  cached s !! key = Some e →
  due now s e →
  prune_ends store st = Returns ∧
  entry (prune now store key st) store key = None ∧
  (frozen st = false →
     Earlier.prune_ends now store key st = Returns ∧
     Earlier.prune now store key st = delete_in_place store key st ∧
     stores (Earlier.prune now store key st) = stores (prune now store key st) ∧
     frozen (Earlier.prune now store key st) = false) ∧
  (frozen st = true →
     Earlier.prune_ends now store key st = Throws TypeError ∧
     Earlier.prune now store key st = st ∧
     entry (Earlier.prune now store key st) store key = Some e).
Proof.
  intros Hs He [Hp Hold].
  assert (Hentry : entry st store key = Some e).
  { unfold entry. rewrite Hs. done. }
  split; [|split; [|split]].
  - unfold prune_ends. by rewrite (read_property_lookup _ _ _ Hs).
  - rewrite (prune_removes now store key st s e Hs He Hp Hold).
    rewrite entry_delete_cached. by rewrite decide_True.
  - intros Hf. destruct (prune_listings_agree now store key st Hf) as [Hst Hends].
    rewrite Hends. split; [|split; [|split]]; [|  |done|].
    + unfold prune_ends. by rewrite (read_property_lookup _ _ _ Hs).
    + apply is_on_expiry_true in Hp. apply expired_true in Hold.
      unfold Earlier.prune. by rewrite Hs, He, Hp, Hold, Hf.
    + apply is_on_expiry_true in Hp. apply expired_true in Hold.
      unfold Earlier.prune. by rewrite Hs, He, Hp, Hold, Hf.
  - intros Hf.
    destruct (earlier_prune_frozen now store key st s e Hf Hs He Hp Hold) as [H1 H2].
    rewrite H1, H2. done.
Qed.

Lemma prune_listings_X24_witness :
  stores expiring_scenario !! "s" = Some expiring_store ∧
  cached expiring_store !! "k" = Some expiring_entry ∧
  due 1500 expiring_store expiring_entry ∧
  frozen expiring_scenario = true ∧
  Earlier.prune_ends 1500 "s" "k" expiring_scenario = Throws TypeError ∧
  Earlier.prune 1500 "s" "k" expiring_scenario = expiring_scenario ∧
  entry (Earlier.prune 1500 "s" "k" expiring_scenario) "s" "k" = Some expiring_entry.
Proof.
  assert (Hs : stores expiring_scenario !! "s" = Some expiring_store) by reflexivity.
  assert (He : cached expiring_store !! "k" = Some expiring_entry) by reflexivity.
  assert (Hd : due 1500 expiring_store expiring_entry).
  { split; [reflexivity|]. exists 1000. split; [reflexivity|]. simpl. lia. }
  assert (Hf : frozen expiring_scenario = true) by reflexivity.
  exact (conj Hs (conj He (conj Hd (conj Hf
    (proj2 (proj2 (proj2
       (prune_listings_X24 1500 "s" "k" expiring_scenario expiring_store expiring_entry
          Hs He Hd))) Hf))))).
Defined.

(** The loops of the first listing on frozen objects: nothing changes,
    and the loop of [pruneAll] throws exactly when the store holds an
    entry that is due. *)
Lemma earlier_prune_frozen_state (now : Z) (store key : string) (st : CacheStore) :
  frozen st = true → Earlier.prune now store key st = st.
Proof.
  intros Hf. unfold Earlier.prune. rewrite Hf.
  destruct (stores st !! store) as [s|]; [|done].
  destruct (negb (is_on_expiry (policy s))); [done|].
  destruct (cached s !! key) as [e|]; [|done].
  by destruct (expired now e (policy s)).
Qed.

Lemma earlier_pruneAll_frozen (now : Z) (store : string) (st : CacheStore) :
  frozen st = true →
  Earlier.pruneAll now store st = st ∧
  Earlier.pruneAllStores now st = st.
Proof.
  intros Hf.
  assert (Hall : ∀ name, Earlier.pruneAll now name st = st).
  { intros name. unfold Earlier.pruneAll. destruct (stores st !! name); [|done].
    apply (foldl_keeps (λ acc, acc = st)); [|done].
    intros acc key ->. by apply earlier_prune_frozen_state. }
  split; [apply Hall|].
  unfold Earlier.pruneAllStores. apply (foldl_keeps (λ acc, acc = st)); [|done].
  intros acc name ->. apply Hall.
Qed.

Lemma earlier_pruneAll_ends_throws (now : Z) (store : string) (st : CacheStore) :
  Earlier.pruneAll_ends now store st = Throws TypeError ↔
  frozen st = true ∧
  ∃ s key e, stores st !! store = Some s ∧ cached s !! key = Some e ∧ due now s e.
Proof.
  unfold Earlier.pruneAll_ends.
  destruct (stores st !! store) as [s|] eqn:Hs; cycle 1.
  { split; [done|]. by intros [_ (s & key & e & [=] & _)]. }
  assert (Hkey : ∀ key, throws (Earlier.prune_ends now store key st) = true ↔
                        frozen st = true ∧ ∃ e, cached s !! key = Some e ∧ due now s e).
  { intros key. unfold Earlier.prune_ends. rewrite (read_property_lookup _ _ _ Hs).
    destruct (cached s !! key) as [e|] eqn:He.
    - destruct (is_on_expiry (policy s)) eqn:Hp; simpl.
      + destruct (expired now e (policy s)) eqn:Hx, (frozen st) eqn:Hf; simpl;
          split; try done.
        * intros _. split; [done|]. exists e. split; [done|].
          apply dueb_true. unfold dueb. by rewrite Hp, Hx.
        * by intros [? _].
        * intros [_ (e' & [= <-] & Hd)]. apply dueb_true in Hd. unfold dueb in Hd.
          by rewrite Hp, Hx in Hd.
        * by intros [? _].
      + split; [done|]. intros [_ (e' & [= <-] & Hd)]. apply dueb_true in Hd.
        unfold dueb in Hd. by rewrite Hp in Hd.
    - destruct (negb (is_on_expiry (policy s))); split; try done;
        by intros [_ (e' & [=] & _)]. }
  destruct (existsb _ _) eqn:Hex.
  - split; [|done]. intros _. apply existsb_exists in Hex as (key & _ & Hk).
    apply Hkey in Hk as [Hf (e & He & Hd)]. split; [done|]. eauto 10.
  - split; [done|]. intros [Hf (s' & key & e & [= <-] & He & Hd)].
    assert (Hin : existsb (λ key, throws (Earlier.prune_ends now store key st))
                    (keys (cached s)) = true); [|congruence].
    apply existsb_exists. exists key. split.
    + apply list_elem_of_In, elem_of_keys. eauto.
    + apply Hkey. eauto.
Qed.

(** X25: [invalidate(store, key)] of the first listing has no test of
    the key.  On a store that exists with a policy other than [never]
    it answers [true] for a key the store does not hold and leaves the
    state as it is; for a key the store holds it removes the entry and
    answers [true] where the objects are not frozen, and throws a
    [TypeError], the state left as it is, where they are frozen.  On a
    missing store and on a store with the policy [never] it answers
    [false] and leaves the state as it is. *)
Theorem earlier_invalidate_X25 (store key : string) (st : CacheStore) :
  (stores st !! store = None → inherited store = false →
     Earlier.invalidate store key st = (Normal false, st)) ∧
  (∀ s, stores st !! store = Some s →
        invalidationPolicy (policy s) = Some never →
        Earlier.invalidate store key st = (Normal false, st)) ∧
  (∀ s, stores st !! store = Some s →
        invalidationPolicy (policy s) ≠ Some never →
        cached s !! key = None →
        Earlier.invalidate store key st = (Normal true, st)) ∧
  (∀ s e, stores st !! store = Some s →
          invalidationPolicy (policy s) ≠ Some never →
          cached s !! key = Some e →
          (frozen st = true →
             Earlier.invalidate store key st = (Abrupt TypeError, st)) ∧
          (frozen st = false →
             (Earlier.invalidate store key st).1 = true ∧
             ∀ store' key',
               entry (Earlier.invalidate store key st).2 store' key' =
                 if decide (store' = store ∧ key' = key) then None
                 else entry st store' key')).
Proof.
  unfold Earlier.invalidate. split; [|split; [|split]].
  - intros Hs Hi. by rewrite (proj2 (read_property_NotFound _ _) (conj Hs Hi)).
  - intros s Hs Hp. rewrite (read_property_lookup _ _ _ Hs).
    apply is_never_true in Hp. by rewrite Hp.
  - intros s Hs Hp He. rewrite (read_property_lookup _ _ _ Hs).
    apply is_never_false in Hp. by rewrite Hp, He.
  - intros s e Hs Hp He. rewrite (read_property_lookup _ _ _ Hs).
    apply is_never_false in Hp. rewrite Hp, He. split; intros ->; [done|].
    cbn [fst snd]. split; [done|]. intros store' key'.
    exact (entry_delete_cached store key store' key' st).
Qed.

(** X26: under a store name that no store has and [Object.prototype]
    has, the test [!storeInstance] lets the call through.  [getValue],
    [invalidate], [invalidateAll], [invalidateAllOrThrow], [prune] and
    [setValue] throw a [TypeError]; [createStore] and [pruneAll] return;
    none of them changes the state, and no store is created. *)
Theorem inherited_store_name_X26 (now : Z) (store key : string) (v : Value)
    (partial : Partial.Policy) (st : CacheStore) :
  stores st !! store = None →
  inherited store = true →
  getValue now store key st = (Abrupt TypeError, st) ∧
  invalidate store key st = (Abrupt TypeError, st) ∧
  invalidateAll store st = (Abrupt TypeError, st) ∧
  invalidateAllOrThrow store st = (Throws TypeError, st) ∧
  prune_ends store st = Throws TypeError ∧
  prune now store key st = st ∧
  setValue_ends store key st = Throws TypeError ∧
  setValue now store key v st = st ∧
  createStore store partial st = st ∧
  pruneAll now store st = st.
Proof.
  intros Hs Hi.
  assert (Hr : read_property (stores st) store = FromPrototype).
  { by apply read_property_FromPrototype. }
  unfold getValue, invalidate, invalidateAll, invalidateAllOrThrow, prune_ends, prune,
    setValue_ends, setValue, createStore, pruneAll.
  rewrite Hr, Hs. repeat split.
Qed.

Lemma inherited_store_name_X26_witness :
  stores expiring_scenario !! "constructor" = None ∧
  inherited "constructor" = true ∧
  getValue 0 "constructor" "k" expiring_scenario = (Abrupt TypeError, expiring_scenario) ∧
  setValue 0 "constructor" "k" (VNumber 1) expiring_scenario = expiring_scenario.
Proof.
  assert (Hs : stores expiring_scenario !! "constructor" = None) by reflexivity.
  assert (Hi : inherited "constructor" = true) by reflexivity.
  pose proof (inherited_store_name_X26 0 "constructor" "k" (VNumber 1) noOverride
                expiring_scenario Hs Hi) as (H1 & _ & _ & _ & _ & _ & _ & H8 & _).
  exact (conj Hs (conj Hi (conj H1 H8))).
Defined.
